(** * awsqeapi: a shallow embedding of the gateway's pure cores

    The development follows the Python sources of the gateway:

    - [src/core/delta_utils.py] and [src/integrations/replicate.py]
      ([delta_by_prefix], [_delta_by_prefix], [AwsEventStreamParser]);
    - [src/services/account_service.py] ([update_account_stats]);
    - [src/security/advanced.py] ([AdvancedKeyManager.verify_key]);
    - [src/integrations/claude/converter.py] (the images of a request,
      from [process_history] to the pruning);
    - [src/core/request_dedupe.py] ([fingerprint]);
    - [src/core/context_compressor.py] and [src/core/tokenizer.py].

    Python [str] values are sequences of code points; they are modelled
    as lists.  Python [int] is unbounded and is modelled by [Z] (or [nat]
    for lengths and indices that are never negative).

    The file has three parts: the embedding of the sources, the
    vocabulary of the specification together with concrete test data,
    and the properties with their proofs. *)

From Stdlib Require Import ZArith Lia List Bool Ascii String.
From stdpp Require Import base list gmap strings sorting.

Local Open Scope Z_scope.

(** ** Python sequence primitives used by the sources *)

Module Py.

Section Seq.
Context {A : Type} `{EqDecision A}.

(** [s.startswith(p)] *)
Fixpoint startswith (s p : list A) {struct p} : bool :=
  match p with
  | [] => true
  | y :: p' =>
      match s with
      | [] => false
      | x :: s' => if decide (x = y) then startswith s' p' else false
      end
  end.

(** [s.endswith(p)] *)
Definition endswith (s p : list A) : bool :=
  startswith (rev s) (rev p).

(** [s.find(p)]: the lowest index at which [p] occurs in [s], [-1] when
    it does not occur.  [find_from] carries the index of the head. *)
Fixpoint find_from (s p : list A) (i : Z) : Z :=
  if startswith s p then i
  else match s with
       | [] => -1
       | _ :: s' => find_from s' p (i + 1)
       end.

Definition find (s p : list A) : Z := find_from s p 0.

(** truthiness of a sequence: [bool(s)] *)
Definition truthy (s : list A) : bool :=
  match s with [] => false | _ :: _ => true end.

(** [len(s)] as a Python integer *)
Definition len (s : list A) : Z := Z.of_nat (length s).

(** [s[i:]] and [s[:i]] for a non-negative [i] *)
Definition slice_from (s : list A) (i : Z) : list A := drop (Z.to_nat i) s.
Definition slice_to (s : list A) (i : Z) : list A := take (Z.to_nat i) s.

End Seq.

End Py.

(** ** Streaming content deduplication *)

(** [src/core/delta_utils.py] *)
Module delta_utils.

Section Delta.
Context {A : Type} `{EqDecision A}.

(** The loop [for length in range(max_overlap, 0, -1)] of case 3: the
    first (hence longest) [length] for which [previous] ends with
    [current[:length]] returns; [None] stands for falling out of the
    loop. *)
Fixpoint overlap_loop (previous current : list A) (length : nat)
  : option (list A * list A) :=
  match length with
  | O => None
  | S length' =>
      if Py.endswith previous (take length current)
      then let delta := drop length current in
           Some (previous ++ delta, delta)
      else overlap_loop previous current length'
  end.

(** The [if idx > 0 and len(previous) < len(current)] block of case 2;
    [None] stands for falling through to case 3. *)
Definition substring_case (previous current : list A)
  : option (list A * list A) :=
  let idx := Py.find current previous in
  if (0 <? idx) && (Py.len previous <? Py.len current) then
    let delta := Py.slice_from current (idx + Py.len previous) in
    if Py.truthy delta then Some (previous ++ delta, delta) else None
  else None.

Definition delta_by_prefix (previous current : list A) : list A * list A :=
  if negb (Py.truthy current) then (previous, [])
  else if negb (Py.truthy previous) then (current, current)
  else if Py.startswith current previous then
    let delta := Py.slice_from current (Py.len previous) in
    if Py.truthy delta then (current, delta) else (previous, [])
  else
    match substring_case previous current with
    | Some r => r
    | None =>
        let max_overlap := Nat.min (length previous) (length current) in
        match overlap_loop previous current max_overlap with
        | Some r => r
        | None => (previous ++ current, current)
        end
    end.

(** Backward compatibility alias of the module. *)
Definition _delta_by_prefix := delta_by_prefix.

End Delta.

End delta_utils.

(** [src/integrations/replicate.py] *)
Module replicate.

Section Delta.
Context {A : Type} `{EqDecision A}.

Fixpoint overlap_loop (previous current : list A) (length : nat)
  : option (list A * list A) :=
  match length with
  | O => None
  | S length' =>
      if Py.endswith previous (take length current)
      then let delta := drop length current in
           Some (previous ++ delta, delta)
      else overlap_loop previous current length'
  end.

Definition _delta_by_prefix (previous current : list A) : list A * list A :=
  if negb (Py.truthy current) then (previous, [])
  else if negb (Py.truthy previous) then (current, current)
  else if Py.startswith current previous then
    (current, Py.slice_from current (Py.len previous))
  else if Py.len current <? 32 then (previous ++ current, current)
  else
    let max_check :=
      Nat.min (Nat.min (length previous) (length current)) 4096 in
    match overlap_loop previous current max_check with
    | Some r => r
    | None => (previous ++ current, current)
    end.

End Delta.

(** *** Deduplication of the assistant events *)

(** An event [(event_type, payload)] of the stream: an
    [assistantResponseEvent] with a dict payload, whose [content] is
    given when it is a [str] and whose other keys are [rest], or any
    other event. *)
Inductive stream_event (A Rest Ev : Type) :=
| AssistantResponse (content : option (list A)) (rest : Rest)
| OtherEvent (e : Ev).
Arguments AssistantResponse {A Rest Ev}.
Arguments OtherEvent {A Rest Ev}.

Section Events.
Context {A Rest Ev : Type} `{EqDecision A}.

(** The body of the [async for] loop of
    [_dedupe_assistant_content_events], on the events received so far;
    the result lists the events it yields. *)
Fixpoint dedupe_loop (last_assistant_content : list A)
  (events : list (stream_event A Rest Ev)) : list (stream_event A Rest Ev) :=
  match events with
  | [] => []
  | AssistantResponse (Some content) rest :: events' =>
      if Py.truthy content then
        let '(last', delta) :=
          _delta_by_prefix last_assistant_content content in
        if negb (Py.truthy delta) then dedupe_loop last' events'
        else AssistantResponse (Some delta) rest :: dedupe_loop last' events'
      else
        AssistantResponse (Some content) rest
          :: dedupe_loop last_assistant_content events'
  | ev :: events' => ev :: dedupe_loop last_assistant_content events'
  end.

Definition _dedupe_assistant_content_events
  (events : list (stream_event A Rest Ev)) : list (stream_event A Rest Ev) :=
  dedupe_loop [] events.

End Events.

(** *** Tool results *)

Section ToolResults.
(** [E] stands for an element of a [content] list, [Text] for the text of
    a tool message, made an element by [text_block] ([{"text": text}]
    in the source), and [Content] for the [content] of a message, read
    by [_normalize_openai_content]. *)
Context {E Text Content : Type}.
Variable text_block : Text -> E.
Variable _normalize_openai_content : Content -> Text.

(** The value of the key [content] of a tool result: absent or [None],
    a list, or another value, given with its truth value. *)
Inductive content_field :=
| NoContent
| ListContent (l : list E)
| OtherContent (v : E) (truthy : bool).

(** A tool result dict; [toolUseId] is given when it is a [str]. *)
Record tool_result := mk_tool_result {
  toolUseId : option string;
  content : content_field;
  status : option string
}.

(** A message dict of an OpenAI request; the two spellings of the call
    id are strings when present. *)
Record openai_message := mk_openai_message {
  role : option string;
  tool_call_id : option string;
  toolCallId : option string;
  message_content : Content
}.

(** [c.isspace()] for a character below 256 *)
Definition is_space (c : ascii) : bool :=
  let n := N_of_ascii c in
  (((9 <=? n) && (n <=? 13)) || ((28 <=? n) && (n <=? 32))
   || (n =? 133) || (n =? 160))%N.

(** [not s.strip()] *)
Definition blank (s : string) : bool :=
  forallb is_space (list_ascii_of_string s).

Definition _openai_tool_results_from_messages
  (messages : list openai_message) : list tool_result :=
  omap (fun msg =>
    if negb (bool_decide (role msg = Some "tool"%string)) then None
    else
      let tool_id :=
        match tool_call_id msg with
        | Some (String c s) => Some (String c s)
        | _ => toolCallId msg
        end in
      match tool_id with
      | Some tool_id =>
          if blank tool_id then None
          else
            let text := _normalize_openai_content (message_content msg) in
            Some (mk_tool_result (Some tool_id)
                    (ListContent [text_block text]) (Some "success"%string))
      | None => None
      end) messages.

(** [tid] when [isinstance(tid, str) and tid] *)
Definition valid_id (item : tool_result) : option string :=
  match toolUseId item with
  | Some (String c s) => Some (String c s)
  | _ => None
  end.

(** [existing["content"]] made a list, and [item.get("content") or []]
    as the elements it adds. *)
Definition as_list (c : content_field) : list E :=
  match c with
  | NoContent => []
  | ListContent l => l
  | OtherContent v _ => [v]
  end.

Definition incoming (c : content_field) : list E :=
  match c with
  | NoContent => []
  | ListContent l => l
  | OtherContent v truthy => if truthy then [v] else []
  end.

Definition extend (item existing : tool_result) : tool_result :=
  mk_tool_result (toolUseId existing)
    (ListContent (as_list (content existing) ++ incoming (content item)))
    (status existing).

(** The loop of [_merge_tool_results_by_tool_use_id].  The dicts of
    [by_id] are those of [merged]: [by_id] gives the index in [merged]
    of the dict it holds.  The [content] lists of the incoming results
    are distinct objects (those that
    [_openai_tool_results_from_messages] builds are), so that extending
    one changes no other result. *)
Fixpoint merge_loop (results merged : list tool_result)
  (by_id : gmap string nat) : list tool_result :=
  match results with
  | [] => merged
  | item :: results' =>
      match valid_id item with
      | None => merge_loop results' (merged ++ [item]) by_id
      | Some tid =>
          match by_id !! tid with
          | None =>
              merge_loop results' (merged ++ [item])
                         (<[tid := length merged]> by_id)
          | Some i => merge_loop results' (alter (extend item) i merged) by_id
          end
      end
  end.

Definition _merge_tool_results_by_tool_use_id (results : list tool_result)
  : list tool_result :=
  merge_loop results [] ∅.

End ToolResults.

(** *** AWS event-stream decoding *)

Definition bytes := list Byte.byte.

#[global] Instance byte_eq_decision : EqDecision Byte.byte := Byte.byte_eq_dec.

(** [int.from_bytes(bs, "big")] and its [signed=True] variant *)
Definition be_unsigned (bs : bytes) : Z :=
  fold_left (fun acc b => acc * 256 + Z.of_N (Byte.to_N b)) bs 0.

Definition be_signed (bs : bytes) : Z :=
  let u := be_unsigned bs in
  let w := 8 * Z.of_nat (length bs) in
  if 2 ^ (w - 1) <=? u then u - 2 ^ w else u.

(** [l[a:b]] for non-negative bounds *)
Definition slice {T : Type} (l : list T) (a b : Z) : list T :=
  take (Z.to_nat b - Z.to_nat a)%nat (drop (Z.to_nat a) l).

(** The two length fields of the prelude at the head of a buffer:
    [struct.unpack(">I I I", self._buf[:12])]. *)
Definition total_len (buf : bytes) : Z := be_unsigned (slice buf 0 4).
Definition headers_len (buf : bytes) : Z := be_unsigned (slice buf 4 8).

Section Headers.
(** Python [str] values produced by the decoder, with the two library
    codecs it calls: [bytes.decode("utf-8", errors="ignore")] and
    [str(uuid.UUID(bytes=...))]. *)
Context {Str : Type} `{EqDecision Str}.
Variable decode_utf8_ignore : bytes -> Str.
Variable uuid_str : bytes -> Str.

Inductive header_value :=
| HBool (b : bool)
| HInt (n : Z)
| HBytes (bs : bytes)
| HStr (s : Str).

(** [headers[name] = val] on an insertion-ordered dict *)
Fixpoint dict_set (d : list (Str * header_value)) (name : Str)
  (val : header_value) : list (Str * header_value) :=
  match d with
  | [] => [(name, val)]
  | (k, v) :: d' =>
      if decide (k = name) then (k, val) :: d'
      else (k, v) :: dict_set d' name val
  end.

(** The value of one header of type [htype], read at the head of [rest]
    (the bytes from index [i] on); [None] is a [break]. *)
Definition header_val (htype : Z) (rest : bytes)
  : option (header_value * bytes) :=
  let fixed (k : nat) (mk : bytes -> header_value) :=
    if (length rest <? k)%nat then None
    else Some (mk (take k rest), drop k rest) in
  let sized (mk : bytes -> header_value) :=
    if (length rest <? 2)%nat then None
    else
      let l := Z.to_nat (be_unsigned (take 2 rest)) in
      let rest' := drop 2 rest in
      if (length rest' <? l)%nat then None
      else Some (mk (take l rest'), drop l rest') in
  if htype =? 0 then Some (HBool true, rest)
  else if htype =? 1 then Some (HBool false, rest)
  else if htype =? 2 then fixed 1%nat (fun b => HInt (be_unsigned b))
  else if htype =? 3 then fixed 2%nat (fun b => HInt (be_signed b))
  else if htype =? 4 then fixed 4%nat (fun b => HInt (be_signed b))
  else if htype =? 5 then fixed 8%nat (fun b => HInt (be_signed b))
  else if htype =? 6 then sized HBytes
  else if htype =? 7 then sized (fun b => HStr (decode_utf8_ignore b))
  else if htype =? 8 then fixed 8%nat (fun b => HInt (be_unsigned b))
  else if htype =? 9 then fixed 16%nat (fun b => HStr (uuid_str b))
  else None.

(** The [while i < n] loop of [_parse_event_headers]; every iteration
    consumes at least two bytes, so [length raw] iterations suffice. *)
Fixpoint headers_loop (fuel : nat) (rest : bytes)
  (headers : list (Str * header_value)) : list (Str * header_value) :=
  match fuel with
  | O => headers
  | S fuel' =>
      match rest with
      | [] => headers
      | name_len :: rest1 =>
          let name_len := N.to_nat (Byte.to_N name_len) in
          if (length rest1 <? name_len + 1)%nat then headers
          else
            let name := decode_utf8_ignore (take name_len rest1) in
            match drop name_len rest1 with
            | [] => headers
            | htype :: rest2 =>
                match header_val (Z.of_N (Byte.to_N htype)) rest2 with
                | None => headers
                | Some (val, rest3) =>
                    headers_loop fuel' rest3 (dict_set headers name val)
                end
            end
      end
  end.

Definition _parse_event_headers (raw : bytes) : list (Str * header_value) :=
  headers_loop (length raw) raw [].

Definition event : Type := list (Str * header_value) * bytes.

(** One iteration of the [while True] loop of [AwsEventStreamParser.feed]
    on the buffer: [None] is a [break]; otherwise the event appended to
    [out], if any, and the buffer after the iteration. *)
Definition feed_step (buf : bytes) : option (option event * bytes) :=
  if (length buf <? 12)%nat then None
  else
    let total_len := total_len buf in
    let headers_len := headers_len buf in
    if (total_len <? 16) || (total_len <? headers_len) then
      Some (None, drop 1 buf)
    else if Z.of_nat (length buf) <? total_len then None
    else
      let msg := slice buf 0 total_len in
      let headers_raw := slice msg 12 (12 + headers_len) in
      let payload := slice msg (12 + headers_len) (total_len - 4) in
      Some (Some (_parse_event_headers headers_raw, payload),
            drop (Z.to_nat total_len) buf).

(** The loop itself.  An iteration that does not break removes at least
    one byte from the buffer, so [length buf] iterations suffice (see
    [feed_loop_fuel] and [feed_loop_done]). *)
Fixpoint feed_loop (fuel : nat) (buf : bytes) : list event * bytes :=
  match fuel with
  | O => ([], buf)
  | S fuel' =>
      match feed_step buf with
      | None => ([], buf)
      | Some (ev, buf') =>
          let '(out, residue) := feed_loop fuel' buf' in
          (match ev with Some e => e :: out | None => out end, residue)
      end
  end.

(** [AwsEventStreamParser.feed]: the state is the buffer [_buf]. *)
Definition feed (data : bytes) (_buf : bytes) : list event * bytes :=
  if negb (Py.truthy data) then ([], _buf)
  else feed_loop (length (_buf ++ data)) (_buf ++ data).

(** Successive calls of [feed] on one parser. *)
Fixpoint feed_chunks (chunks : list bytes) (_buf : bytes)
  : list event * bytes :=
  match chunks with
  | [] => ([], _buf)
  | data :: rest =>
      let '(out, buf1) := feed data _buf in
      let '(outs, buf2) := feed_chunks rest buf1 in
      (out ++ outs, buf2)
  end.

End Headers.

End replicate.

(** The deduplicating consumers ([_dedupe_assistant_content_events],
    [_iter_text]) thread the accumulated content through successive
    calls, starting from the empty string, and collect the deltas. *)
Fixpoint feed_contents {A : Type} (f : list A -> list A -> list A * list A)
  (previous : list A) (contents : list (list A)) : list A * list (list A) :=
  match contents with
  | [] => (previous, [])
  | c :: rest =>
      let '(previous', delta) := f previous c in
      let '(final, deltas) := feed_contents f previous' rest in
      (final, delta :: deltas)
  end.

Definition str (s : string) : list ascii := list_ascii_of_string s.


(** ** Account store: [src/services/account_service.py] and
    [src/services/quota_service.py] *)

Module account_service.

(** The columns of a row of table [accounts] that [update_account_stats]
    reads or writes (the primary key [id] is the key of the map).  The
    integer columns are declared [INTEGER DEFAULT ...] and are only ever
    written with integers. *)
Record account := mk_account {
  enabled : Z;
  error_count : Z;
  success_count : Z;
  quota_exhausted : Z;
  updated_at : string
}.

(** A row of table [quota_stats] (primary key [account_id]). *)
Record quota_row := mk_quota_row {
  month_key : string;
  request_count : Z;
  throttle_count : Z;
  last_throttle_time : option Z;
  quota_status : string;
  q_created_at : Z;
  q_updated_at : Z
}.

Record database := mk_database {
  accounts : gmap string account;
  quota_stats : gmap string quota_row
}.

(** The clock readings of one call: [time.strftime(...)] for the
    [accounts] row, [int(time.time())] and the month key for the quota
    tracker. *)
Record clock := mk_clock {
  now : string;
  now_s : Z;
  now_month : string
}.

(** [QuotaService.record_request]: an upsert on [quota_stats]. *)
Definition record_request (clk : clock) (account_id : string)
  (is_throttled : bool) (q : gmap string quota_row) : gmap string quota_row :=
  match q !! account_id with
  | None =>
      if is_throttled then
        <[account_id := mk_quota_row (now_month clk) 1 1 (Some (now_s clk))
                          "normal" (now_s clk) (now_s clk)]> q
      else
        <[account_id := mk_quota_row (now_month clk) 1 0 None
                          "normal" (now_s clk) (now_s clk)]> q
  | Some r =>
      if is_throttled then
        <[account_id := mk_quota_row (month_key r) (request_count r + 1)
                          (throttle_count r + 1) (Some (now_s clk))
                          (quota_status r) (q_created_at r) (now_s clk)]> q
      else
        <[account_id := mk_quota_row (month_key r) (request_count r + 1)
                          (throttle_count r) (last_throttle_time r)
                          (quota_status r) (q_created_at r) (now_s clk)]> q
  end.

(** [QuotaService.update_quota_status].  [ratio_status] stands for the
    comparison of the throttle ratio with the two configured thresholds
    (floating point in the source); it is only consulted when
    [throttle_count <= 0 < request_count]. *)
Definition update_quota_status (ratio_status : Z -> Z -> string)
  (clk : clock) (account_id : string) (q : gmap string quota_row)
  : gmap string quota_row :=
  match q !! account_id with
  | None => q
  | Some r =>
      if negb (String.eqb (month_key r) (now_month clk)) then q
      else
        let status :=
          if 0 <? throttle_count r then "exhausted"
          else if 0 <? request_count r
               then ratio_status (throttle_count r) (request_count r)
               else "normal" in
        <[account_id := mk_quota_row (month_key r) (request_count r)
                          (throttle_count r) (last_throttle_time r)
                          status (q_created_at r) (now_s clk)]> q
  end.

(** The three [UPDATE accounts SET ... WHERE id=?] statements.  Every
    right-hand side of a SQL [SET] reads the row as it was before the
    statement. *)
Definition set_success (clk : clock) (a : account) : account :=
  mk_account (enabled a) 0 (success_count a + 1) 0 (now clk).

Definition set_quota_exhausted (clk : clock) (a : account) : account :=
  mk_account 0 (error_count a) (success_count a) 1 (now clk).

Definition set_error (MAX_ERROR_COUNT : Z) (clk : clock) (a : account)
  : account :=
  mk_account
    (if MAX_ERROR_COUNT <=? error_count a + 1 then 0 else enabled a)
    (error_count a + 1) (success_count a) (quota_exhausted a) (now clk).

Definition update_account_stats (MAX_ERROR_COUNT : Z)
  (ratio_status : Z -> Z -> string) (clk : clock)
  (account_id : string) (success is_throttled quota_exhausted : bool)
  (db : database) : database :=
  let q1 := record_request clk account_id is_throttled (quota_stats db) in
  let accs :=
    if success then alter (set_success clk) account_id (accounts db)
    else if quota_exhausted
         then alter (set_quota_exhausted clk) account_id (accounts db)
         else alter (set_error MAX_ERROR_COUNT clk) account_id (accounts db) in
  let q2 :=
    if is_throttled then update_quota_status ratio_status clk account_id q1
    else q1 in
  mk_database accs q2.

(** A caller's successive reports for one account: each entry is the
    clock of the call and its flags [(success, is_throttled,
    quota_exhausted)]. *)
Definition report : Type := clock * (bool * bool * bool).

Definition update_account_stats_all (MAX_ERROR_COUNT : Z)
  (ratio_status : Z -> Z -> string) (account_id : string)
  (reports : list report) (db : database) : database :=
  fold_left
    (fun db r =>
       let '(clk, (success, is_throttled, quota_exhausted)) := r in
       update_account_stats MAX_ERROR_COUNT ratio_status clk account_id
                            success is_throttled quota_exhausted db)
    reports db.

End account_service.

(** ** API key verification: [src/security/advanced.py] *)

(** [verify_key] is modelled as a function from the state of the manager
    (the dicts [keys], [key_lookup], [failed_attempts], [rate_limits] and
    the table [secure_keys]) to the state after the call and the branch
    in which the call returned.  A [SecureKeyInfo] object is shared
    between [keys] and the local variable [key_info]; the model keeps it
    in [keys] and updates it there.  One call reads the clock once.  The
    body runs under [self._lock]; a call is one atomic step.  The two
    [UPDATE]s that follow the body may fail: [update_key_status_in_db]
    and [update_key_usage_in_db] catch the exception and return [False],
    and [verify_key] returns what it had decided.  The [SELECT] of the
    lazy load is taken to succeed, and the other operations of the body
    do not raise on well-typed arguments: the [except Exception] handler
    of [verify_key] (which returns [None]) is not modelled. *)

Module advanced.

Inductive KeyStatus := ACTIVE | INACTIVE | COMPROMISED | EXPIRED.

#[global] Instance KeyStatus_eq_dec : EqDecision KeyStatus.
Proof. solve_decision. Defined.

(** Instants ([datetime.now(timezone.utc)], [time.time()]) are integers,
    counted in microseconds since the epoch. *)
Definition time := Z.
Definition SECOND : Z := 1000000.
Definition MINUTE : Z := 60 * SECOND.
Definition HOUR : Z := 60 * MINUTE.

(** The fields of [SecureKeyInfo] that [verify_key] reads or writes.  The
    [key_id] of an entry is the key under which it is stored in
    [AdvancedKeyManager.keys] (and in the rows of [secure_keys]). *)
Record SecureKeyInfo := mk_key {
  key_hash : string;
  salt : string;
  expires_at : option time;
  last_used : option time;
  usage_count : Z;
  max_uses : option Z;
  allowed_ips : list string;
  allowed_user_agents : list string;
  rate_limit_per_minute : Z;
  status : KeyStatus
}.

Definition set_status (s : KeyStatus) (k : SecureKeyInfo) : SecureKeyInfo :=
  mk_key (key_hash k) (salt k) (expires_at k) (last_used k) (usage_count k)
         (max_uses k) (allowed_ips k) (allowed_user_agents k)
         (rate_limit_per_minute k) s.

(** [key_info.last_used = now; key_info.usage_count += 1] *)
Definition mark_used (now : time) (k : SecureKeyInfo) : SecureKeyInfo :=
  mk_key (key_hash k) (salt k) (expires_at k) (Some now) (usage_count k + 1)
         (max_uses k) (allowed_ips k) (allowed_user_agents k)
         (rate_limit_per_minute k) (status k).

Definition set_usage (lu : option time) (n : Z) (k : SecureKeyInfo)
  : SecureKeyInfo :=
  mk_key (key_hash k) (salt k) (expires_at k) lu n
         (max_uses k) (allowed_ips k) (allowed_user_agents k)
         (rate_limit_per_minute k) (status k).

Definition set_rate_limit (n : Z) (k : SecureKeyInfo) : SecureKeyInfo :=
  mk_key (key_hash k) (salt k) (expires_at k) (last_used k) (usage_count k)
         (max_uses k) (allowed_ips k) (allowed_user_agents k) n (status k).

(** The state of an [AdvancedKeyManager]; [db] holds the rows of table
    [secure_keys] in the order [fetchall] returns them, [None] when no
    database is configured. *)
Record manager := mk_manager {
  keys : gmap string SecureKeyInfo;
  key_lookup : gmap string string;
  failed_attempts : gmap string (list time);
  rate_limits : gmap string (list time);
  db : option (list (string * SecureKeyInfo))
}.

Record config := mk_config {
  max_failed_attempts : Z;
  block_duration_minutes : Z;
  default_rate_limit : Z
}.

(** The branch in which a call returns, named after the message it logs;
    [Verified] is the successful return of the key. *)
Inductive rejection :=
| EmptyKey | BadFormat | NotFound
| HashMismatch (key_id : string)
| BadStatus (key_id : string)
| KeyExpired (key_id : string)
| UsageLimit (key_id : string)
| IpNotAllowed (key_id : string)
| UserAgentNotAllowed (key_id : string)
| RateLimited (key_id : string)
| IpBlocked.

Inductive outcome :=
| Verified (key_id : string) (info : SecureKeyInfo)
| Rejected (why : rejection).

(** The value [verify_key] returns. *)
Definition result (o : outcome) : option SecureKeyInfo :=
  match o with
  | Verified _ info => Some info
  | Rejected _ => None
  end.

(** *** String helpers *)

(** [s.split(sep)] for a one-character separator *)
Fixpoint split_on (sep : ascii) (s : string) : list string :=
  match s with
  | EmptyString => [EmptyString]
  | String c s' =>
      if Ascii.eqb c sep then EmptyString :: split_on sep s'
      else match split_on sep s' with
           | h :: t => String c h :: t
           | [] => [String c EmptyString]
           end
  end.

(** [str.lower].  A [str] is a [string] with one character for each
    code point, all below 256 (header values such as the User-Agent are
    decoded as Latin-1).  On that range [str.lower] changes the letters
    [A]-[Z] and the accented capitals U+00C0-U+00D6 and U+00D8-U+00DE,
    each to the code point 32 above it, and nothing else (U+00D7 is the
    multiplication sign). *)
Definition lower_char (c : ascii) : ascii :=
  let n := nat_of_ascii c in
  if (((65 <=? n) && (n <=? 90)) || ((192 <=? n) && (n <=? 214))
      || ((216 <=? n) && (n <=? 222)))%nat
  then ascii_of_nat (n + 32) else c.

Definition lower (s : string) : list ascii :=
  map lower_char (list_ascii_of_string s).

(** [sub in s] on strings *)
Definition contains (s sub : list ascii) : bool := 0 <=? Py.find s sub.

Definition nonempty (s : string) : bool :=
  match s with EmptyString => false | String _ _ => true end.

(** truthiness of an [Optional[str]] *)
Definition truthy_opt (o : option string) : bool :=
  match o with Some s => nonempty s | None => false end.

Definition mem (x : string) (l : list string) : bool :=
  bool_decide (x ∈ l).

(** [api_key[3:]] *)
Definition drop3 (s : string) : string :=
  string_of_list_ascii (drop 3 (list_ascii_of_string s)).

Section Verify.
Variable cfg : config.
(** [_calculate_lookup_hash] and [_hash_key]: HMACs under the master key *)
Variable _calculate_lookup_hash : string -> string.
Variable _hash_key : string -> string -> string.
(** Whether the [UPDATE] that the call made at a given instant sends to
    the database goes through: [self.db.execute] may raise, and the two
    functions that issue it catch the exception and return [False]. *)
Variable db_execute_ok : time -> bool.

(** [hmac.compare_digest] *)
Definition compare_digest (a b : string) : bool := String.eqb a b.

Definition recent (cutoff : time) (l : list time) : list time :=
  filter (fun t => cutoff < t) l.

Definition _record_failed_attempt (now : time) (client_ip : option string)
  (key_id : string) (m : manager) : manager :=
  match client_ip with
  | Some ip =>
      if nonempty ip then
        let attempts :=
          recent (now - HOUR) (default [] (failed_attempts m !! ip) ++ [now]) in
        let fa := <[ip := attempts]> (failed_attempts m) in
        let ks :=
          if max_failed_attempts cfg <=? Z.of_nat (length attempts)
          then alter (set_status COMPROMISED) key_id (keys m)
          else keys m in
        mk_manager ks (key_lookup m) fa (rate_limits m) (db m)
      else m
  | None => m
  end.

Definition _is_blocked (now : time) (client_ip : option string) (m : manager)
  : bool :=
  match client_ip with
  | Some ip =>
      if nonempty ip then
        match failed_attempts m !! ip with
        | Some l =>
            max_failed_attempts cfg
            <=? Z.of_nat (length
                  (recent (now - block_duration_minutes cfg * MINUTE) l))
        | None => false
        end
      else false
  | None => false
  end.

Definition _clear_failed_attempts (client_ip : option string) (m : manager)
  : manager :=
  match client_ip with
  | Some ip =>
      mk_manager (keys m) (key_lookup m) (delete ip (failed_attempts m))
                 (rate_limits m) (db m)
  | None => m
  end.

Definition _check_rate_limit (now : time) (key_id : string)
  (limit_per_minute : Z) (m : manager) : manager * bool :=
  let minute_start := now - now mod MINUTE in
  let kept := recent minute_start (default [] (rate_limits m !! key_id)) in
  if limit_per_minute <=? Z.of_nat (length kept) then
    (mk_manager (keys m) (key_lookup m) (failed_attempts m)
                (<[key_id := kept]> (rate_limits m)) (db m), false)
  else
    (mk_manager (keys m) (key_lookup m) (failed_attempts m)
                (<[key_id := kept ++ [now]]> (rate_limits m)) (db m), true).

(** A row of [secure_keys] read back as a [SecureKeyInfo]
    ([rate_limit_per_minute or self.default_rate_limit]). *)
Definition row_to_key_info (row : SecureKeyInfo) : SecureKeyInfo :=
  if rate_limit_per_minute row =? 0
  then set_rate_limit (default_rate_limit cfg) row
  else row.

(** The scan of [_load_key_from_db_by_api_key] over the rows with
    [status = 'active']: the first row whose hash matches is returned. *)
Fixpoint scan_rows (api_key : string) (rows : list (string * SecureKeyInfo))
  : option (string * SecureKeyInfo) :=
  match rows with
  | [] => None
  | (kid, row) :: rest =>
      if bool_decide (status row = ACTIVE)
         && compare_digest (_hash_key api_key (salt row)) (key_hash row)
      then Some (kid, row_to_key_info row)
      else scan_rows api_key rest
  end.

Definition _load_key_from_db_by_api_key (api_key : string) (m : manager)
  : manager * option string :=
  match db m with
  | None => (m, None)
  | Some rows =>
      match scan_rows api_key rows with
      | None => (m, None)
      | Some (kid, info) =>
          (mk_manager (<[kid := info]> (keys m))
                      (<[_calculate_lookup_hash api_key := kid]> (key_lookup m))
                      (failed_attempts m) (rate_limits m) (db m),
           Some kid)
      end
  end.

(** [update_key_status_in_db] and [update_key_usage_in_db]: one [UPDATE
    secure_keys ... WHERE key_id = ?], which leaves the rows as they are
    when it fails; the flag is the value returned. *)
Definition update_row (kid : string) (f : SecureKeyInfo -> SecureKeyInfo)
  (rows : list (string * SecureKeyInfo)) : list (string * SecureKeyInfo) :=
  map (fun r => if String.eqb (fst r) kid then (fst r, f (snd r)) else r) rows.

Definition update_key_status_in_db (now : time) (kid : string)
  (s : KeyStatus) (m : manager) : manager * bool :=
  match db m with
  | None => (m, false)
  | Some rows =>
      if db_execute_ok now then
        (mk_manager (keys m) (key_lookup m) (failed_attempts m)
                    (rate_limits m)
                    (Some (update_row kid (set_status s) rows)), true)
      else (m, false)
  end.

Definition update_key_usage_in_db (now : time) (kid : string) (m : manager)
  : manager * bool :=
  match db m, keys m !! kid with
  | Some rows, Some info =>
      if db_execute_ok now then
        (mk_manager (keys m) (key_lookup m) (failed_attempts m)
                    (rate_limits m)
                    (Some (update_row kid
                             (set_usage (last_used info) (usage_count info))
                             rows)), true)
      else (m, false)
  | _, _ => (m, false)
  end.

(** The legacy lookup: [parts = api_key.split("-")], six parts, the
    second one a known key id whose stored hash matches. *)
Definition legacy_key_id (api_key : string) (m : manager) : option string :=
  if contains (list_ascii_of_string (drop3 api_key)) (list_ascii_of_string "-")
  then
    let parts := split_on "-"%char api_key in
    match parts !! 1%nat with
    | Some cand =>
        if (length parts =? 6)%nat then
          match keys m !! cand with
          | Some cand_info =>
              if compare_digest (key_hash cand_info)
                                (_hash_key api_key (salt cand_info))
              then Some cand else None
          | None => None
          end
        else None
    | None => None
    end
  else None.

(** [if key_info.max_uses and key_info.usage_count >= key_info.max_uses] *)
Definition usage_exhausted (info : SecureKeyInfo) : bool :=
  match max_uses info with
  | Some n => negb (n =? 0) && (n <=? usage_count info)
  | None => false
  end.

(** [any(ua.lower() in user_agent.lower() for ua in allowed_user_agents)] *)
Definition ua_match (allowed : list string) (user_agent : string) : bool :=
  existsb (fun ua => contains (lower user_agent) (lower ua)) allowed.

(** The checks that follow the usage limit, and the successful return. *)
Definition check_and_use (now : time) (client_ip user_agent : option string)
  (key_id : string) (info : SecureKeyInfo) (m : manager)
  : manager * outcome :=
  if Py.truthy (allowed_ips info) && truthy_opt client_ip
     && negb (mem (default EmptyString client_ip) (allowed_ips info))
  then (_record_failed_attempt now client_ip key_id m,
        Rejected (IpNotAllowed key_id))
  else if Py.truthy (allowed_user_agents info) && truthy_opt user_agent
          && negb (ua_match (allowed_user_agents info)
                            (default EmptyString user_agent))
  then (_record_failed_attempt now client_ip key_id m,
        Rejected (UserAgentNotAllowed key_id))
  else
    let '(m1, ok) :=
      _check_rate_limit now key_id (rate_limit_per_minute info) m in
    if negb ok then (m1, Rejected (RateLimited key_id))
    else if _is_blocked now client_ip m1 then (m1, Rejected IpBlocked)
    else
      let info' := mark_used now info in
      let m2 := mk_manager (<[key_id := info']> (keys m1)) (key_lookup m1)
                           (failed_attempts m1) (rate_limits m1) (db m1) in
      let m3 := _clear_failed_attempts client_ip m2 in
      (fst (update_key_usage_in_db now key_id m3), Verified key_id info').

(** The checks on a resolved key, up to and including the usage limit. *)
Definition check_key (now : time) (api_key : string)
  (client_ip user_agent : option string) (key_id : string) (m : manager)
  : manager * outcome :=
  match keys m !! key_id with
  | None =>
      (_record_failed_attempt now client_ip key_id m, Rejected NotFound)
  | Some info =>
      if negb (compare_digest (key_hash info) (_hash_key api_key (salt info)))
      then (_record_failed_attempt now client_ip key_id m,
            Rejected (HashMismatch key_id))
      else if negb (bool_decide (status info = ACTIVE))
      then (m, Rejected (BadStatus key_id))
      else if match expires_at info with
              | Some e => e <? now
              | None => false
              end
      then (mk_manager (alter (set_status EXPIRED) key_id (keys m))
                       (key_lookup m) (failed_attempts m) (rate_limits m)
                       (db m),
            Rejected (KeyExpired key_id))
      else if usage_exhausted info
      then
        let m1 := mk_manager (alter (set_status INACTIVE) key_id (keys m))
                             (key_lookup m) (failed_attempts m)
                             (rate_limits m) (db m) in
        (fst (update_key_status_in_db now key_id INACTIVE m1),
         Rejected (UsageLimit key_id))
      else check_and_use now client_ip user_agent key_id info m
  end.

(** The resolution of the key id: the lookup cache, then the legacy
    format, then the lazy load from the database. *)
Definition resolve_key (api_key : string) (m : manager)
  : manager * option string :=
  let key_id := key_lookup m !! _calculate_lookup_hash api_key in
  let key_id :=
    if truthy_opt key_id then key_id else
      match legacy_key_id api_key m with
      | Some cand => Some cand
      | None => key_id
      end in
  if truthy_opt key_id
     && bool_decide (is_Some (keys m !! default EmptyString key_id))
  then (m, key_id)
  else _load_key_from_db_by_api_key api_key m.

Definition verify_key (now : time) (api_key : string)
  (client_ip user_agent : option string) (m : manager) : manager * outcome :=
  if negb (nonempty api_key) then (m, Rejected EmptyKey)
  else if negb (Py.startswith (list_ascii_of_string api_key)
                              (list_ascii_of_string "sk-"))
  then (m, Rejected BadFormat)
  else
    match resolve_key api_key m with
    | (m1, Some kid) => check_key now api_key client_ip user_agent kid m1
    | (m1, None) =>
        (_record_failed_attempt now client_ip "unknown" m1, Rejected NotFound)
    end.

(** A client's successive attempts with one API key. *)
Record attempt := mk_attempt {
  at_time : time;
  client_ip : option string;
  user_agent : option string
}.

Fixpoint verify_all (api_key : string) (attempts : list attempt) (m : manager)
  : manager * list outcome :=
  match attempts with
  | [] => (m, [])
  | a :: rest =>
      let '(m1, o) :=
        verify_key (at_time a) api_key (client_ip a) (user_agent a) m in
      let '(m2, os) := verify_all api_key rest m1 in
      (m2, o :: os)
  end.

(** Successive calls of [_check_rate_limit] for one key, and successive
    calls of [_record_failed_attempt] for one client and key. *)
Fixpoint check_rate_limit_all (key_id : string) (limit_per_minute : Z)
  (times : list time) (m : manager) : manager * list bool :=
  match times with
  | [] => (m, [])
  | t :: rest =>
      let '(m1, ok) := _check_rate_limit t key_id limit_per_minute m in
      let '(m2, oks) := check_rate_limit_all key_id limit_per_minute rest m1 in
      (m2, ok :: oks)
  end.

Definition record_failed_attempts (times : list time)
  (client_ip : option string) (key_id : string) (m : manager) : manager :=
  fold_left (fun m t => _record_failed_attempt t client_ip key_id m) times m.

End Verify.

(** [revoke_key]: the returned flag tells whether the key is known. *)
Definition revoke_key (key_id : string) (m : manager) : manager * bool :=
  match keys m !! key_id with
  | None => (m, false)
  | Some _ =>
      (mk_manager (alter (set_status INACTIVE) key_id (keys m))
                  (key_lookup m) (failed_attempts m) (rate_limits m) (db m),
       true)
  end.

(** [cleanup_expired_keys] *)
Definition cleanup_expired_keys (now : time) (m : manager) : manager :=
  mk_manager
    ((fun info =>
        match expires_at info with
        | Some e => if e <? now then set_status EXPIRED info else info
        | None => info
        end) <$> keys m)
    (key_lookup m) (failed_attempts m) (rate_limits m) (db m).

End advanced.

(** ** Image pruning: [src/integrations/claude/converter.py] *)

Module converter.

(** Python [str] values as lists of code points. *)
Definition THINKING_HINT : list N :=
  map N_of_ascii (list_ascii_of_string
    "<thinking_mode>interleaved</thinking_mode><max_thinking_length>16000</max_thinking_length>").

Definition _append_thinking_hint (text : list N) : list N :=
  if negb (Py.truthy text) then THINKING_HINT
  else if 0 <=? Py.find text THINKING_HINT then text
  else
    let separator :=
      if Py.endswith text [10%N] || Py.endswith text [13%N] then []
      else [10%N] in
    text ++ separator ++ THINKING_HINT.

Section Images.
(** [Img] stands for an image dict, [Other] for the remaining keys of a
    [userInputMessage] dict (content, context, origin, model id) and
    [Asst] for an [assistantResponseMessage]. *)
Context {Img Other Asst : Type}.
(** The merge of the remaining keys by [merge_user_messages], and the
    context fix-up of [_merge_user_messages_preserve_current_context]
    (merged message first, current message second). *)
Variable merge_other : list Other -> Other.
Variable preserve_current_context : Other -> Other -> Other.

(** A [userInputMessage] dict; [images = None] when the key is absent. *)
Record umsg := mk_umsg {
  images : option (list Img);
  other : Other
}.

(** [bool(msg.get("images"))] *)
Definition has_images (u : umsg) : bool :=
  match images u with
  | Some (_ :: _) => true
  | _ => false
  end.

(** The image part of [merge_user_messages]: the image lists of the
    messages that have images are collected, and those of the last two
    such messages are concatenated; the key is set when the result is
    not empty. *)
Definition merge_user_messages (messages : list umsg) : umsg :=
  let all_images :=
    omap (fun m => if has_images m then images m else None) messages in
  let kept_images := concat (drop (length all_images - 2) all_images) in
  mk_umsg (if Py.truthy kept_images then Some kept_images else None)
          (merge_other (map other messages)).

Definition _merge_user_messages_preserve_current_context
  (prev_user current_user : umsg) : umsg :=
  let merged := merge_user_messages [prev_user; current_user] in
  mk_umsg (images merged)
          (preserve_current_context (other merged) (other current_user)).

(** The dicts built during a conversion live in a store; a reference is
    the index at which the dict was allocated. *)
Abbreviation ref := nat.
Abbreviation store := (list umsg).

Definition alloc (u : umsg) (h : store) : store * ref := (h ++ [u], length h).

(** An entry of the incoming history (the output of [process_history],
    which [_post_process_amazonq_history] only reads) ... *)
Inductive raw_item :=
| RUser (u : umsg)
| RAssistant (a : Asst).

(** ... and an entry of the outbound history, whose [userInputMessage]
    is a dict of the store. *)
Inductive item :=
| UserItem (r : ref)
| AssistantItem (a : Asst).

(** The loop of [_post_process_amazonq_history], with its two
    accumulators; the last case is the code after the loop. *)
Fixpoint post_process_loop (history : list raw_item) (pending : list umsg)
  (processed : list item) (h : store) : store * list item :=
  match history with
  | RUser u :: rest => post_process_loop rest (pending ++ [u]) processed h
  | RAssistant a :: rest =>
      if Py.truthy pending then
        let '(h', r) := alloc (merge_user_messages pending) h in
        post_process_loop rest []
          (processed ++ [UserItem r; AssistantItem a]) h'
      else post_process_loop rest [] (processed ++ [AssistantItem a]) h
  | [] =>
      if Py.truthy pending then
        let '(h', r) := alloc (merge_user_messages pending) h in
        (h', processed ++ [UserItem r])
      else (h, processed)
  end.

Definition _post_process_amazonq_history (history : list raw_item)
  (h : store) : store * list item :=
  post_process_loop history [] [] h.

(** [_validate_history_alternation]: the role of an entry, a violation
    as its message reports it ([prev_idx], [idx], [role]), and the loop
    over [enumerate(history)] with its variable [last]. *)
Inductive role := user_role | assistant_role.

Definition role_of (it : item) : role :=
  match it with
  | UserItem _ => user_role
  | AssistantItem _ => assistant_role
  end.

Definition role_eqb (a b : role) : bool :=
  match a, b with
  | user_role, user_role | assistant_role, assistant_role => true
  | _, _ => false
  end.

Definition violation : Type := nat * nat * role.

Fixpoint alternation_loop (history : list item) (idx : nat)
  (last : option (role * nat)) : list violation :=
  match history with
  | [] => []
  | it :: rest =>
      let role := role_of it in
      let found :=
        match last with
        | Some (last_role, prev_idx) =>
            if role_eqb last_role role then [(prev_idx, idx, role)] else []
        | None => []
        end in
      found ++ alternation_loop rest (S idx) (Some (role, idx))
  end.

(** The error raised, if any, and the warnings logged; [strict] is the
    value of [_debug_message_conversion_strict()]. *)
Definition _validate_history_alternation (strict : bool)
  (history : list item) : option violation * list violation :=
  let violations := alternation_loop history 0 None in
  if strict then (head violations, []) else (None, violations).

(** The references of the [userInputMessage] dicts of a history, in
    order. *)
Definition user_refs (history : list item) : list ref :=
  omap (fun it => match it with UserItem r => Some r | _ => None end) history.

Definition has_images_at (h : store) (r : ref) : bool :=
  match h !! r with
  | Some u => has_images u
  | None => false
  end.

(** [user.pop("images", None)] *)
Definition pop_images (h : store) (r : ref) : store :=
  alter (fun u => mk_umsg None (other u)) r h.

Definition prune_targets (history : list item) (current_user : ref)
  (h : store) : list ref :=
  List.filter (has_images_at h) (user_refs history)
  ++ (if has_images_at h current_user then [current_user] else []).

Definition _prune_images_to_last_two_user_messages (history : list item)
  (current_user : ref) (h : store) : store :=
  let targets := prune_targets history current_user h in
  foldl pop_images h (take (length targets - 2) targets).

(** Step 6 of [convert_claude_to_amazonq_request]: the current message
    is a fresh dict, with the key [images] only when images were
    extracted. *)
Definition make_user_input_msg (images : option (list Img)) (rest : Other)
  : umsg :=
  mk_umsg (match images with
           | Some (i :: l) => Some (i :: l)
           | _ => None
           end) rest.

(** Step 7 up to the pruning: the history is post-processed, and a
    trailing user entry of the history is merged into the current
    message. *)
Definition assemble (history : list raw_item)
  (images : option (list Img)) (rest : Other) : store * list item * ref :=
  let '(h0, cur) := alloc (make_user_input_msg images rest) [] in
  let '(h1, aq_history) := _post_process_amazonq_history history h0 in
  match last aq_history with
  | Some (UserItem prev) =>
      match h1 !! prev, h1 !! cur with
      | Some prev_user, Some current_user =>
          let '(h2, merged) :=
            alloc (_merge_user_messages_preserve_current_context
                     prev_user current_user) h1 in
          (h2, removelast aq_history, merged)
      | _, _ => (h1, aq_history, cur)
      end
  | _ => (h1, aq_history, cur)
  end.

(** The history and current message of the outbound body. *)
Definition convert_history (history : list raw_item)
  (images : option (list Img)) (rest : Other) : store * list item * ref :=
  let '(h, aq_history, cur) := assemble history images rest in
  (_prune_images_to_last_two_user_messages aq_history cur h, aq_history, cur).

(** *** From the request to the outbound body *)

(** A message of the request as the conversion reads it.  For a user
    message: the value of [extract_images_from_content(msg.content)] and
    the remaining keys of the [userInputMessage] dict that the first pass
    of [process_history] builds from it; for an assistant message: the
    [assistantResponseMessage] entry built from it; a message with any
    other role is skipped by [process_history]. *)
Inductive claude_message :=
| UserMessage (images : option (list Img)) (rest : Other)
| AssistantMessage (a : Asst)
| OtherMessage.

(** [bool(tool_results)] for the [toolResults] of the context of a
    [userInputMessage] *)
Variable has_tool_results : Other -> bool.

(** The first pass of [process_history]: one entry for each user or
    assistant message, the key [images] set only when images were
    extracted ([if images: u_msg["images"] = images]). *)
Definition first_pass (messages : list claude_message) : list raw_item :=
  omap (fun msg =>
          match msg with
          | UserMessage images rest =>
              Some (RUser (make_user_input_msg images rest))
          | AssistantMessage a => Some (RAssistant a)
          | OtherMessage => None
          end) messages.

(** The second pass, with its accumulators [pending_user_msgs] and
    [history]: a user message with tool results is appended as it is,
    after the pending ones are merged; the last case is the code after
    the loop. *)
Fixpoint second_pass (raw_history : list raw_item) (pending : list umsg)
  (history : list raw_item) : list raw_item :=
  match raw_history with
  | RUser u :: rest =>
      if has_tool_results (other u) then
        if Py.truthy pending then
          second_pass rest []
            (history ++ [RUser (merge_user_messages pending); RUser u])
        else second_pass rest pending (history ++ [RUser u])
      else second_pass rest (pending ++ [u]) history
  | RAssistant a :: rest =>
      if Py.truthy pending then
        second_pass rest []
          (history ++ [RUser (merge_user_messages pending); RAssistant a])
      else second_pass rest pending (history ++ [RAssistant a])
  | [] =>
      if Py.truthy pending then
        history ++ [RUser (merge_user_messages pending)]
      else history
  end.

(** The two validators that [process_history] and
    [_post_process_amazonq_history] call before they return log their
    findings and change nothing, unless the strict debug mode is on, in
    which a finding raises and no body is produced (see
    [_validate_history_alternation]). *)
Definition process_history (messages : list claude_message)
  : list raw_item :=
  second_pass (first_pass messages) [] [].

(** [convert_claude_to_amazonq_request], for the images: the current
    message takes the images of the last message of the request when that
    is a user message, the history is made of the messages before the
    last one, and [rest] stands for the remaining keys of the current
    message as steps 2 to 6 compute them. *)
Definition convert_claude_to_amazonq_request
  (messages : list claude_message) (rest : Other) : store * list item * ref :=
  let images :=
    match last messages with
    | Some (UserMessage images _) => images
    | _ => None
    end in
  let history_msgs :=
    if (1 <? length messages)%nat then removelast messages else [] in
  convert_history (process_history history_msgs) images rest.

End Images.

End converter.

(** ** Request fingerprints: [src/core/request_dedupe.py] *)

(** Python [str]: a sequence of Unicode code points. *)
Module Unicode.

Definition codepoint := N.
Definition pystr := list N.

Definition of_string (s : string) : pystr :=
  map N_of_ascii (list_ascii_of_string s).

(** [s.encode("utf-8")], bytes as integers in [0, 255].  The encoding is
    that of a string of scalar values: on a string that holds a lone
    surrogate (a code point from U+D800 to U+DFFF) [str.encode] raises
    [UnicodeEncodeError], and the three bytes given here for it are
    never produced. *)
Definition utf8_char (c : N) : list Z :=
  let z := Z.of_N c in
  if z <? 128 then [z]
  else if z <? 2048 then
    [192 + Z.shiftr z 6; 128 + Z.land z 63]
  else if z <? 65536 then
    [224 + Z.shiftr z 12; 128 + Z.land (Z.shiftr z 6) 63; 128 + Z.land z 63]
  else
    [240 + Z.shiftr z 18; 128 + Z.land (Z.shiftr z 12) 63;
     128 + Z.land (Z.shiftr z 6) 63; 128 + Z.land z 63].

Definition utf8_encode (s : pystr) : list Z := flat_map utf8_char s.

End Unicode.

(** [hashlib.sha256], after FIPS 180-4; words are integers below
    [2^32]. *)
Module hashlib.

Definition mask32 : Z := 4294967295.
Definition add32 (a b : Z) : Z := Z.land (a + b) mask32.
Definition rotr (n x : Z) : Z :=
  Z.lor (Z.shiftr x n) (Z.land (Z.shiftl x (32 - n)) mask32).
Definition Ch (x y z : Z) : Z :=
  Z.lxor (Z.land x y) (Z.land (Z.lxor x mask32) z).
Definition Maj (x y z : Z) : Z :=
  Z.lxor (Z.lxor (Z.land x y) (Z.land x z)) (Z.land y z).
Definition bsig0 (x : Z) : Z :=
  Z.lxor (Z.lxor (rotr 2 x) (rotr 13 x)) (rotr 22 x).
Definition bsig1 (x : Z) : Z :=
  Z.lxor (Z.lxor (rotr 6 x) (rotr 11 x)) (rotr 25 x).
Definition ssig0 (x : Z) : Z :=
  Z.lxor (Z.lxor (rotr 7 x) (rotr 18 x)) (Z.shiftr x 3).
Definition ssig1 (x : Z) : Z :=
  Z.lxor (Z.lxor (rotr 17 x) (rotr 19 x)) (Z.shiftr x 10).

Definition K256 : list Z :=
  [
    1116352408; 1899447441; 3049323471; 3921009573; 961987163; 1508970993;
    2453635748; 2870763221; 3624381080; 310598401; 607225278; 1426881987;
    1925078388; 2162078206; 2614888103; 3248222580; 3835390401; 4022224774;
    264347078; 604807628; 770255983; 1249150122; 1555081692; 1996064986;
    2554220882; 2821834349; 2952996808; 3210313671; 3336571891; 3584528711;
    113926993; 338241895; 666307205; 773529912; 1294757372; 1396182291;
    1695183700; 1986661051; 2177026350; 2456956037; 2730485921; 2820302411;
    3259730800; 3345764771; 3516065817; 3600352804; 4094571909; 275423344;
    430227734; 506948616; 659060556; 883997877; 958139571; 1322822218;
    1537002063; 1747873779; 1955562222; 2024104815; 2227730452; 2361852424;
    2428436474; 2756734187; 3204031479; 3329325298
  ].

Definition H256 : list Z :=
  [
    1779033703; 3144134277; 1013904242; 2773480762; 1359893119; 2600822924;
    528734635; 1541459225
  ].

(** the padded message: [0x80], zeros up to 56 modulo 64, and the length
    in bits on eight bytes *)
Definition be_bytes (n : nat) (x : Z) : list Z :=
  map (fun i => Z.land (Z.shiftr x (8 * Z.of_nat (n - 1 - i))) 255) (seq 0 n).

Definition pad (msg : list Z) : list Z :=
  let l := Z.of_nat (length msg) in
  msg ++ [128] ++ repeat 0 (Z.to_nat ((55 - l) mod 64)) ++ be_bytes 8 (8 * l).

Definition word_of (bs : list Z) : Z :=
  fold_left (fun acc b => acc * 256 + b) bs 0.

Fixpoint words (n : nat) (bs : list Z) : list Z :=
  match n with
  | O => []
  | S n' => word_of (take 4 bs) :: words n' (drop 4 bs)
  end.

(** the message schedule: [win] holds the sixteen latest words *)
Fixpoint schedule (n : nat) (win : list Z) : list Z :=
  match n with
  | O => []
  | S n' =>
      let w := add32 (add32 (ssig1 (nth 14 win 0)) (nth 9 win 0))
                     (add32 (ssig0 (nth 1 win 0)) (nth 0 win 0)) in
      w :: schedule n' (drop 1 win ++ [w])
  end.

Definition round (s : list Z) (kw : Z * Z) : list Z :=
  match s with
  | [a; b; c; d; e; f; g; h] =>
      let t1 := add32 (add32 (add32 h (bsig1 e)) (Ch e f g))
                      (add32 (fst kw) (snd kw)) in
      let t2 := add32 (bsig0 a) (Maj a b c) in
      [add32 t1 t2; a; b; c; add32 d t1; e; f; g]
  | _ => s
  end.

Definition compress (hs : list Z) (block : list Z) : list Z :=
  let w16 := words 16 block in
  let w := w16 ++ schedule 48 w16 in
  let s := fold_left round (combine K256 w) hs in
  map (fun p => add32 (fst p) (snd p)) (combine hs s).

Fixpoint blocks (n : nat) (bs : list Z) : list (list Z) :=
  match n with
  | O => []
  | S n' => take 64 bs :: blocks n' (drop 64 bs)
  end.

Definition sha256 (msg : list Z) : list Z :=
  let p := pad msg in
  let hs := fold_left compress (blocks (length p / 64) p) H256 in
  flat_map (be_bytes 4) hs.

Definition hex_digit (d : Z) : N :=
  Z.to_N (if d <? 10 then 48 + d else 87 + d).

(** [.hexdigest()] *)
Definition hexdigest (digest : list Z) : Unicode.pystr :=
  flat_map (fun b => [hex_digit (Z.shiftr b 4); hex_digit (Z.land b 15)])
           digest.

End hashlib.

Module request_dedupe.
Import Unicode.

#[local] Set Warnings "-register-all".

(** A JSON-like request body.  Numbers with a fractional part are left
    out; dict keys are strings, as in a parsed request. *)
Inductive json :=
| JNull
| JBool (b : bool)
| JInt (z : Z)
| JStr (s : pystr)
| JList (l : list json)
| JDict (d : list (pystr * json)).

(** *** [json.dumps(obj, ensure_ascii=False, sort_keys=True)] *)

Fixpoint digits (fuel : nat) (n : Z) (acc : pystr) : pystr :=
  match fuel with
  | O => acc
  | S fuel' =>
      let acc' := Z.to_N (48 + n mod 10) :: acc in
      if n <? 10 then acc' else digits fuel' (n / 10) acc'
  end.

Definition repr_int (z : Z) : pystr :=
  if z <? 0 then 45%N :: digits (S (Z.to_nat (Z.log2 (- z)))) (- z) []
  else digits (S (Z.to_nat (Z.log2 z))) z [].

Definition hex4 (c : N) : pystr :=
  map (fun i => hashlib.hex_digit (Z.land (Z.shiftr (Z.of_N c) (4 * i)) 15))
      [3; 2; 1; 0].

(** the escapes of [json.encoder] when [ensure_ascii] is off *)
Definition escape_char (c : N) : pystr :=
  if (c =? 34)%N then [92; 34]%N
  else if (c =? 92)%N then [92; 92]%N
  else if (c =? 8)%N then [92; 98]%N
  else if (c =? 12)%N then [92; 102]%N
  else if (c =? 10)%N then [92; 110]%N
  else if (c =? 13)%N then [92; 114]%N
  else if (c =? 9)%N then [92; 116]%N
  else if (c <? 32)%N then [92; 117]%N ++ hex4 c
  else [c].

Definition quote (s : pystr) : pystr :=
  34%N :: flat_map escape_char s ++ [34%N].

(** [sep.join(parts)] *)
Fixpoint join (sep : pystr) (parts : list pystr) : pystr :=
  match parts with
  | [] => []
  | [p] => p
  | p :: rest => p ++ sep ++ join sep rest
  end.

(** [a <= b] on strings: lexicographic on code points *)
Fixpoint str_le (a b : pystr) : bool :=
  match a, b with
  | [], _ => true
  | _ :: _, [] => false
  | x :: a', y :: b' =>
      if (x <? y)%N then true
      else if (y <? x)%N then false
      else str_le a' b'
  end.

(** [sorted(items)] by key, stable *)
Fixpoint insert_item (kv : pystr * pystr) (l : list (pystr * pystr))
  : list (pystr * pystr) :=
  match l with
  | [] => [kv]
  | kv' :: l' =>
      if str_le (fst kv') (fst kv) then kv' :: insert_item kv l'
      else kv :: l
  end.

Definition sort_items (l : list (pystr * pystr)) : list (pystr * pystr) :=
  fold_left (fun acc kv => insert_item kv acc) l [].

Fixpoint dumps (obj : json) : pystr :=
  match obj with
  | JNull => of_string "null"
  | JBool true => of_string "true"
  | JBool false => of_string "false"
  | JInt z => repr_int z
  | JStr s => quote s
  | JList l => of_string "[" ++ join (of_string ", ") (map dumps l)
               ++ of_string "]"
  | JDict d =>
      let items := map (fun kv => let '(k, v) := kv in (k, dumps v)) d in
      of_string "{"
      ++ join (of_string ", ")
           (map (fun kv => quote (fst kv) ++ of_string ": " ++ snd kv)
                (sort_items items))
      ++ of_string "}"
  end.

(** [_short_json]: the serialization, cut to its first [limit]
    characters. *)
Definition _short_json (obj : json) (limit : Z) : pystr :=
  let s := dumps obj in
  if Py.len s <=? limit then s else Py.slice_to s limit.

Definition fingerprint (obj : json) : pystr :=
  let s := _short_json obj 4096 in
  hashlib.hexdigest (hashlib.sha256 (utf8_encode s)).

Definition fingerprint_drop (obj : json) (drop_keys : list pystr) : pystr :=
  match obj with
  | JDict d =>
      fingerprint
        (JDict (List.filter
                  (fun kv => negb (bool_decide (fst kv ∈ drop_keys))) d))
  | _ => fingerprint obj
  end.

(** *** The table of seen requests *)

Section Seen.
(** The integer values of [REQUEST_DEDUPE_WINDOW_MS] and
    [REQUEST_DEDUPE_MAX_KEYS] as [_env_int] reads them. *)
Variable REQUEST_DEDUPE_WINDOW_MS : Z.
Variable REQUEST_DEDUPE_MAX_KEYS : Z.

Definition _enabled : bool := 0 <? REQUEST_DEDUPE_WINDOW_MS.
Definition _window_ms : Z := Z.max 0 REQUEST_DEDUPE_WINDOW_MS.
Definition _max_keys : Z := Z.max 100 REQUEST_DEDUPE_MAX_KEYS.

(** [check_and_mark] on the module dict [_SEEN]; [now] is [_now_ms()]. *)
Definition check_and_mark (now : Z) (key : pystr) (_SEEN : gmap pystr Z)
  : gmap pystr Z * (bool * Z) :=
  let win := _window_ms in
  let mark :=
    let seen := <[key := now]> _SEEN in
    (if _max_keys <? Z.of_nat (size seen) then ∅ else seen, (false, 0)) in
  match _SEEN !! key with
  | Some last =>
      if (0 <? win) && (now - last <? win)
      then (_SEEN, (true, Z.max 1 (win - (now - last))))
      else mark
  | None => mark
  end.

(** [should_block]; [bypass] is the value of [_bypass(headers)]. *)
Definition should_block (bypass : bool) (now : Z) (key : pystr)
  (_SEEN : gmap pystr Z) : gmap pystr Z * (bool * option Z) :=
  if negb _enabled then (_SEEN, (false, None))
  else if bypass then (_SEEN, (false, None))
  else
    let '(seen, (dup, retry_after_ms)) := check_and_mark now key _SEEN in
    (seen, (dup, if dup then Some retry_after_ms else None)).

End Seen.

End request_dedupe.

(** ** Token budget: [src/core/tokenizer.py] and
    [src/core/context_compressor.py] *)

Module tokenizer.
Import Unicode.

Section Tokenizer.
Context {Token : Type}.
(** The module global [ENCODING]: the tiktoken encoder, or [None] when it
    could not be loaded. *)
Variable ENCODING : option (pystr -> list Token).
(** [int(token_count * TOKEN_COUNT_MULTIPLIER)] *)
Variable apply_token_multiplier : Z -> Z.

(** A result together with the texts handed to [ENCODING.encode] while
    computing it, in order. *)
Definition traced (T : Type) : Type := T * list pystr.

Definition count_tokens (text : pystr) (apply_multiplier : bool)
  : traced Z :=
  match ENCODING with
  | Some enc =>
      if negb (Py.truthy text) then (0, [])
      else
        let token_count := Py.len (enc text) in
        (if apply_multiplier then apply_token_multiplier token_count
         else token_count, [text])
  | None => (0, [])
  end.

End Tokenizer.

End tokenizer.

Module context_compressor.
Import Unicode tokenizer.

Section Budget.
Context {Token : Type}.
Variable ENCODING : option (pystr -> list Token).
Variable apply_token_multiplier : Z -> Z.

Definition _budget_tokens_estimate (text : pystr) : traced Z :=
  if negb (Py.truthy text) then (0, [])
  else if 20000 <=? Py.len text then (Py.len text, [])
  else count_tokens ENCODING apply_token_multiplier text false.

(** *** Messages *)

(** A block of a list content: a dict whose [type] is ['text'], with
    its [text] (the empty string when the key is absent), or anything
    else. *)
Inductive block :=
| TextBlock (text : pystr)
| OtherBlock.

(** A content: a [str], a list of blocks, or another value, given by
    its [str()]. *)
Inductive content_value :=
| CStr (s : pystr)
| CList (blocks : list block)
| COther (repr : pystr).

(** A message dict; a field is [None] when the key is absent. *)
Record message := mk_message {
  role : option pystr;
  content : option content_value
}.

Definition _extract_text (content : content_value) : pystr :=
  match content with
  | CStr s => s
  | CList blocks =>
      request_dedupe.join [10%N]
        (omap (fun b => match b with
                        | TextBlock text => Some text
                        | OtherBlock => None
                        end) blocks)
  | COther repr => repr
  end.

(** [_extract_text(msg.get('content', ''))] *)
Definition text_of (msg : message) : pystr :=
  _extract_text (default (CStr []) (content msg)).

Definition _create_summary (messages : list message) : pystr :=
  let summary_parts :=
    map (fun msg =>
           let role := default (of_string "unknown") (role msg) in
           let content := text_of msg in
           let preview :=
             take 150 content
             ++ (if 150 <? Py.len content then of_string "..." else []) in
           of_string "- " ++ role ++ of_string ": " ++ preview) messages in
  let summary_text := request_dedupe.join [10%N] summary_parts in
  ([20197; 19979; 26159; 20043; 21069; 30340; 23545; 35805; 25688; 35201;
    65288; 24050; 21387; 32553; 32]%N
   ++ request_dedupe.repr_int (Py.len messages)
   ++ [32; 26465; 28040; 24687; 20197; 33410; 30465; 19978; 19979; 25991;
       31354; 38388; 65289; 65306; 10; 10]%N)
  ++ (summary_text ++ [10; 10]%N)
  ++ [35831; 22522; 20110; 20197; 19978; 25688; 35201; 32487; 32493; 23545;
      35805; 12290]%N.

(** [m.get('role') == 'system'] *)
Definition is_system (m : message) : bool :=
  bool_decide (role m = Some (of_string "system")).

(** [l[i:]] and [l[:i]] for any integer [i] *)
Definition slice_from {T : Type} (l : list T) (i : Z) : list T :=
  if i <? 0 then drop (Z.to_nat (Py.len l + i)) l else drop (Z.to_nat i) l.

Definition slice_to {T : Type} (l : list T) (i : Z) : list T :=
  if i <? 0 then take (Z.to_nat (Py.len l + i)) l else take (Z.to_nat i) l.

(** The loop that adds up the estimates, with its early [break]. *)
Fixpoint total_loop (max_tokens : Z) (messages : list message)
  (total_tokens : Z) : traced Z :=
  match messages with
  | [] => (total_tokens, [])
  | msg :: rest =>
      let '(n, calls) := _budget_tokens_estimate (text_of msg) in
      let total_tokens := total_tokens + n in
      if max_tokens <? total_tokens then (total_tokens, calls)
      else
        let '(total, calls') := total_loop max_tokens rest total_tokens in
        (total, calls ++ calls')
  end.

Definition compress_messages (messages : list message) (max_tokens : Z)
  (keep_recent : Z) : traced (list message) :=
  if negb (Py.truthy messages) then (messages, [])
  else
    let '(total_tokens, calls) := total_loop max_tokens messages 0 in
    if total_tokens <=? max_tokens then (messages, calls)
    else
      let system_msgs := List.filter is_system messages in
      let other_msgs :=
        List.filter (fun m => negb (is_system m)) messages in
      if Py.len other_msgs <=? keep_recent then (messages, calls)
      else
        let recent_msgs := slice_from other_msgs (- keep_recent) in
        let old_msgs := slice_to other_msgs (- keep_recent) in
        let summary := _create_summary old_msgs in
        let summary_msg :=
          mk_message (Some (of_string "system")) (Some (CStr summary)) in
        (system_msgs ++ [summary_msg] ++ recent_msgs, calls).

End Budget.

End context_compressor.

(** * Specification vocabulary and test data *)

(** ** Delta functions *)

(** What the stream post-processor needs from a delta function [f]:
    the new accumulated content is the old one followed by the delta,
    the delta is a suffix of the current content, a repeat emits
    nothing, and the deltas of a whole run concatenate to the final
    accumulated content. *)
Definition delta_laws {A : Type} (f : list A -> list A -> list A * list A)
  : Prop :=
  (forall previous current,
      fst (f previous current) = previous ++ snd (f previous current))
  /\ (forall previous current, snd (f previous current) `suffix_of` current)
  /\ (forall previous, f previous previous = (previous, []))
  /\ (forall contents,
        fst (feed_contents f [] contents)
        = concat (snd (feed_contents f [] contents))).

(** The text carried by an event of the stream, and the text of a
    stream. *)
Definition content_of {A Rest Ev : Type}
  (ev : replicate.stream_event A Rest Ev) : list A :=
  match ev with
  | replicate.AssistantResponse (Some content) _ => content
  | _ => []
  end.

Definition stream_text {A Rest Ev : Type}
  (events : list (replicate.stream_event A Rest Ev)) : list A :=
  concat (map content_of events).

(** The events that carry no text. *)
Definition carries_text {A Rest Ev : Type}
  (ev : replicate.stream_event A Rest Ev) : bool :=
  match ev with
  | replicate.AssistantResponse (Some (_ :: _)) _ => true
  | _ => false
  end.

(** Upstream sends snapshots: every text starts with the text before. *)
Fixpoint cumulative {A : Type} (previous : list A) (contents : list (list A))
  : Prop :=
  match contents with
  | [] => True
  | c :: rest => previous `prefix_of` c /\ cumulative c rest
  end.

(** ** Tool results *)

Section ToolResultSpec.
Import replicate.
Context {E : Type}.

Definition has_id (tid : string) (r : @tool_result E) : bool :=
  bool_decide (valid_id r = Some tid).

Definition added (rs : list (@tool_result E)) : list E :=
  flat_map (fun r => incoming (content r)) rs.

Definition gathered (tid : string) (results : list (@tool_result E))
  : list E :=
  match List.filter (has_id tid) results with
  | [] => []
  | r :: rs => as_list (content r) ++ added rs
  end.

Definition indexed (merged : list (@tool_result E))
  (by_id : gmap string nat) : Prop :=
  forall tid i,
    by_id !! tid = Some i
    <-> exists e, merged !! i = Some e /\ valid_id e = Some tid.

End ToolResultSpec.

Section ToolMessageSpec.
Import replicate.
Context {Text Content : Type}.
Variable _normalize_openai_content : Content -> Text.

(** The call id under which a message is kept as a tool result. *)
Definition tool_call_of (msg : @openai_message Content) : option string :=
  if bool_decide (role msg = Some "tool"%string) then
    match match tool_call_id msg with
          | Some (String c s) => Some (String c s)
          | _ => toolCallId msg
          end with
    | Some tool_id => if blank tool_id then None else Some tool_id
    | None => None
    end
  else None.

(** The texts of the tool messages of a call, in order. *)
Definition tool_texts (tid : string) (messages : list (@openai_message Content))
  : list Text :=
  omap (fun msg =>
          if bool_decide (tool_call_of msg = Some tid)
          then Some (_normalize_openai_content (message_content msg))
          else None) messages.

End ToolMessageSpec.

(** ** Event-stream frames *)

Section FrameSpec.
Import replicate.

Definition byte_of (z : Z) : Byte.byte :=
  default Byte.x00 (Byte.of_N (Z.to_N z)).

(** A 32-bit big-endian length field. *)
Definition be32 (n : Z) : bytes :=
  [byte_of (n / 256 / 256 / 256 mod 256); byte_of (n / 256 / 256 mod 256);
   byte_of (n / 256 mod 256); byte_of (n mod 256)].

(** A frame on the wire: the two length fields, the checksum of the
    prelude, the headers, the payload and the checksum of the message. *)
Record frame := mk_frame {
  prelude_crc : bytes;
  headers_raw : bytes;
  payload : bytes;
  message_crc : bytes
}.

Definition frame_len (f : frame) : Z :=
  16 + Py.len (headers_raw f) + Py.len (payload f).

Definition frame_bytes (f : frame) : bytes :=
  be32 (frame_len f) ++ be32 (Py.len (headers_raw f)) ++ prelude_crc f
  ++ headers_raw f ++ payload f ++ message_crc f.

(** A string header on the wire: the length of the name on one byte,
    the name, the type 7, the length of the value on two bytes, the
    value. *)
Definition be16 (n : Z) : bytes :=
  [byte_of (n / 256 mod 256); byte_of (n mod 256)].

Definition string_header (h : bytes * bytes) : bytes :=
  [byte_of (Py.len (fst h))] ++ fst h ++ [byte_of 7]
  ++ be16 (Py.len (snd h)) ++ snd h.

Definition header_fits (h : bytes * bytes) : Prop :=
  Py.len (fst h) < 256 /\ Py.len (snd h) < 65536.

(** The checksums are four bytes each, whatever their value, and the
    length fits its field. *)
Definition well_formed (f : frame) : Prop :=
  length (prelude_crc f) = 4%nat /\ length (message_crc f) = 4%nat
  /\ frame_len f < 2 ^ 32.

End FrameSpec.

(** ** Key verification *)

Section VerifySpec.
Import advanced.
Variable cfg : config.
Variable lookup_hash : string -> string.
Variable hash_key : string -> string -> string.

(** How one key entry may differ after a call: nothing but [status]
    changed, or it is the verified key and was marked used. *)
Definition same_usage (a b : SecureKeyInfo) : Prop :=
  usage_count b = usage_count a /\ last_used b = last_used a
  /\ max_uses b = max_uses a.

(** The rejections issued after the usage-limit check. *)
Definition late_rejection (kid : string) (r : rejection) : Prop :=
  r = IpNotAllowed kid \/ r = UserAgentNotAllowed kid
  \/ r = RateLimited kid \/ r = IpBlocked.

(** What a call does to the key table, by the branch it returns in.
    [ks] is the table in which the checks run. *)
Definition call_effect (now : time) (ks ks' : gmap string SecureKeyInfo)
  (o : outcome) : Prop :=
  (exists kid info,
      ks !! kid = Some info /\ usage_exhausted info = false
      /\ o = Verified kid (mark_used now info)
      /\ ks' = <[kid := mark_used now info]> ks)
  \/ (exists kid info,
      ks !! kid = Some info /\ usage_exhausted info = true
      /\ o = Rejected (UsageLimit kid)
      /\ ks' = alter (set_status INACTIVE) kid ks)
  \/ (exists r,
      o = Rejected r /\ (forall k, r <> UsageLimit k)
      /\ (forall kid, r = IpNotAllowed kid \/ r = UserAgentNotAllowed kid
                      \/ r = RateLimited kid -> is_Some (ks !! kid))
      /\ (ks' = ks
          \/ exists k s, s <> INACTIVE /\ ks' = alter (set_status s) k ks)).

(** The key an outcome is about, for the two outcomes the usage limit
    decides. *)
Definition outcome_key (o : outcome) : option string :=
  match o with
  | Verified k _ => Some k
  | Rejected (UsageLimit k) => Some k
  | Rejected _ => None
  end.

(** The state in which the checks of a call run: the state before the
    call, or that state after the lazy load of the key from the
    database. *)
Definition resolution_of (api_key : string) (m m0 : manager) : Prop :=
  m0 = m
  \/ m0 = fst (_load_key_from_db_by_api_key cfg lookup_hash hash_key api_key m).

(** The three rejections that follow the usage-limit check and name the
    key: the client IP, the User-Agent, the rate limit. *)
Definition rejected_for_client (o : outcome) (kid : string) : Prop :=
  o = Rejected (IpNotAllowed kid) \/ o = Rejected (UserAgentNotAllowed kid)
  \/ o = Rejected (RateLimited kid).

(** The lookup cache resolves the API key to a key held in memory. *)
Definition cached (api_key : string) (m : manager) (kid : string) : Prop :=
  key_lookup m !! lookup_hash api_key = Some kid
  /\ nonempty kid = true /\ is_Some (keys m !! kid).

(** The call resolves the key by the lazy load: neither the lookup cache
    nor the legacy format gives a key held in memory, and
    [_load_key_from_db_by_api_key] returns key [kid], read from the active
    row [row] of the table, whose hash matches. *)
Definition loaded_from (api_key : string) (m : manager) (kid : string)
  (row : SecureKeyInfo) : Prop :=
  resolve_key cfg lookup_hash hash_key api_key m
  = _load_key_from_db_by_api_key cfg lookup_hash hash_key api_key m
  /\ snd (_load_key_from_db_by_api_key cfg lookup_hash hash_key api_key m)
     = Some kid
  /\ status row = ACTIVE
  /\ hash_key api_key (salt row) = key_hash row
  /\ exists rows, db m = Some rows /\ (kid, row) ∈ rows.

(** An attempt passes all the checks other than the usage limit when the
    call returns in one of the two branches the usage limit decides. *)
Definition usage_decided (o : outcome) : bool :=
  match o with
  | Verified _ _ => true
  | Rejected (UsageLimit _) => true
  | Rejected _ => false
  end.

End VerifySpec.

(** ** Image pruning *)

Section PruneSpec.
Import converter.
Context {Img Other : Type}.

Definition strip (u : @umsg Img Other) : @umsg Img Other :=
  mk_umsg None (other u).

(** No dict of the store carries an empty [images] list: the key is
    only ever set to a non-empty list. *)
Definition clean (u : @umsg Img Other) : Prop := images u <> Some [].

End PruneSpec.

(** ** Images, from the request to the outbound body *)

Section ImageSpec.
Import converter.
Context {Img Other Asst : Type}.

(** [l[-2:]] *)
Definition last_two {A : Type} (l : list A) : list A :=
  drop (length l - 2) l.

(** The image lists that a sequence of user messages carries, in order:
    one for each message with a non-empty [images]. *)
Definition carried (us : list (@umsg Img Other)) : list (list Img) :=
  omap (fun u => if has_images u then images u else None) us.

(** The user messages of an outbound body, in order: those of the
    history, then the current message. *)
Definition outbound_users (h : list (@umsg Img Other))
  (history : list (@item Asst)) (cur : nat) : list (@umsg Img Other) :=
  omap (fun r => h !! r) (user_refs history ++ [cur]).

(** The image lists that the outbound body carries ... *)
Definition emitted_images (h : list (@umsg Img Other))
  (history : list (@item Asst)) (cur : nat) : list (list Img) :=
  carried (outbound_users h history cur).

(** ... and those of the user messages of the request, in order. *)
Definition request_images (messages : list (@claude_message Img Other Asst))
  : list (list Img) :=
  omap (fun msg =>
          match msg with
          | UserMessage (Some (i :: l)) _ => Some (i :: l)
          | _ => None
          end) messages.

(** Two user messages of the request follow each other, messages with
    another role than user and assistant left aside; [prev] tells whether
    the message before was a user message. *)
Fixpoint adjacent_users (prev : bool)
  (messages : list (@claude_message Img Other Asst)) : bool :=
  match messages with
  | [] => false
  | UserMessage _ _ :: rest => prev || adjacent_users true rest
  | AssistantMessage _ :: rest => adjacent_users false rest
  | OtherMessage :: rest => adjacent_users prev rest
  end.

(** The same for the entries of a history. *)
Fixpoint adjacent_user_entries (prev : bool)
  (history : list (@raw_item Img Other Asst)) : bool :=
  match history with
  | [] => false
  | RUser _ :: rest => prev || adjacent_user_entries true rest
  | RAssistant _ :: rest => adjacent_user_entries false rest
  end.

(** The user messages of a history, and the entries that a history of
    the store stands for. *)
Definition users_of (history : list (@raw_item Img Other Asst))
  : list (@umsg Img Other) :=
  omap (fun it => match it with RUser u => Some u | RAssistant _ => None end)
       history.

Definition deref (h : list (@umsg Img Other)) (history : list (@item Asst))
  : list (@raw_item Img Other Asst) :=
  omap (fun it =>
          match it with
          | UserItem r => RUser <$> h !! r
          | AssistantItem a => Some (RAssistant a)
          end) history.

(** The entry that a pass makes of an entry it merges with no other:
    the merge of the user message alone, or the user message itself when
    it has tool results and [f] tells so. *)
Definition merged_alone (merge_other : list Other -> Other)
  (f : Other -> bool) (it : @raw_item Img Other Asst)
  : @raw_item Img Other Asst :=
  match it with
  | RUser u =>
      RUser (if f (other u) then u else merge_user_messages merge_other [u])
  | RAssistant a => RAssistant a
  end.

(** What [merge_user_messages] does to the image lists of the messages
    it merges: those of the last two are concatenated. *)
Definition merge_lists (lists : list (list Img)) : list (list Img) :=
  match lists with
  | [] => []
  | _ => [concat (last_two lists)]
  end.

(** The image lists [lists] carried at some stage of the conversion come
    from the image lists [R] of the request: each is made of lists of
    [R], taken in order, and the last two lists of [R] are the last ones
    taken. *)
Definition retains (R lists : list (list Img)) : Prop :=
  exists parts : list (list (list Img)),
    lists = map (@concat Img) parts
    /\ Forall (fun p => p <> []) parts
    /\ sublist (concat parts) R
    /\ last_two R `suffix_of` concat parts.

End ImageSpec.

(** ** History alternation *)

Section AlternationSpec.
Import converter.
Context {Img Other Asst : Type}.

(** Two assistant entries follow each other in the incoming history;
    [prev] tells whether the entry before was one. *)
Fixpoint adjacent_assistants (prev : bool)
  (history : list (@raw_item Img Other Asst)) : bool :=
  match history with
  | [] => false
  | RUser _ :: rest => adjacent_assistants false rest
  | RAssistant _ :: rest => prev || adjacent_assistants true rest
  end.

(** The roles of the entries that the post-processing appends for the
    rest of the history, [pending] telling whether user messages wait
    to be merged. *)
Fixpoint squash (pending : bool) (history : list (@raw_item Img Other Asst))
  : list role :=
  match history with
  | [] => if pending then [user_role] else []
  | RUser _ :: rest => squash true rest
  | RAssistant _ :: rest =>
      (if pending then [user_role] else []) ++ assistant_role :: squash false rest
  end.

(** The violations, from the roles alone. *)
Fixpoint role_violations (roles : list role) (idx : nat)
  (last : option (role * nat)) : list violation :=
  match roles with
  | [] => []
  | r :: rest =>
      match last with
      | Some (last_role, prev_idx) =>
          if role_eqb last_role r then [(prev_idx, idx, r)] else []
      | None => []
      end ++ role_violations rest (S idx) (Some (r, idx))
  end.

Definition raw_assistants (history : list (@raw_item Img Other Asst))
  : list Asst :=
  omap (fun it => match it with RAssistant a => Some a | _ => None end)
       history.

Definition assistants (history : list (@item Asst)) : list Asst :=
  omap (fun it => match it with AssistantItem a => Some a | _ => None end)
       history.

End AlternationSpec.

(** ** Account store *)

(** The two invariants of an account row: a row whose error count has
    reached the threshold is disabled, and so is a row whose quota is
    exhausted. *)
Definition account_ok (MAX_ERROR_COUNT : Z) (a : account_service.account)
  : Prop :=
  (MAX_ERROR_COUNT <= account_service.error_count a ->
   account_service.enabled a = 0)
  /\ (account_service.quota_exhausted a = 1 ->
      account_service.enabled a = 0).

(** a report of a plain failure: neither success nor quota exhaustion *)
Definition plain_failure (r : account_service.report) : Prop :=
  fst (fst (snd r)) = false /\ snd (snd r) = false.

(** ** Request fingerprints *)

(** The order of the items of a serialized dict: by key. *)
Definition key_le (a b : Unicode.pystr * Unicode.pystr) : Prop :=
  request_dedupe.str_le (fst a) (fst b) = true.

(** ** Context compression *)

Section CompressSpec.
Import Unicode tokenizer context_compressor.
Context {Token : Type}.
Variable ENCODING : option (pystr -> list Token).
Variable apply_token_multiplier : Z -> Z.

(** The sum of the estimates of all the messages, without early stop. *)
Definition full_estimate (messages : list message) : Z :=
  fold_right (fun msg acc =>
    fst (_budget_tokens_estimate ENCODING apply_token_multiplier
           (text_of msg)) + acc) 0 messages.

Definition system_of (messages : list message) : list message :=
  List.filter is_system messages.

Definition others_of (messages : list message) : list message :=
  List.filter (fun m => negb (is_system m)) messages.

Definition summary_of (old_msgs : list message) : message :=
  mk_message (Some (of_string "system")) (Some (CStr (_create_summary old_msgs))).

End CompressSpec.

(** ** Test data *)

Module FeedExample.
Import replicate.

Definition of_ints (l : list Z) : bytes :=
  map (fun z => default Byte.x00 (Byte.of_N (Z.to_N z))) l.
Definition of_str (s : string) : bytes :=
  map (fun c => default Byte.x00 (Byte.of_N (N_of_ascii c)))
      (list_ascii_of_string s).

(** one frame: header [":event-type" = "chunk"] (string, type 7) and the
    payload ["hi"]; 12 + 20 + 2 + 4 = 38 bytes *)
Definition frame : bytes :=
  of_ints [0; 0; 0; 38; 0; 0; 0; 20; 1; 2; 3; 4]
  ++ of_ints [11] ++ of_str ":event-type" ++ of_ints [7; 0; 5] ++ of_str "chunk"
  ++ of_str "hi" ++ of_ints [9; 9; 9; 9].

Definition feeds0 := feed_chunks (Str := bytes) (fun b => b) (fun b => b).

End FeedExample.

Module AccountExample.
Import account_service.

Definition clk0 : clock := mk_clock "2026-01-01T00:00:00" 1767225600 "2026-01".
Definition acc0 : account := mk_account 1 99 7 0 "2025-12-31T00:00:00".
Definition db0 : database :=
  mk_database {[ "acc-1"%string := acc0 ]} ∅.
Definition ratio0 (t r : Z) : string := "normal".

End AccountExample.

Module VerifyExample.
Import advanced.

Definition cfg0 : config := mk_config 5 30 300.
Definition lookup_hash0 (s : string) : string := String.append "L:" s.
Definition hash_key0 (k s : string) : string := String.append k s.
(** every [UPDATE] goes through, or none does *)
Definition db_ok0 (t : time) : bool := true.
Definition db_down0 (t : time) : bool := false.

Definition info0 : SecureKeyInfo :=
  mk_key (hash_key0 "sk-test" "salt") "salt" (Some (100 * HOUR)) None 0
         (Some 2) [] [] 300 ACTIVE.

(** the key is cached ... *)
Definition m0 : manager :=
  mk_manager {[ "k1"%string := info0 ]}
             {[ lookup_hash0 "sk-test" := "k1"%string ]}
             ∅ ∅ (Some [("k1"%string, info0)]).

(** ... or only stored in the database, as after a restart *)
Definition m_cold : manager :=
  mk_manager ∅ ∅ ∅ ∅ (Some [("k1"%string, info0)]).

Definition attempts0 : list attempt :=
  map (fun t => mk_attempt (t * SECOND) (Some "127.0.0.1"%string)
                           (Some "pytest-client"%string))
      [1; 2; 3].

Definition run0 : manager * list outcome :=
  verify_all cfg0 lookup_hash0 hash_key0 db_ok0 "sk-test" attempts0 m0.

Definition run_cold : manager * list outcome :=
  verify_all cfg0 lookup_hash0 hash_key0 db_ok0 "sk-test" attempts0 m_cold.

End VerifyExample.

Module FrameExample.
Import advanced.

(** a key restricted to one address, already used three times ... *)
Definition info_ip : SecureKeyInfo :=
  mk_key (VerifyExample.hash_key0 "sk-test" "salt") "salt" None
         (Some (5 * SECOND)) 3 (Some 10) ["10.0.0.1"%string] [] 300 ACTIVE.

Definition m_ip : manager :=
  mk_manager {[ "k1"%string := info_ip ]}
             {[ VerifyExample.lookup_hash0 "sk-test" := "k1"%string ]}
             ∅ ∅ None.

(** ... and a key without a usage limit, used a million times *)
Definition info_unlimited : SecureKeyInfo :=
  mk_key (VerifyExample.hash_key0 "sk-test" "salt") "salt" None
         (Some (5 * SECOND)) 1000000 (Some 0) [] [] 300 ACTIVE.

Definition m_unlimited : manager :=
  mk_manager {[ "k1"%string := info_unlimited ]}
             {[ VerifyExample.lookup_hash0 "sk-test" := "k1"%string ]}
             ∅ ∅ None.

Definition verify0 :=
  verify_key VerifyExample.cfg0 VerifyExample.lookup_hash0
             VerifyExample.hash_key0 VerifyExample.db_ok0.

(** A worker whose entry for the key is stale: the key is held in memory
    as loaded at start-up (used three times) without its lookup hash
    ([load_keys_from_db] sets [key_lookup] only for a key it can decrypt),
    and the row of the table has since been written by another worker
    (used seven times). *)
Definition row_ip : SecureKeyInfo :=
  mk_key (VerifyExample.hash_key0 "sk-test" "salt") "salt" None
         (Some (8 * SECOND)) 7 (Some 10) ["10.0.0.1"%string] [] 300 ACTIVE.

Definition m_stale : manager :=
  mk_manager {[ "k1"%string := info_ip ]} ∅ ∅ ∅
             (Some [("k1"%string, row_ip)]).

End FrameExample.

Module PruneExample.
Import converter.

Definition merge_other0 (l : list string) : string := String.concat "|" l.
Definition preserve0 (merged cur : string) : string := merged.

Definition user (image text : string) : @raw_item string string string :=
  RUser (mk_umsg (Some [image]) text).

(** the request of [tests/test_claude_images_prune.py] *)
Definition history3 : list (@raw_item string string string) :=
  [ user "b64_1" "u1"; RAssistant "a1"; user "b64_2" "u2"; RAssistant "a2" ].

(** five user turns with one image each, interleaved with assistants *)
Definition history5 : list (@raw_item string string string) :=
  history3 ++ [ user "b64_3" "u3"; RAssistant "a3";
                user "b64_4" "u4"; RAssistant "a4" ].

Definition convert0 :=
  convert_history (Img := string) (Asst := string) merge_other0 preserve0.

(** Requests: a user turn with one image, and a context that holds tool
    results when its text starts with [tool:]. *)
Definition turn (image text : string) : @claude_message string string string :=
  UserMessage (Some [image]) text.

Definition has_tool_results0 (o : string) : bool := String.prefix "tool:" o.

(** the request of [tests/test_claude_images_prune.py] ... *)
Definition request3 : list (@claude_message string string string) :=
  [ turn "b64_1" "u1"; AssistantMessage "a1"; turn "b64_2" "u2";
    AssistantMessage "a2"; turn "b64_3" "u3" ].

(** ... five user turns with one image each, interleaved with
    assistants ... *)
Definition request5 : list (@claude_message string string string) :=
  [ turn "b64_1" "u1"; AssistantMessage "a1"; turn "b64_2" "u2";
    AssistantMessage "a2"; turn "b64_3" "u3"; AssistantMessage "a3";
    turn "b64_4" "u4"; AssistantMessage "a4"; turn "b64_5" "u5" ].

(** ... and four user turns with one image each, the last three in a
    row *)
Definition request_adjacent : list (@claude_message string string string) :=
  [ turn "b64_1" "u1"; AssistantMessage "a1"; turn "b64_2" "u2";
    turn "b64_3" "u3"; turn "b64_4" "u4" ].

Definition convert_request0 :=
  convert_claude_to_amazonq_request (Img := string) (Asst := string)
    merge_other0 preserve0 has_tool_results0.

(** the image lists that a body carries *)
Definition emitted0 (body : list (@umsg string string)
                           * list (@item string) * nat)
  : list (list string) :=
  emitted_images (fst (fst body)) (snd (fst body)) (snd body).

End PruneExample.

Module DedupeExample.
Import Unicode request_dedupe.

Definition body0 : json :=
  JDict [ (of_string "model", JStr (of_string "claude"));
          (of_string "max_tokens", JInt 1024);
          (of_string "messages",
             JList [ JDict [ (of_string "role", JStr (of_string "user"));
                             (of_string "content", JStr (of_string "hi")) ] ]);
          (of_string "stream", JBool false) ].

(** two bodies that differ only after the first 4096 characters of
    their serialization *)
Definition long_body (n : N) : json :=
  JDict [ (of_string "prompt", JStr (repeat 97%N (N.to_nat n))) ].

End DedupeExample.

(** The expected serializations are written with ['] for the double
    quote. *)
Definition dq (s : string) : Unicode.pystr :=
  map (fun c => if (c =? 39)%N then 34%N else c) (Unicode.of_string s).

Module BudgetExample.
(** a toy encoder: one token per character *)
Definition enc0 (s : Unicode.pystr) : list N := s.
Definition long_text : Unicode.pystr := repeat 233%N (N.to_nat 20000).
End BudgetExample.

Module MoreAccountExample.
Import account_service.
Definition failures : list report :=
  [(AccountExample.clk0, (false, false, false));
   (AccountExample.clk0, (false, true, false))].
End MoreAccountExample.

Module MoreVerifyExample.
Import advanced.
Definition minute_times : list time := [MINUTE + 1; MINUTE + 2; MINUTE + 3].
Definition failure_times : list time :=
  map (fun t => t * SECOND) [1; 2; 3; 4; 5].
Definition m_blocked : manager :=
  record_failed_attempts VerifyExample.cfg0 failure_times
    (Some "10.0.0.9") "k1" VerifyExample.m0.
Definition m_inactive : manager :=
  mk_manager {[ "k1"%string := set_status INACTIVE VerifyExample.info0 ]}
             {[ VerifyExample.lookup_hash0 "sk-test" := "k1"%string ]}
             ∅ ∅ None.
Definition info_expired : SecureKeyInfo :=
  mk_key (VerifyExample.hash_key0 "sk-test" "salt") "salt" (Some (1 * SECOND))
         None 0 None [] [] 300 ACTIVE.
Definition m_expired : manager :=
  mk_manager {[ "k1"%string := info_expired ]}
             {[ VerifyExample.lookup_hash0 "sk-test" := "k1"%string ]}
             ∅ ∅ None.
End MoreVerifyExample.

Module MoreDedupeExample.
Import Unicode request_dedupe.
Definition d0 : list (pystr * json) :=
  [(of_string "model", JStr (of_string "m1"));
   (of_string "stream", JBool true)].
Definition d1 : list (pystr * json) :=
  [(of_string "stream", JBool true);
   (of_string "model", JStr (of_string "m1"))].
End MoreDedupeExample.

Module StreamExample.
Import replicate.
Definition events0 : list (stream_event ascii unit string) :=
  [AssistantResponse (Some (str "He")) tt;
   OtherEvent "meteringEvent";
   AssistantResponse (Some (str "Hello")) tt;
   AssistantResponse (Some (str "Hello")) tt].
End StreamExample.

Module CompressExample.
Import Unicode context_compressor.
Definition msg (r c : string) : message :=
  mk_message (Some (of_string r)) (Some (CStr (of_string c))).
Definition messages0 : list message :=
  [msg "system" "S"; msg "user" "aaaa"; msg "assistant" "bbbb";
   msg "user" "cccc"].
End CompressExample.

Module AlternationExample.
Import converter.
Definition history0 : list (@raw_item nat unit string) :=
  [RUser (mk_umsg None tt); RUser (mk_umsg (Some [1%nat]) tt);
   RAssistant "a1"; RUser (mk_umsg None tt)].
End AlternationExample.

Module WireExample.
Import replicate.
Definition hs0 : list (bytes * bytes) :=
  [(FeedExample.of_str ":event-type", FeedExample.of_str "chunk");
   (FeedExample.of_str ":message-type", FeedExample.of_str "event")].
Definition frame0 : frame :=
  mk_frame (FeedExample.of_ints [1; 2; 3; 4])
           (concat (map string_header hs0))
           (FeedExample.of_str "hi")
           (FeedExample.of_ints [9; 9; 9; 9]).
Definition chunks0 : list bytes :=
  [take 7 (frame_bytes frame0 ++ frame_bytes frame0);
   drop 7 (frame_bytes frame0 ++ frame_bytes frame0)].
End WireExample.

Module QuotaExample.
Import account_service.
Definition row0 : quota_row :=
  mk_quota_row "2026-01" 10 0 None "normal" 1767225000 1767225000.
Definition db1 : database :=
  mk_database {[ "acc-1"%string := AccountExample.acc0 ]}
              {[ "acc-1"%string := row0 ]}.
End QuotaExample.

(** * Properties *)

(** ** Facts about the sequence primitives *)

Section SeqFacts.
Context {A : Type} `{EqDecision A}.
Import Py.

Lemma startswith_spec (s p : list A) :
  startswith s p = true <-> exists d, s = p ++ d.
Proof.
  revert s; induction p as [|y p IH]; intros s; simpl.
  - split; [intros _; exists s; reflexivity | reflexivity].
  - destruct s as [|x s].
    + split; [discriminate | intros [d Hd]; discriminate].
    + destruct (decide (x = y)) as [->|Hne].
      * rewrite IH. split; intros [d Hd]; exists d.
        -- now rewrite Hd.
        -- now injection Hd.
      * split; [discriminate |].
        intros [d Hd]. injection Hd as Hxy _. contradiction.
Qed.

Lemma startswith_prefix (s p : list A) :
  startswith s p = true <-> p `prefix_of` s.
Proof. apply startswith_spec. Qed.

Lemma startswith_drop (s p : list A) :
  startswith s p = true -> s = p ++ drop (length p) s.
Proof.
  intros H. apply startswith_spec in H as [d ->].
  now rewrite drop_app_length.
Qed.

Lemma startswith_refl (s : list A) : startswith s s = true.
Proof. apply startswith_spec. exists []. now rewrite app_nil_r. Qed.

Lemma endswith_spec (s p : list A) :
  endswith s p = true <-> exists d, s = d ++ p.
Proof.
  unfold endswith. rewrite startswith_spec. split; intros [d Hd].
  - exists (rev d). apply (f_equal (@rev A)) in Hd.
    now rewrite rev_involutive, rev_app_distr, rev_involutive in Hd.
  - exists (rev d). now rewrite Hd, rev_app_distr.
Qed.

Lemma endswith_suffix (s p : list A) :
  endswith s p = true <-> p `suffix_of` s.
Proof. apply endswith_spec. Qed.

Lemma truthy_false (s : list A) : truthy s = false <-> s = [].
Proof. destruct s; simpl; split; congruence. Qed.

Lemma drop_suffix (n : nat) (s : list A) : drop n s `suffix_of` s.
Proof. exists (take n s). now rewrite take_drop. Qed.
End SeqFacts.

(** ** Documented examples of the delta functions *)

Example delta_doc_1 :
  delta_utils.delta_by_prefix (str "Hello") (str "Hello world")
  = (str "Hello world", str " world").
Proof. reflexivity. Qed.

Example delta_doc_2 :
  delta_utils.delta_by_prefix (str "Hello world") (str "Hello world")
  = (str "Hello world", str "").
Proof. reflexivity. Qed.

Example delta_test_partial_overlap_end :
  delta_utils.delta_by_prefix (str "Hello wor") (str "wor ld")
  = (str "Hello wor ld", str " ld").
Proof. reflexivity. Qed.

Example delta_substring_case :
  delta_utils.delta_by_prefix (str "bc") (str "abcd") = (str "bcd", str "d").
Proof. reflexivity. Qed.

Example replicate_small_fragment :
  replicate._delta_by_prefix (str "Hello wor") (str "wor ld")
  = (str "Hello worwor ld", str "wor ld").
Proof. reflexivity. Qed.

(** ** Laws of the delta functions *)

Section DeltaFacts.
Context {A : Type} `{EqDecision A}.

Lemma feed_contents_concat (f : list A -> list A -> list A * list A) :
  (forall previous current,
      fst (f previous current) = previous ++ snd (f previous current)) ->
  forall contents previous,
    fst (feed_contents f previous contents)
    = previous ++ concat (snd (feed_contents f previous contents)).
Proof.
  intros Hacc contents.
  induction contents as [|c rest IH]; intros previous; simpl.
  - now rewrite app_nil_r.
  - specialize (Hacc previous c).
    destruct (f previous c) as [previous' delta]; simpl in Hacc.
    specialize (IH previous').
    destruct (feed_contents f previous' rest) as [final deltas].
    simpl in *. now rewrite IH, Hacc, <- app_assoc.
Qed.

Lemma core_overlap_loop_some (previous current : list A) (n : nat)
  (r : list A * list A) :
  delta_utils.overlap_loop previous current n = Some r ->
  fst r = previous ++ snd r /\ snd r `suffix_of` current.
Proof.
  induction n as [|n IH]; simpl; [discriminate |].
  destruct (Py.endswith previous (take (S n) current)).
  - intros [= <-]. simpl. split; [reflexivity | apply drop_suffix].
  - exact IH.
Qed.

Lemma core_substring_case_some (previous current : list A)
  (r : list A * list A) :
  delta_utils.substring_case previous current = Some r ->
  fst r = previous ++ snd r /\ snd r `suffix_of` current.
Proof.
  unfold delta_utils.substring_case.
  destruct (_ && _); [| discriminate].
  destruct (Py.truthy _); [| discriminate].
  intros [= <-]. simpl. split; [reflexivity | apply drop_suffix].
Qed.

Lemma core_delta_acc (previous current : list A) :
  fst (delta_utils.delta_by_prefix previous current)
  = previous ++ snd (delta_utils.delta_by_prefix previous current)
  /\ snd (delta_utils.delta_by_prefix previous current) `suffix_of` current.
Proof.
  unfold delta_utils.delta_by_prefix.
  destruct (Py.truthy current) eqn:Hc; simpl.
  2: { split; [now rewrite app_nil_r | apply suffix_nil]. }
  destruct (Py.truthy previous) eqn:Hp; simpl.
  2: { apply truthy_false in Hp as ->. split; reflexivity. }
  destruct (Py.startswith current previous) eqn:Hs.
  - unfold Py.slice_from, Py.len. rewrite Nat2Z.id.
    destruct (Py.truthy (drop _ current)) eqn:Hd; simpl.
    + split; [now apply startswith_drop | apply drop_suffix].
    + split; [now rewrite app_nil_r | apply suffix_nil].
  - destruct (delta_utils.substring_case previous current) as [r|] eqn:H2.
    { now apply core_substring_case_some. }
    destruct (delta_utils.overlap_loop _ _ _) as [r|] eqn:H3.
    { now apply core_overlap_loop_some in H3. }
    simpl. split; reflexivity.
Qed.

Lemma core_delta_repeat (previous : list A) :
  delta_utils.delta_by_prefix previous previous = (previous, []).
Proof.
  unfold delta_utils.delta_by_prefix.
  destruct (Py.truthy previous) eqn:Hp; simpl; [| reflexivity].
  rewrite startswith_refl.
  unfold Py.slice_from, Py.len. rewrite Nat2Z.id, drop_all. reflexivity.
Qed.

Lemma repl_overlap_loop_some (previous current : list A) (n : nat)
  (r : list A * list A) :
  replicate.overlap_loop previous current n = Some r ->
  fst r = previous ++ snd r /\ snd r `suffix_of` current.
Proof.
  induction n as [|n IH]; simpl; [discriminate |].
  destruct (Py.endswith previous (take (S n) current)).
  - intros [= <-]. simpl. split; [reflexivity | apply drop_suffix].
  - exact IH.
Qed.

Lemma repl_delta_acc (previous current : list A) :
  fst (replicate._delta_by_prefix previous current)
  = previous ++ snd (replicate._delta_by_prefix previous current)
  /\ snd (replicate._delta_by_prefix previous current) `suffix_of` current.
Proof.
  unfold replicate._delta_by_prefix.
  destruct (Py.truthy current) eqn:Hc; simpl.
  2: { split; [now rewrite app_nil_r | apply suffix_nil]. }
  destruct (Py.truthy previous) eqn:Hp; simpl.
  2: { apply truthy_false in Hp as ->. split; reflexivity. }
  destruct (Py.startswith current previous) eqn:Hs.
  - unfold Py.slice_from, Py.len. rewrite Nat2Z.id. simpl.
    split; [now apply startswith_drop | apply drop_suffix].
  - destruct (Py.len current <? 32); [simpl; split; reflexivity |].
    destruct (replicate.overlap_loop _ _ _) as [r|] eqn:H3.
    { now apply repl_overlap_loop_some in H3. }
    simpl. split; reflexivity.
Qed.

Lemma repl_delta_repeat (previous : list A) :
  replicate._delta_by_prefix previous previous = (previous, []).
Proof.
  unfold replicate._delta_by_prefix.
  destruct (Py.truthy previous) eqn:Hp; simpl; [| reflexivity].
  rewrite startswith_refl.
  unfold Py.slice_from, Py.len. rewrite Nat2Z.id, drop_all. reflexivity.
Qed.

(** C2. Both delta functions (the one of [core/delta_utils.py] and the one
    of the stream client) satisfy the laws: the returned new_previous is
    previous followed by the returned delta, every delta is a suffix of
    (or equal to) its current content, [f prev prev = (prev, "")], and
    over any sequence of contents fed from the empty string the deltas
    concatenate to the final accumulated content. *)
Theorem delta_by_prefix_laws :
  delta_laws (@delta_utils.delta_by_prefix A _)
  /\ delta_laws (@replicate._delta_by_prefix A _).
Proof.
  split; unfold delta_laws.
  - assert (Hacc : forall p c : list A,
      fst (delta_utils.delta_by_prefix p c)
      = p ++ snd (delta_utils.delta_by_prefix p c))
      by (intros; apply core_delta_acc).
    repeat split.
    + exact Hacc.
    + intros; apply core_delta_acc.
    + apply core_delta_repeat.
    + intros cs. now rewrite (feed_contents_concat _ Hacc cs []).
  - assert (Hacc : forall p c : list A,
      fst (replicate._delta_by_prefix p c)
      = p ++ snd (replicate._delta_by_prefix p c))
      by (intros; apply repl_delta_acc).
    repeat split.
    + exact Hacc.
    + intros; apply repl_delta_acc.
    + apply repl_delta_repeat.
    + intros cs. now rewrite (feed_contents_concat _ Hacc cs []).
Qed.

End DeltaFacts.

(** ** Small fragments *)

(** C5 (as amended). In the stream client's [_delta_by_prefix], a
    non-empty current content shorter than 32 characters that does not
    start with the non-empty previous content is additive: the delta is
    the whole current content and it is appended to the previous one. *)
Theorem small_fragment_is_additive {A : Type} `{EqDecision A}
  (previous current : list A) :
  previous <> [] ->
  current <> [] ->
  Py.len current < 32 ->
  Py.startswith current previous = false ->
  replicate._delta_by_prefix previous current
  = (previous ++ current, current).
Proof.
  intros Hp Hc Hlen Hs. unfold replicate._delta_by_prefix.
  destruct current as [|c current']; [contradiction |].
  destruct previous as [|p previous']; [contradiction |].
  cbn [Py.truthy negb]. rewrite Hs.
  destruct (Z.ltb_spec (Py.len (c :: current')) 32); [reflexivity | lia].
Qed.

Lemma small_fragment_is_additive_witness :
  replicate._delta_by_prefix (str "Hello wor") (str "wor ld")
  = (str "Hello wor" ++ str "wor ld", str "wor ld").
Proof.
  apply (small_fragment_is_additive (str "Hello wor") (str "wor ld")).
  - discriminate.
  - discriminate.
  - vm_compute. reflexivity.
  - reflexivity.
Defined.

(** The function of [core/delta_utils.py] has no such rule: a short
    fragment that overlaps the end of the previous content is merged (the
    case asserted by [test_partial_overlap_end]). *)
Lemma small_fragment_merged_in_delta_utils :
  str "Hello wor" <> [] /\ str "wor ld" <> []
  /\ Py.len (str "wor ld") < 32
  /\ Py.startswith (str "wor ld") (str "Hello wor") = false
  /\ delta_utils.delta_by_prefix (str "Hello wor") (str "wor ld")
     = (str "Hello wor ld", str " ld")
  /\ delta_utils.delta_by_prefix (str "Hello wor") (str "wor ld")
     <> (str "Hello wor" ++ str "wor ld", str "wor ld").
Proof.
  repeat split; try discriminate; try reflexivity.
Qed.

(** ** Deduplicated event streams *)

Section StreamFacts.
Context {A Rest Ev : Type} `{EqDecision A}.
Import replicate.

Abbreviation sev := (stream_event A Rest Ev).

Lemma last_cons_default {T : Type} (l : list T) (a c : T) :
  List.last (c :: l) a = List.last l c.
Proof.
  revert a c. induction l as [|x l IH]; intros a c; [reflexivity |].
  change (List.last (x :: l) a = List.last (x :: l) c).
  now rewrite (IH a x), (IH c x).
Qed.

Lemma dedupe_loop_text (events : list sev) (last : list A) :
  cumulative last (List.filter Py.truthy (map content_of events)) ->
  last ++ stream_text (dedupe_loop last events)
  = List.last (List.filter Py.truthy (map content_of events)) last.
Proof.
  revert last. induction events as [|ev events IH]; intros last Hc.
  - simpl. apply app_nil_r.
  - destruct ev as [[content|] rest|e]; cbn [dedupe_loop map content_of].
    + cbn [List.filter map content_of] in Hc |- *.
      destruct (Py.truthy content) eqn:Ht.
      * destruct Hc as [Hpre Hc].
        assert (Hd : _delta_by_prefix last content
                     = (content, drop (length last) content)).
        { unfold _delta_by_prefix. rewrite Ht. cbn [negb].
          destruct (Py.truthy last) eqn:Hl; cbn [negb].
          - apply startswith_prefix in Hpre. rewrite Hpre.
            unfold Py.slice_from, Py.len. now rewrite Nat2Z.id.
          - apply truthy_false in Hl as ->. reflexivity. }
        rewrite Hd.
        assert (Hsplit : last ++ drop (length last) content = content).
        { destruct Hpre as [k ->]. now rewrite drop_app_length. }
        rewrite last_cons_default, <- (IH content Hc).
        destruct (Py.truthy (drop (length last) content)) eqn:Hdelta;
          cbn [negb].
        -- unfold stream_text. cbn [map content_of concat].
           now rewrite app_assoc, Hsplit.
        -- apply truthy_false in Hdelta. rewrite Hdelta in Hsplit.
           rewrite app_nil_r in Hsplit. now rewrite Hsplit.
      * apply truthy_false in Ht as ->.
        unfold stream_text. cbn [map content_of concat app].
        now apply IH.
    + cbn [List.filter Py.truthy] in Hc |- *.
      unfold stream_text. cbn [map content_of concat app]. now apply IH.
    + cbn [List.filter Py.truthy] in Hc |- *.
      unfold stream_text. cbn [map content_of concat app]. now apply IH.
Qed.

Lemma dedupe_loop_passthrough (events : list sev) (last : list A) :
  List.filter (fun ev => negb (carries_text ev)) (dedupe_loop last events)
  = List.filter (fun ev => negb (carries_text ev)) events
  /\ Forall (fun ev => carries_text ev = true -> content_of ev <> [])
       (dedupe_loop last events).
Proof.
  revert last. induction events as [|ev events IH]; intros last.
  - split; [reflexivity | constructor].
  - destruct ev as [[content|] rest|e]; cbn [dedupe_loop].
    + destruct (Py.truthy content) eqn:Ht.
      * destruct (_delta_by_prefix last content) as [last' delta].
        destruct content as [|c content]; [discriminate |].
        destruct (IH last') as [IH1 IH2].
        destruct (Py.truthy delta) eqn:Hdelta; cbn [negb].
        -- destruct delta as [|x delta]; [discriminate |].
           cbn [List.filter carries_text negb]. split; [exact IH1 |].
           constructor; [discriminate | exact IH2].
        -- cbn [List.filter carries_text negb]. split; assumption.
      * apply truthy_false in Ht as ->. destruct (IH last) as [IH1 IH2].
        cbn [List.filter carries_text negb]. split; [now rewrite IH1 |].
        constructor; [discriminate | exact IH2].
    + destruct (IH last) as [IH1 IH2].
      cbn [List.filter carries_text negb]. split; [now rewrite IH1 |].
      constructor; [discriminate | exact IH2].
    + destruct (IH last) as [IH1 IH2].
      cbn [List.filter carries_text negb]. split; [now rewrite IH1 |].
      constructor; [discriminate | exact IH2].
Qed.

(** X16. When upstream sends snapshots (every non-empty assistant
    content starts with the one before), the contents of the events that
    [_dedupe_assistant_content_events] yields concatenate to the last
    snapshot: the stream is turned into its increments.  On any stream,
    the events that carry no text pass through unchanged and in order,
    and no event with an empty increment is yielded in place of one that
    carried text. *)
Theorem dedupe_rebuilds_snapshots (events : list sev) :
  (cumulative [] (List.filter Py.truthy (map content_of events)) ->
   stream_text (_dedupe_assistant_content_events events)
   = List.last (List.filter Py.truthy (map content_of events)) [])
  /\ List.filter (fun ev => negb (carries_text ev))
       (_dedupe_assistant_content_events events)
     = List.filter (fun ev => negb (carries_text ev)) events
  /\ (length (List.filter carries_text
                (_dedupe_assistant_content_events events))
      <= length (List.filter carries_text events))%nat.
Proof.
  unfold _dedupe_assistant_content_events. split; [| split].
  - intros Hc. now rewrite <- (dedupe_loop_text events [] Hc).
  - apply dedupe_loop_passthrough.
  - generalize (@nil A) as last.
    induction events as [|ev events IH]; intros last; [reflexivity |].
    destruct ev as [[content|] rest|e]; cbn [dedupe_loop].
    + destruct (Py.truthy content) eqn:Ht.
      * destruct (_delta_by_prefix last content) as [last' delta].
        destruct content as [|c content]; [discriminate |].
        destruct (Py.truthy delta) eqn:Hdelta; cbn [negb].
        -- destruct delta as [|x delta]; [discriminate |].
           cbn [List.filter carries_text length].
           apply le_n_S, IH.
        -- cbn [List.filter carries_text length].
           apply Nat.le_le_succ_r, IH.
      * apply truthy_false in Ht as ->.
        cbn [List.filter carries_text]. apply IH.
    + cbn [List.filter carries_text]. apply IH.
    + cbn [List.filter carries_text]. apply IH.
Qed.

End StreamFacts.

(** ** Tool results *)

Section ToolResultFacts.
Import replicate.
Context {E : Type}.
Abbreviation tr := (@tool_result E).

Lemma has_id_true tid (r : tr) : has_id tid r = true <-> valid_id r = Some tid.
Proof. unfold has_id. apply bool_decide_eq_true. Qed.

Lemma filter_has_id_cons tid (item : tr) rest :
  List.filter (has_id tid) (item :: rest)
  = if has_id tid item then item :: List.filter (has_id tid) rest
    else List.filter (has_id tid) rest.
Proof. reflexivity. Qed.

Lemma has_id_other tid t (item : tr) :
  valid_id item = Some t -> tid <> t -> has_id tid item = false.
Proof.
  intros Hv Hne. unfold has_id. apply bool_decide_eq_false.
  rewrite Hv. congruence.
Qed.

Lemma has_id_none tid (item : tr) :
  valid_id item = None -> has_id tid item = false.
Proof.
  intros Hv. unfold has_id. apply bool_decide_eq_false. now rewrite Hv.
Qed.

Lemma valid_id_extend (item e : tr) : valid_id (extend item e) = valid_id e.
Proof. reflexivity. Qed.

Lemma indexed_snoc_invalid (merged : list tr) by_id item :
  indexed merged by_id -> valid_id item = None ->
  indexed (merged ++ [item]) by_id.
Proof.
  intros Hi Hv tid i. rewrite (Hi tid i). split.
  - intros (e & He & Hid). exists e. split; [| exact Hid].
    now apply lookup_app_l_Some.
  - intros (e & He & Hid).
    apply lookup_app_Some in He as [He | [Hlen He]]; [now exists e |].
    apply list_lookup_singleton_Some in He as [_ <-]. congruence.
Qed.

Lemma indexed_snoc_new (merged : list tr) by_id item t :
  indexed merged by_id -> valid_id item = Some t -> by_id !! t = None ->
  indexed (merged ++ [item]) (<[t := length merged]> by_id).
Proof.
  intros Hi Hv Hnone tid i. split.
  - intros Hl. apply lookup_insert_Some in Hl as [[<- <-] | [Hne Hl]].
    + exists item. split; [| exact Hv].
      rewrite lookup_app_r by lia. now rewrite Nat.sub_diag.
    + apply Hi in Hl as (e & He & Hid). exists e. split; [| exact Hid].
      now apply lookup_app_l_Some.
  - intros (e & He & Hid).
    apply lookup_app_Some in He as [He | [Hlen He]].
    + destruct (decide (t = tid)) as [<- | Hne].
      * assert (Hl : by_id !! t = Some i) by (apply Hi; eauto). congruence.
      * rewrite lookup_insert_ne by exact Hne. apply Hi. eauto.
    + apply list_lookup_singleton_Some in He as [Hi0 <-].
      assert (tid = t) by congruence. subst tid.
      replace i with (length merged) by lia. apply lookup_insert_eq.
Qed.

Lemma indexed_alter (merged : list tr) by_id item k :
  indexed merged by_id -> indexed (alter (extend item) k merged) by_id.
Proof.
  intros Hi tid i. rewrite (Hi tid i). split.
  - intros (e & He & Hid). destruct (decide (k = i)) as [-> | Hne].
    + exists (extend item e). split; [| exact Hid].
      now rewrite list_lookup_alter_eq, He.
    + exists e. split; [| exact Hid].
      now rewrite list_lookup_alter_ne.
  - intros (e & He & Hid). destruct (decide (k = i)) as [-> | Hne].
    + rewrite list_lookup_alter_eq in He.
      destruct (merged !! i) as [e0|] eqn:He0; [| discriminate].
      injection He as <-. exists e0. split; [reflexivity | exact Hid].
    + rewrite list_lookup_alter_ne in He by exact Hne. eauto.
Qed.

Lemma merge_loop_spec (results : list tr) :
  forall merged by_id,
    indexed merged by_id ->
    let out := merge_loop results merged by_id in
    (exists by_id', indexed out by_id')
    /\ (forall j e0, merged !! j = Some e0 ->
          exists e, out !! j = Some e /\ valid_id e = valid_id e0
            /\ status e = status e0
            /\ (valid_id e0 = None -> e = e0)
            /\ (forall tid, valid_id e0 = Some tid ->
                  as_list (content e)
                  = as_list (content e0)
                    ++ added (List.filter (has_id tid) results)))
    /\ (forall j e, out !! j = Some e -> (length merged <= j)%nat ->
          (valid_id e = None -> e ∈ results)
          /\ (forall tid, valid_id e = Some tid ->
                by_id !! tid = None
                /\ as_list (content e) = gathered tid results)
          /\ (exists r, r ∈ results /\ valid_id r = valid_id e
                        /\ status r = status e))
    /\ (forall r, r ∈ results ->
          exists j e, out !! j = Some e /\ valid_id e = valid_id r
                      /\ (valid_id r = None -> e = r)).
Proof.
  induction results as [|item rest IH]; intros merged by_id Hi out.
  - subst out. cbn [merge_loop]. split; [eauto |]. split; [| split].
    + intros j e0 He0. exists e0. repeat split; auto.
      intros tid _. cbn. now rewrite app_nil_r.
    + intros j e He Hj. apply lookup_lt_Some in He. lia.
    + intros r Hr. inversion Hr.
  - subst out. cbn [merge_loop].
    destruct (valid_id item) as [t|] eqn:Hv.
    + destruct (by_id !! t) as [k|] eqn:Hk.
      * (* merged into the entry at k *)
        destruct (IH _ by_id (indexed_alter merged by_id item k Hi))
          as (Hidx & Hold & Hnew & Hcov).
        assert (Hk' : exists ek, merged !! k = Some ek /\ valid_id ek = Some t)
          by now apply Hi.
        destruct Hk' as (ek & Hek & Hekid).
        split; [exact Hidx |]. split; [| split].
        -- intros j e0 He0. destruct (decide (k = j)) as [-> | Hne].
           ++ assert (ek = e0) by congruence. subst ek.
              destruct (Hold j (extend item e0)) as (e & He & Hid & Hst & _ & Hc).
              { now rewrite list_lookup_alter_eq, He0. }
              exists e. split; [exact He |]. split; [exact Hid |].
              split; [exact Hst |]. split; [congruence |].
              intros tid Htid. assert (tid = t) by congruence. subst tid.
              rewrite (Hc t Hekid). cbn [filter List.filter].
              rewrite (proj2 (has_id_true t item) Hv).
              cbn [extend content as_list added flat_map].
              now rewrite <- !app_assoc.
           ++ destruct (Hold j e0) as (e & He & Hid & Hst & Hnone & Hc).
              { now rewrite list_lookup_alter_ne. }
              exists e. split; [exact He |]. split; [exact Hid |].
              split; [exact Hst |]. split; [exact Hnone |].
              intros tid Htid. rewrite (Hc tid Htid).
              assert (tid <> t).
              { intros ->. assert (Hj : by_id !! t = Some j)
                  by (apply Hi; eauto). congruence. }
              cbn [List.filter].
              now rewrite (has_id_other tid t item Hv).
        -- intros j e He Hj. rewrite length_alter in Hnew.
           destruct (Hnew j e He Hj) as (Hn1 & Hn2 & r & Hr & Hrid & Hrst).
           split; [| split].
           ++ intros Hnone. apply elem_of_cons. right. now apply Hn1.
           ++ intros tid Htid. destruct (Hn2 tid Htid) as [Hb Hg].
              split; [exact Hb |]. rewrite Hg. unfold gathered.
              assert (tid <> t) by congruence.
              cbn [List.filter].
              now rewrite (has_id_other tid t item Hv).
           ++ exists r. split; [apply elem_of_cons; now right | now split].
        -- intros r Hr. apply elem_of_cons in Hr as [-> | Hr].
           ++ destruct (Hold k (extend item ek)) as (e & He & Hid & _).
              { now rewrite list_lookup_alter_eq, Hek. }
              exists k, e. split; [exact He |].
              split; [rewrite Hid, valid_id_extend; congruence | intros Hn; congruence].
           ++ now apply Hcov.
      * (* a new id *)
        destruct (IH _ _ (indexed_snoc_new merged by_id item t Hi Hv Hk))
          as (Hidx & Hold & Hnew & Hcov).
        split; [exact Hidx |]. split; [| split].
        -- intros j e0 He0.
           destruct (Hold j e0) as (e & He & Hid & Hst & Hnone & Hc).
           { now apply lookup_app_l_Some. }
           exists e. split; [exact He |]. split; [exact Hid |].
           split; [exact Hst |]. split; [exact Hnone |].
           intros tid Htid. rewrite (Hc tid Htid).
           assert (tid <> t).
           { intros ->. assert (Hj : by_id !! t = Some j)
               by (apply Hi; eauto). congruence. }
           cbn [List.filter].
           now rewrite (has_id_other tid t item Hv).
        -- intros j e He Hj.
           destruct (decide (j = length merged)) as [-> | Hne].
           ++ destruct (Hold (length merged) item)
                as (e' & He' & Hid & Hst & _ & Hc).
              { rewrite lookup_app_r by lia. now rewrite Nat.sub_diag. }
              assert (e' = e) by congruence. subst e'.
              split; [intros Hnone; congruence |]. split.
              ** intros tid Htid. assert (tid = t) by congruence. subst tid.
                 split; [exact Hk |]. rewrite (Hc t Hv). unfold gathered.
                 cbn [List.filter].
                 now rewrite (proj2 (has_id_true t item) Hv).
              ** exists item. split; [apply list_elem_of_here | now split].
           ++ destruct (Hnew j e He) as (Hn1 & Hn2 & r & Hr & Hrid & Hrst).
              { rewrite length_app. cbn [length]. lia. }
              split; [| split].
              ** intros Hnone. apply elem_of_cons. right. now apply Hn1.
              ** intros tid Htid. destruct (Hn2 tid Htid) as [Hb Hg].
                 assert (tid <> t).
                 { intros ->. now rewrite lookup_insert_eq in Hb. }
                 split; [now rewrite lookup_insert_ne in Hb |].
                 rewrite Hg. unfold gathered. cbn [List.filter].
                 now rewrite (has_id_other tid t item Hv).
              ** exists r. split; [apply elem_of_cons; now right | now split].
        -- intros r Hr. apply elem_of_cons in Hr as [-> | Hr].
           ++ destruct (Hold (length merged) item)
                as (e' & He' & Hid & _ & Hnone & _).
              { rewrite lookup_app_r by lia. now rewrite Nat.sub_diag. }
              exists (length merged), e'. auto.
           ++ now apply Hcov.
    + (* no usable id *)
      destruct (IH _ _ (indexed_snoc_invalid merged by_id item Hi Hv))
        as (Hidx & Hold & Hnew & Hcov).
      split; [exact Hidx |]. split; [| split].
      * intros j e0 He0.
        destruct (Hold j e0) as (e & He & Hid & Hst & Hnone & Hc).
        { now apply lookup_app_l_Some. }
        exists e. split; [exact He |]. split; [exact Hid |].
        split; [exact Hst |]. split; [exact Hnone |].
        intros tid Htid. rewrite (Hc tid Htid). cbn [List.filter].
        now rewrite (has_id_none tid item Hv).
      * intros j e He Hj.
        destruct (decide (j = length merged)) as [-> | Hne].
        -- destruct (Hold (length merged) item)
             as (e' & He' & Hid & _ & Hnone & _).
           { rewrite lookup_app_r by lia. now rewrite Nat.sub_diag. }
           assert (e' = e) by congruence. subst e'.
           rewrite (Hnone Hv) in *.
           split; [intros _; apply list_elem_of_here |].
           split; [intros tid Htid; congruence |].
           exists item. split; [apply list_elem_of_here | now split].
        -- destruct (Hnew j e He) as (Hn1 & Hn2 & r & Hr & Hrid & Hrst).
           { rewrite length_app. cbn [length]. lia. }
           split; [| split].
           ++ intros Hnone. apply elem_of_cons. right. now apply Hn1.
           ++ intros tid Htid. destruct (Hn2 tid Htid) as [Hb Hg].
              split; [exact Hb |]. rewrite Hg. unfold gathered.
              cbn [List.filter]. now rewrite (has_id_none tid item Hv).
           ++ exists r. split; [apply elem_of_cons; now right | now split].
      * intros r Hr. apply elem_of_cons in Hr as [-> | Hr].
        -- destruct (Hold (length merged) item)
             as (e' & He' & Hid & _ & Hnone & _).
           { rewrite lookup_app_r by lia. now rewrite Nat.sub_diag. }
           exists (length merged), e'. auto.
        -- now apply Hcov.
Qed.

Lemma merge_loop_lists (results : list tr) :
  forall merged by_id,
    Forall (fun r => exists l, content r = ListContent l) merged ->
    Forall (fun r => exists l, content r = ListContent l) results ->
    Forall (fun r => exists l, content r = ListContent l)
           (merge_loop results merged by_id).
Proof.
  induction results as [|item rest IH]; intros merged by_id Hm Hr;
    [exact Hm |].
  apply Forall_cons in Hr as [Hitem Hr]. cbn [merge_loop].
  assert (Hsnoc : Forall (fun r : tr => exists l, content r = ListContent l)
                         (merged ++ [item])).
  { apply Forall_app. split; [exact Hm |]. now apply Forall_singleton. }
  destruct (valid_id item) as [t|]; [| now apply IH].
  destruct (by_id !! t) as [k|]; [| now apply IH].
  apply IH; [| exact Hr].
  apply Forall_lookup. intros i e He.
  destruct (decide (k = i)) as [-> | Hne].
  - rewrite list_lookup_alter_eq in He.
    destruct (merged !! i); [| discriminate]. injection He as <-.
    eexists. reflexivity.
  - rewrite list_lookup_alter_ne in He by exact Hne.
    exact (proj1 (Forall_lookup _ _) Hm i e He).
Qed.

(** X25. [_merge_tool_results_by_tool_use_id] groups the results by id:
    no two entries of the output share a usable id; the content of the
    entry of an id is the content of the first result with that id
    followed by what the later results with that id add, in order;
    every result without a usable id is passed through as it is; and
    every result is represented, under its id. *)
Theorem merge_tool_results_groups (results : list tr) :
  let out := _merge_tool_results_by_tool_use_id results in
  (forall i j e e' tid,
     out !! i = Some e -> out !! j = Some e' ->
     valid_id e = Some tid -> valid_id e' = Some tid -> i = j)
  /\ (forall e tid, e ∈ out -> valid_id e = Some tid ->
        as_list (content e) = gathered tid results)
  /\ (forall e, e ∈ out -> valid_id e = None -> e ∈ results)
  /\ (forall r, r ∈ results ->
        exists e, e ∈ out /\ valid_id e = valid_id r
                  /\ (valid_id r = None -> e = r)).
Proof.
  intros out. unfold out, _merge_tool_results_by_tool_use_id.
  assert (H0 : indexed (@nil tr) ∅).
  { intros tid i. rewrite lookup_empty. split; [discriminate |].
    intros (e & He & _). discriminate. }
  destruct (merge_loop_spec results [] ∅ H0)
    as ((by_id' & Hidx) & _ & Hnew & Hcov).
  split; [| split; [| split]].
  - intros i j e e' tid He He' Hid Hid'.
    assert (Hi : by_id' !! tid = Some i) by (apply Hidx; eauto).
    assert (Hj : by_id' !! tid = Some j) by (apply Hidx; eauto).
    congruence.
  - intros e tid He Hid. apply list_elem_of_lookup in He as [j Hj].
    destruct (Hnew j e Hj) as (_ & H & _); [cbn; lia |].
    now apply H.
  - intros e He Hid. apply list_elem_of_lookup in He as [j Hj].
    destruct (Hnew j e Hj) as (H & _); [cbn; lia |].
    now apply H.
  - intros r Hr. destruct (Hcov r Hr) as (j & e & Hj & Hid & Hnone).
    exists e. split; [| now split].
    apply list_elem_of_lookup. eauto.
Qed.

End ToolResultFacts.

Section ToolMessageFacts.
Import replicate.
Context {E Text Content : Type}.
Variable text_block : Text -> E.
Variable normalize : Content -> Text.

Abbreviation from_messages :=
  (_openai_tool_results_from_messages text_block normalize).

Lemma blank_nonempty (s : string) : blank s = false -> exists c s', s = String c s'.
Proof. destruct s; [discriminate | eauto]. Qed.

Lemma from_messages_cons (msg : @openai_message Content) messages :
  from_messages (msg :: messages)
  = match tool_call_of msg with
    | Some tid =>
        mk_tool_result (Some tid)
          (ListContent [text_block (normalize (message_content msg))])
          (Some "success"%string) :: from_messages messages
    | None => from_messages messages
    end.
Proof.
  unfold _openai_tool_results_from_messages, tool_call_of.
  cbn [omap list_omap].
  destruct (bool_decide (role msg = Some "tool"%string)); cbn [negb];
    [| reflexivity].
  destruct (match tool_call_id msg with
            | Some (String c s) => Some (String c s)
            | _ => toolCallId msg
            end) as [tool_id|]; [| reflexivity].
  now destruct (blank tool_id).
Qed.

Lemma tool_call_of_nonblank (msg : @openai_message Content) tid :
  tool_call_of msg = Some tid -> blank tid = false.
Proof.
  unfold tool_call_of. destruct (bool_decide _); [| discriminate].
  destruct (match tool_call_id msg with
            | Some (String c s) => Some (String c s)
            | _ => toolCallId msg
            end) as [tool_id|]; [| discriminate].
  destruct (blank tool_id) eqn:Hb; [discriminate |]. now intros [= <-].
Qed.

Lemma from_messages_shape messages :
  Forall (fun r : @tool_result E =>
            exists tid x, toolUseId r = Some tid /\ blank tid = false
                          /\ valid_id r = Some tid
                          /\ status r = Some "success"%string
                          /\ content r = ListContent [x])
         (from_messages messages).
Proof.
  induction messages as [|msg messages IH]; [constructor |].
  rewrite from_messages_cons.
  destruct (tool_call_of msg) as [tid|] eqn:Ht; [| exact IH].
  constructor; [| exact IH].
  pose proof (tool_call_of_nonblank msg tid Ht) as Hb.
  destruct (blank_nonempty tid Hb) as (c & s' & ->).
  eexists. eexists. repeat split. exact Hb.
Qed.

Lemma gathered_from_messages tid messages :
  gathered tid (from_messages messages)
  = map text_block (tool_texts normalize tid messages).
Proof.
  assert (Hadd : added (List.filter (has_id tid) (from_messages messages))
                 = map text_block (tool_texts normalize tid messages)).
  { induction messages as [|msg messages IH]; [reflexivity |].
    rewrite from_messages_cons. unfold tool_texts. cbn [omap list_omap].
    fold (tool_texts normalize tid messages).
    destruct (tool_call_of msg) as [t|] eqn:Ht.
    - pose proof (tool_call_of_nonblank msg t Ht) as Hb.
      destruct (blank_nonempty t Hb) as (c & s' & ->).
      cbn [List.filter]. unfold has_id at 1. cbn [valid_id toolUseId].
      destruct (decide (String c s' = tid)) as [<- | Hne].
      + rewrite !bool_decide_eq_true_2 by reflexivity.
        cbn [added flat_map content incoming app map]. f_equal. exact IH.
      + rewrite !bool_decide_eq_false_2 by congruence. exact IH.
    - rewrite bool_decide_eq_false_2 by discriminate. exact IH. }
  unfold gathered. rewrite <- Hadd.
  pose proof (from_messages_shape messages) as Hs.
  destruct (List.filter (has_id tid) (from_messages messages))
    as [|r rs] eqn:Hf; [reflexivity |].
  assert (Hr : r ∈ from_messages messages).
  { apply list_elem_of_In.
    apply (proj1 (List.filter_In (has_id tid) r (from_messages messages))).
    rewrite Hf. now left. }
  destruct (proj1 (Forall_forall _ _) Hs r Hr)
    as (t & x & _ & _ & _ & _ & Hc).
  cbn [added flat_map]. now rewrite Hc.
Qed.

(** X26. The tool messages of a request are grouped by call id: the
    results built from them by [_openai_tool_results_from_messages] and
    merged by [_merge_tool_results_by_tool_use_id] have non-blank,
    pairwise distinct ids and the status [success], and the content of
    the result of a call is the list of the texts of the tool messages
    of that call, in the order of the messages; every call that has a
    tool message has its result. *)
Theorem tool_messages_grouped_by_call
  (messages : list (@openai_message Content)) :
  let out := _merge_tool_results_by_tool_use_id (from_messages messages) in
  (forall e, e ∈ out ->
     exists tid, toolUseId e = Some tid /\ blank tid = false
       /\ status e = Some "success"%string
       /\ content e
          = ListContent (map text_block (tool_texts normalize tid messages)))
  /\ NoDup (map toolUseId out)
  /\ (forall msg tid, msg ∈ messages -> tool_call_of msg = Some tid ->
        exists e, e ∈ out /\ toolUseId e = Some tid).
Proof.
  intros out. unfold out, _merge_tool_results_by_tool_use_id.
  set (results := from_messages messages).
  pose proof (from_messages_shape messages) as Hshape. fold results in Hshape.
  assert (H0 : indexed (@nil (@tool_result E)) ∅).
  { intros tid i. rewrite lookup_empty. split; [discriminate |].
    intros (e & He & _). discriminate. }
  destruct (merge_loop_spec results [] ∅ H0)
    as ((by_id' & Hidx) & _ & Hnew & Hcov).
  assert (Hlists : Forall (fun r : @tool_result E =>
                             exists l, content r = ListContent l)
                          (merge_loop results [] ∅)).
  { apply merge_loop_lists; [constructor |].
    eapply Forall_impl; [exact Hshape |].
    intros r (t & x & _ & _ & _ & _ & Hc). eauto. }
  assert (Hentry : forall j e, merge_loop results [] ∅ !! j = Some e ->
            exists tid, toolUseId e = Some tid /\ blank tid = false
              /\ valid_id e = Some tid
              /\ status e = Some "success"%string
              /\ content e
                 = ListContent (map text_block
                                  (tool_texts normalize tid messages))).
  { intros j e Hj.
    destruct (Hnew j e Hj) as (_ & Hg & r & Hr & Hrid & Hrst); [cbn; lia |].
    destruct (proj1 (Forall_forall _ _) Hshape r Hr)
      as (t & x & Hrt & Hb & Hv & Hst & _).
    assert (Hev : valid_id e = Some t) by congruence.
    exists t. destruct (Hg t Hev) as [_ Hgat].
    assert (Het : toolUseId e = Some t).
    { unfold valid_id in Hev. destruct (toolUseId e) as [[|c s']|];
        congruence. }
    split; [exact Het |]. split; [exact Hb |]. split; [exact Hev |].
    split; [congruence |].
    destruct (proj1 (Forall_lookup _ _) Hlists j e Hj) as [l Hl].
    rewrite Hl in *. cbn [as_list] in Hgat. rewrite Hgat.
    unfold results. now rewrite gathered_from_messages. }
  split; [| split].
  - intros e He. apply list_elem_of_lookup in He as [j Hj].
    destruct (Hentry j e Hj) as (tid & H1 & H2 & _ & H3 & H4). eauto.
  - apply NoDup_alt. intros i j x Hi Hj.
    rewrite list_lookup_fmap in Hi, Hj.
    destruct (merge_loop results [] ∅ !! i) as [e|] eqn:Hei; [| discriminate].
    destruct (merge_loop results [] ∅ !! j) as [e'|] eqn:Hej; [| discriminate].
    cbn in Hi, Hj.
    destruct (Hentry i e Hei) as (t & Ht & _ & Hv & _).
    destruct (Hentry j e' Hej) as (t' & Ht' & _ & Hv' & _).
    assert (t = t') by congruence. subst t'.
    assert (Hbi : by_id' !! t = Some i) by (apply Hidx; eauto).
    assert (Hbj : by_id' !! t = Some j) by (apply Hidx; eauto).
    congruence.
  - intros msg tid Hmsg Hcall.
    assert (Hr : exists r, r ∈ results /\ valid_id r = Some tid).
    { unfold results. clear -Hmsg Hcall.
      induction messages as [|m messages IH]; [inversion Hmsg |].
      rewrite from_messages_cons.
      apply elem_of_cons in Hmsg as [<- | Hmsg].
      - rewrite Hcall.
        pose proof (tool_call_of_nonblank msg tid Hcall) as Hb.
        destruct (blank_nonempty tid Hb) as (c & s' & ->).
        eexists. split; [apply list_elem_of_here | reflexivity].
      - destruct (IH Hmsg) as (r & Hr & Hv).
        exists r. split; [| exact Hv].
        destruct (tool_call_of m); [apply elem_of_cons; now right | exact Hr]. }
    destruct Hr as (r & Hr & Hv).
    destruct (Hcov r Hr) as (j & e & Hj & Hid & _).
    exists e. split; [apply list_elem_of_lookup; eauto |].
    destruct (Hentry j e Hj) as (t & Ht & _ & Hv' & _). congruence.
Qed.

End ToolMessageFacts.

(** ** Event-stream framing *)

Section FeedFacts.
Import replicate.
Context {Str : Type} `{EqDecision Str}.
Variable decode_utf8_ignore : bytes -> Str.
Variable uuid_str : bytes -> Str.

Abbreviation step := (feed_step decode_utf8_ignore uuid_str).
Abbreviation loop := (feed_loop decode_utf8_ignore uuid_str).
Abbreviation feed1 := (feed decode_utf8_ignore uuid_str).
Abbreviation feeds := (feed_chunks decode_utf8_ignore uuid_str).

Lemma slice_app_l {T : Type} (l1 l2 : list T) (a b : Z) :
  (Z.to_nat b <= length l1)%nat -> slice (l1 ++ l2) a b = slice l1 a b.
Proof.
  intros Hb. unfold slice.
  destruct (Nat.le_gt_cases (Z.to_nat a) (length l1)) as [Ha|Ha].
  - rewrite drop_app_le by exact Ha.
    rewrite take_app_le; [reflexivity |]. rewrite length_drop. lia.
  - replace (Z.to_nat b - Z.to_nat a)%nat with 0%nat by lia. reflexivity.
Qed.

Lemma feed_step_shrinks buf ev buf' :
  step buf = Some (ev, buf') -> (length buf' < length buf)%nat.
Proof.
  unfold feed_step, total_len, headers_len.
  destruct (Nat.ltb_spec (length buf) 12) as [|H12]; [discriminate |].
  destruct (Z.ltb_spec (be_unsigned (slice buf 0 4)) 16) as [|H16]; simpl.
  { intros [= _ <-]. rewrite length_drop. lia. }
  destruct (_ <? be_unsigned (slice buf 4 8)).
  { intros [= _ <-]. rewrite length_drop. lia. }
  destruct (Z.ltb_spec (Z.of_nat (length buf)) (be_unsigned (slice buf 0 4)));
    [discriminate |].
  intros [= _ <-]. rewrite length_drop. lia.
Qed.

Lemma feed_step_app b1 b2 ev b1' :
  step b1 = Some (ev, b1') -> step (b1 ++ b2) = Some (ev, b1' ++ b2).
Proof.
  unfold feed_step, total_len, headers_len.
  destruct (Nat.ltb_spec (length b1) 12) as [|H12]; [discriminate |].
  destruct (Nat.ltb_spec (length (b1 ++ b2)) 12) as [Hlt|_].
  { rewrite length_app in Hlt. lia. }
  rewrite !(slice_app_l b1 b2 0 4), !(slice_app_l b1 b2 4 8) by lia.
  destruct (_ || _).
  { intros [= <- <-]. now rewrite drop_app_le by lia. }
  destruct (Z.ltb_spec (Z.of_nat (length b1)) (be_unsigned (slice b1 0 4)))
    as [|Hge]; [discriminate |].
  destruct (Z.ltb_spec (Z.of_nat (length (b1 ++ b2)))
              (be_unsigned (slice b1 0 4))) as [Hlt|_].
  { rewrite length_app in Hlt. lia. }
  rewrite (slice_app_l b1 b2 0 (be_unsigned (slice b1 0 4))) by lia.
  intros [= <- <-]. now rewrite drop_app_le by lia.
Qed.

Lemma feed_loop_enough n k buf :
  (length buf <= n)%nat -> (length buf <= k)%nat -> loop n buf = loop k buf.
Proof.
  revert k buf. induction n as [|n IH]; intros k buf Hn Hk.
  - destruct buf; [| simpl in Hn; lia]. destruct k; reflexivity.
  - destruct k as [|k].
    + destruct buf; [reflexivity | simpl in Hk; lia].
    + simpl. destruct (step buf) as [[ev buf']|] eqn:Hs; [| reflexivity].
      apply feed_step_shrinks in Hs.
      rewrite (IH k buf') by lia. reflexivity.
Qed.

Lemma feed_loop_fuel n buf :
  (length buf <= n)%nat -> loop n buf = loop (length buf) buf.
Proof. intros H. now apply feed_loop_enough. Qed.

(** With that fuel the loop stops on a [break]: the residue is shorter
    than a prelude or holds an incomplete frame. *)
Lemma feed_loop_done n buf :
  (length buf <= n)%nat -> step (snd (loop n buf)) = None.
Proof.
  revert buf. induction n as [|n IH]; intros buf Hn.
  - destruct buf; [reflexivity | simpl in Hn; lia].
  - simpl. destruct (step buf) as [[ev buf']|] eqn:Hs; [| exact Hs].
    pose proof (feed_step_shrinks _ _ _ Hs) as Hlt.
    specialize (IH buf' ltac:(lia)).
    destruct (loop n buf') as [out residue]. exact IH.
Qed.

Lemma feed_loop_stuck n buf : step buf = None -> loop n buf = ([], buf).
Proof. intros Hs. destruct n; simpl; [| rewrite Hs]; reflexivity. Qed.

Lemma feed_loop_app n b1 b2 :
  (length b1 <= n)%nat ->
  loop (length (b1 ++ b2)) (b1 ++ b2)
  = (fst (loop n b1)
     ++ fst (loop (length (snd (loop n b1) ++ b2)) (snd (loop n b1) ++ b2)),
     snd (loop (length (snd (loop n b1) ++ b2)) (snd (loop n b1) ++ b2))).
Proof.
  revert b1. induction n as [|n IH]; intros b1 Hn.
  - destruct b1; [| simpl in Hn; lia]. simpl.
    now destruct (loop (length b2) b2).
  - cbn [feed_loop]. destruct (step b1) as [[ev b1']|] eqn:Hs.
    2: { simpl. now destruct (loop (length (b1 ++ b2)) (b1 ++ b2)). }
    pose proof (feed_step_shrinks _ _ _ Hs) as Hlt.
    pose proof (feed_step_app b1 b2 _ _ Hs) as Hs2.
    pose proof (feed_step_shrinks _ _ _ Hs2) as Hlt2.
    destruct (length (b1 ++ b2)) as [|k] eqn:Hlen; [lia |].
    cbn [feed_loop]. rewrite Hs2.
    rewrite (feed_loop_fuel k (b1' ++ b2)) by lia.
    rewrite (IH b1') by lia.
    destruct (loop n b1') as [e1 r1]. cbn [fst snd].
    destruct (loop (length (r1 ++ b2)) (r1 ++ b2)) as [e2 r2]. cbn [fst snd].
    now destruct ev.
Qed.

Lemma feed_chunks_concat chunks buf :
  step buf = None ->
  feeds chunks buf
  = loop (length (buf ++ concat chunks)) (buf ++ concat chunks).
Proof.
  revert buf. induction chunks as [|data rest IH]; intros buf Hbuf.
  - simpl. rewrite app_nil_r. now rewrite feed_loop_stuck.
  - cbn [feed_chunks concat]. unfold feed.
    destruct data as [|d data].
    + simpl. rewrite (IH buf Hbuf).
      now destruct (loop (length (buf ++ concat rest)) (buf ++ concat rest)).
    + cbn [Py.truthy negb].
      set (data1 := d :: data).
      pose proof (feed_loop_done (length (buf ++ data1)) (buf ++ data1)
                    (Nat.le_refl _)) as Hdone.
      rewrite (app_assoc buf data1 (concat rest)).
      rewrite (feed_loop_app (length (buf ++ data1)) (buf ++ data1)
                 (concat rest)) by lia.
      destruct (loop (length (buf ++ data1)) (buf ++ data1)) as [out buf1].
      cbn [fst snd] in *. rewrite (IH buf1 Hdone).
      now destruct (loop (length (buf1 ++ concat rest)) (buf1 ++ concat rest)).
Qed.

(** C7. However a byte string is split into chunks, feeding the chunks in
    turn to a fresh parser yields the same events, and leaves the same
    residue in the buffer, as feeding the whole string at once; and a
    buffer that starts with a malformed prelude ([total_len < 16] or
    [headers_len > total_len]) loses exactly its first byte before the
    loop goes on. *)
Theorem feed_chunking_invariant :
  (forall chunks, feeds chunks [] = feed1 (concat chunks) [])
  /\ (forall chunks chunks',
        concat chunks = concat chunks' -> feeds chunks [] = feeds chunks' [])
  /\ (forall buf,
        (12 <= length buf)%nat ->
        total_len buf < 16 \/ total_len buf < headers_len buf ->
        step buf = Some (None, drop 1 buf)
        /\ loop (length buf) buf
           = loop (length (drop 1 buf)) (drop 1 buf)).
Proof.
  assert (H0 : step [] = None) by reflexivity.
  split; [| split].
  - intros chunks. rewrite (feed_chunks_concat chunks [] H0).
    unfold feed. simpl. destruct (concat chunks); reflexivity.
  - intros chunks chunks' Heq.
    rewrite (feed_chunks_concat chunks [] H0).
    rewrite (feed_chunks_concat chunks' [] H0). now rewrite Heq.
  - intros buf H12 Hbad.
    assert (Hs : step buf = Some (None, drop 1 buf)).
    { unfold feed_step, total_len, headers_len in *.
      destruct (Nat.ltb_spec (length buf) 12); [lia |].
      destruct (Z.ltb_spec (be_unsigned (slice buf 0 4)) 16);
        [reflexivity |].
      destruct (Z.ltb_spec (be_unsigned (slice buf 0 4))
                  (be_unsigned (slice buf 4 8))); [reflexivity | lia]. }
    split; [exact Hs |].
    destruct (length buf) as [|k] eqn:Hlen; [lia |].
    cbn [feed_loop]. rewrite Hs.
    rewrite (feed_loop_fuel k (drop 1 buf)) by (rewrite length_drop; lia).
    now destruct (loop (length (drop 1 buf)) (drop 1 buf)).
Qed.

Lemma byte_of_value (z : Z) :
  0 <= z < 256 -> Z.of_N (Byte.to_N (byte_of z)) = z.
Proof.
  intros Hz. unfold byte_of.
  destruct (Byte.of_N (Z.to_N z)) as [b|] eqn:Hb; simpl.
  - apply Byte.to_of_N in Hb. lia.
  - apply Byte.of_N_None_iff in Hb. lia.
Qed.

Lemma be_unsigned_be32 (n : Z) :
  0 <= n < 2 ^ 32 -> be_unsigned (be32 n) = n.
Proof.
  intros Hn. change (2 ^ 32) with 4294967296 in Hn.
  unfold be_unsigned, be32. cbn [fold_left].
  rewrite !byte_of_value by (Z.div_mod_to_equations; lia).
  Z.div_mod_to_equations. lia.
Qed.

Lemma be_unsigned_be16 (n : Z) :
  0 <= n < 65536 -> be_unsigned (be16 n) = n.
Proof.
  intros Hn. unfold be_unsigned, be16. cbn [fold_left].
  rewrite !byte_of_value by (Z.div_mod_to_equations; lia).
  Z.div_mod_to_equations. lia.
Qed.

Lemma headers_loop_string (h : bytes * bytes) (rest : bytes) fuel headers :
  header_fits h ->
  headers_loop decode_utf8_ignore uuid_str (S fuel)
    (string_header h ++ rest) headers
  = headers_loop decode_utf8_ignore uuid_str fuel rest
      (dict_set headers (decode_utf8_ignore (fst h))
         (HStr (decode_utf8_ignore (snd h)))).
Proof.
  destruct h as [name value]. intros [Hn Hv]. cbn [fst snd] in *.
  assert (Hbytes : string_header (name, value) ++ rest
                   = byte_of (Py.len name)
                     :: name ++ byte_of 7
                     :: be16 (Py.len value) ++ value ++ rest).
  { unfold string_header. cbn [fst snd app].
    rewrite <- !app_assoc. cbn [app]. now rewrite <- !app_assoc. }
  rewrite Hbytes. cbn [headers_loop].
  assert (Hn0 : 0 <= Py.len name) by (unfold Py.len; lia).
  assert (Hv0 : 0 <= Py.len value) by (unfold Py.len; lia).
  assert (Hnl : N.to_nat (Byte.to_N (byte_of (Py.len name))) = length name).
  { pose proof (byte_of_value (Py.len name) ltac:(lia)) as Hb.
    unfold Py.len in Hb |- *. lia. }
  rewrite Hnl.
  destruct (Nat.ltb_spec
    (length (name ++ byte_of 7 :: be16 (Py.len value) ++ value ++ rest))
    (length name + 1)) as [Hlt|_].
  { rewrite length_app in Hlt. cbn [length] in Hlt. lia. }
  rewrite take_app_length, drop_app_length.
  rewrite (byte_of_value 7) by lia.
  unfold header_val. cbn [Z.eqb Pos.eqb].
  pose proof (be_unsigned_be16 (Py.len value) ltac:(lia)) as Hbe.
  destruct (be16 (Py.len value)) as [|b1 [|b2 [|b3 bs]]] eqn:Hb16;
    try discriminate.
  cbn [app firstn skipn]. rewrite take_0, !drop_0, Hbe.
  destruct (Nat.ltb_spec (length (b1 :: b2 :: value ++ rest)) 2) as [Hlt|_].
  { cbn [length] in Hlt. lia. }
  unfold Py.len. rewrite Nat2Z.id.
  destruct (Nat.ltb_spec (length (value ++ rest)) (length value)) as [Hlt|_].
  { rewrite length_app in Hlt. lia. }
  now rewrite take_app_length, drop_app_length.
Qed.

Lemma headers_loop_strings (hs : list (bytes * bytes)) :
  Forall header_fits hs ->
  forall fuel headers, (length hs <= fuel)%nat ->
  headers_loop decode_utf8_ignore uuid_str fuel
    (concat (map string_header hs)) headers
  = fold_left (fun d h => dict_set d (decode_utf8_ignore (fst h))
                            (HStr (decode_utf8_ignore (snd h)))) hs headers.
Proof.
  induction 1 as [|h hs Hh Hhs IH]; intros fuel headers Hfuel.
  - simpl. now destruct fuel.
  - destruct fuel as [|fuel]; [simpl in Hfuel; lia |].
    cbn [map concat fold_left].
    rewrite headers_loop_string by exact Hh.
    apply IH. simpl in Hfuel. lia.
Qed.

Lemma string_headers_length (hs : list (bytes * bytes)) :
  (length hs <= length (concat (map string_header hs)))%nat.
Proof.
  induction hs as [|h hs IH]; simpl; [lia |].
  rewrite length_app. lia.
Qed.

Lemma dict_set_fresh (d : list (Str * header_value)) name val :
  name ∉ map fst d -> dict_set d name val = d ++ [(name, val)].
Proof.
  induction d as [|[k v] d IH]; intros Hnot; simpl; [reflexivity |].
  destruct (decide (k = name)) as [->|Hne].
  - destruct Hnot. simpl. apply elem_of_cons. now left.
  - rewrite IH; [reflexivity |].
    intros Hin. apply Hnot. simpl. apply elem_of_cons. now right.
Qed.

(** X22. A header block made of string headers (names shorter than 256
    bytes, values shorter than 65 536) is parsed into one entry for each
    header, in order, with the decoded name and value, as long as the
    decoded names are distinct; a name that comes again replaces the
    value at the place of the first. *)
Theorem parse_string_headers (hs : list (bytes * bytes)) :
  Forall header_fits hs ->
  _parse_event_headers decode_utf8_ignore uuid_str
    (concat (map string_header hs))
  = fold_left (fun d h => dict_set d (decode_utf8_ignore (fst h))
                            (HStr (decode_utf8_ignore (snd h)))) hs []
  /\ (NoDup (map (fun h => decode_utf8_ignore (fst h)) hs) ->
      _parse_event_headers decode_utf8_ignore uuid_str
        (concat (map string_header hs))
      = map (fun h => (decode_utf8_ignore (fst h),
                       HStr (decode_utf8_ignore (snd h)))) hs).
Proof.
  intros Hfit. unfold _parse_event_headers.
  rewrite (headers_loop_strings hs Hfit) by apply string_headers_length.
  split; [reflexivity |]. intros Hnd.
  assert (Hgen : forall d : list (Str * header_value),
    NoDup (map fst d ++ map (fun h => decode_utf8_ignore (fst h)) hs) ->
    fold_left (fun d h => dict_set d (decode_utf8_ignore (fst h))
                            (HStr (decode_utf8_ignore (snd h)))) hs d
    = d ++ map (fun h => (decode_utf8_ignore (fst h),
                          HStr (decode_utf8_ignore (snd h)))) hs).
  { clear Hfit Hnd. induction hs as [|h hs IH]; intros d Hd; simpl.
    - now rewrite app_nil_r.
    - simpl in Hd. apply NoDup_app in Hd as (Hd1 & Hd2 & Hd3).
      apply NoDup_cons in Hd3 as [Hh Hd3].
      rewrite dict_set_fresh.
      2: { intros Hin. apply (Hd2 _ Hin). apply elem_of_cons. now left. }
      rewrite IH; [now rewrite <- app_assoc |].
      rewrite map_app. simpl. rewrite <- app_assoc. simpl.
      apply NoDup_app. split; [exact Hd1 |]. split.
      + intros x Hx Hx'. apply elem_of_cons in Hx' as [->|Hx'].
        * apply (Hd2 _ Hx). apply elem_of_cons. now left.
        * apply (Hd2 _ Hx). apply elem_of_cons. now right.
      + apply NoDup_cons. split; assumption. }
  apply (Hgen []). exact Hnd.
Qed.

Lemma feed_step_frame (f : frame) (rest : bytes) :
  well_formed f ->
  step (frame_bytes f ++ rest)
  = Some (Some (_parse_event_headers decode_utf8_ignore uuid_str
                  (headers_raw f), payload f), rest).
Proof.
  intros (Hp & Hm & Hlen).
  destruct f as [pc hdr pl mc]. unfold frame_len in Hlen.
  cbn [prelude_crc message_crc headers_raw payload] in *.
  set (hl := Py.len hdr) in *. set (tl := 16 + hl + Py.len pl) in *.
  assert (Hhl : 0 <= hl) by (unfold hl, Py.len; lia).
  assert (Hpl : 0 <= Py.len pl) by (unfold Py.len; lia).
  assert (Hframe : length (frame_bytes (mk_frame pc hdr pl mc))
                   = Z.to_nat tl).
  { unfold frame_bytes. cbn [prelude_crc message_crc headers_raw payload].
    rewrite !length_app, Hp, Hm. unfold be32. cbn [length].
    unfold tl, hl, Py.len. lia. }
  assert (Htl : total_len (frame_bytes (mk_frame pc hdr pl mc) ++ rest) = tl).
  { unfold total_len, frame_bytes, frame_len.
    cbn [prelude_crc message_crc headers_raw payload].
    fold hl. fold tl. unfold be32 at 1.
    unfold slice. cbn. apply be_unsigned_be32. lia. }
  assert (Hhd : headers_len (frame_bytes (mk_frame pc hdr pl mc) ++ rest) = hl).
  { unfold headers_len, frame_bytes, frame_len.
    cbn [prelude_crc message_crc headers_raw payload].
    fold hl. fold tl. unfold be32 at 1 2.
    unfold slice. cbn. apply be_unsigned_be32. lia. }
  unfold feed_step. rewrite Htl, Hhd.
  destruct (Nat.ltb_spec (length (frame_bytes (mk_frame pc hdr pl mc) ++ rest))
              12) as [Hlt|_].
  { rewrite length_app, Hframe in Hlt. lia. }
  destruct (Z.ltb_spec tl 16); [lia |].
  destruct (Z.ltb_spec tl hl); [lia |]. cbn [orb].
  destruct (Z.ltb_spec
              (Z.of_nat (length (frame_bytes (mk_frame pc hdr pl mc) ++ rest)))
              tl) as [Hlt|_].
  { rewrite length_app, Hframe in Hlt. lia. }
  assert (Hmsg : slice (frame_bytes (mk_frame pc hdr pl mc) ++ rest) 0 tl
                 = frame_bytes (mk_frame pc hdr pl mc)).
  { unfold slice. change (Z.to_nat 0) with 0%nat.
    rewrite drop_0, Nat.sub_0_r, <- Hframe. apply take_app_length. }
  rewrite Hmsg, <- Hframe, drop_app_length.
  set (pre := be32 tl ++ be32 hl ++ pc).
  assert (Hpre : length pre = 12%nat).
  { unfold pre, be32. rewrite !length_app, Hp. reflexivity. }
  assert (Hbytes : frame_bytes (mk_frame pc hdr pl mc)
                   = pre ++ hdr ++ pl ++ mc).
  { unfold frame_bytes, frame_len, pre.
    cbn [prelude_crc message_crc headers_raw payload].
    fold hl. fold tl. now rewrite <- !app_assoc. }
  rewrite Hbytes.
  assert (Hh : slice (pre ++ hdr ++ pl ++ mc) 12 (12 + hl) = hdr).
  { unfold slice.
    rewrite (drop_app_length' pre) by (rewrite Hpre; reflexivity).
    apply take_app_length'. unfold hl, Py.len. lia. }
  assert (Hpay : slice (pre ++ hdr ++ pl ++ mc) (12 + hl) (tl - 4) = pl).
  { unfold slice. rewrite (app_assoc pre hdr).
    rewrite (drop_app_length' (pre ++ hdr))
      by (rewrite length_app, Hpre; unfold hl, Py.len; lia).
    apply take_app_length'. unfold tl, hl, Py.len. lia. }
  now rewrite Hh, Hpay.
Qed.

Lemma feed_loop_frames (frames : list frame) :
  Forall well_formed frames ->
  forall n, (length (concat (map frame_bytes frames)) <= n)%nat ->
  loop n (concat (map frame_bytes frames))
  = (map (fun f => (_parse_event_headers decode_utf8_ignore uuid_str
                      (headers_raw f), payload f)) frames, []).
Proof.
  induction 1 as [|f frames Hf Hfs IH]; intros n Hn.
  - simpl. destruct n; reflexivity.
  - cbn [map concat] in *.
    pose proof (feed_step_frame f (concat (map frame_bytes frames)) Hf) as Hs.
    pose proof (feed_step_shrinks _ _ _ Hs) as Hlt.
    destruct n as [|n]; [lia |].
    cbn [feed_loop]. rewrite Hs, (IH n) by lia. reflexivity.
Qed.

(** X21. A stream of well-formed frames is decoded into exactly their
    headers and payloads, in order, with nothing left in the buffer,
    however the bytes are cut into chunks; the two checksums of a frame
    are skipped, whatever their value. *)
Theorem feed_decodes_frames (frames : list frame) (chunks : list bytes) :
  Forall well_formed frames ->
  concat chunks = concat (map frame_bytes frames) ->
  feeds chunks []
  = (map (fun f => (_parse_event_headers decode_utf8_ignore uuid_str
                      (headers_raw f), payload f)) frames, []).
Proof.
  intros Hwf Hcat.
  rewrite (feed_chunks_concat chunks [] eq_refl). cbn [app].
  rewrite Hcat. now apply feed_loop_frames.
Qed.

End FeedFacts.

Example feed_one_frame :
  FeedExample.feeds0 [FeedExample.frame] []
  = ([([(FeedExample.of_str ":event-type",
         replicate.HStr (FeedExample.of_str "chunk"))],
       FeedExample.of_str "hi")], []).
Proof. vm_compute. reflexivity. Qed.

(** the same frame after a stray zero byte, cut into three chunks, and
    followed by the first bytes of a second frame *)
Example feed_split_frame :
  FeedExample.feeds0
    [ FeedExample.of_ints [0] ++ take 7 FeedExample.frame;
      take 20 (drop 7 FeedExample.frame);
      drop 27 FeedExample.frame ++ take 5 FeedExample.frame ] []
  = ([([(FeedExample.of_str ":event-type",
         replicate.HStr (FeedExample.of_str "chunk"))],
       FeedExample.of_str "hi")], take 5 FeedExample.frame).
Proof. vm_compute. reflexivity. Qed.

Lemma feed_chunking_invariant_witness :
  FeedExample.feeds0 [take 7 FeedExample.frame; drop 7 FeedExample.frame] []
  = FeedExample.feeds0 [FeedExample.frame] [].
Proof.
  apply (proj1 (proj2 (feed_chunking_invariant (Str := replicate.bytes)
                         (fun b => b) (fun b => b)))).
  vm_compute. reflexivity.
Defined.

(** ** Account statistics *)

Section AccountStats.
Import account_service.
Variable MAX_ERROR_COUNT : Z.
Variable ratio_status : Z -> Z -> string.

Abbreviation update := (update_account_stats MAX_ERROR_COUNT ratio_status).

Lemma update_account_stats_other clk id id' s t qe db :
  id <> id' ->
  accounts (update clk id s t qe db) !! id' = accounts db !! id'.
Proof.
  intros Hne. unfold update_account_stats; simpl.
  destruct s; [| destruct qe]; now rewrite lookup_alter_ne.
Qed.

(** C1. [update_account_stats] on the row of [id]: a success adds one to
    [success_count] and resets [error_count] and [quota_exhausted]; a
    failure with [quota_exhausted] sets [quota_exhausted=1] and
    [enabled=0] and leaves [error_count]; any other failure adds one to
    [error_count] and, in the same row update, sets [enabled=0] exactly
    when the incremented count has reached [MAX_ERROR_COUNT] (otherwise
    [enabled] keeps its value).  Rows of other ids are not touched. *)
Theorem update_account_stats_row clk id is_throttled db a :
  accounts db !! id = Some a ->
  (forall qe,
      exists a',
        accounts (update_account_stats MAX_ERROR_COUNT ratio_status clk id
                    true is_throttled qe db) !! id = Some a'
        /\ success_count a' = success_count a + 1
        /\ error_count a' = 0
        /\ quota_exhausted a' = 0
        /\ enabled a' = enabled a)
  /\ (exists a',
        accounts (update_account_stats MAX_ERROR_COUNT ratio_status clk id
                    false is_throttled true db) !! id = Some a'
        /\ quota_exhausted a' = 1
        /\ enabled a' = 0
        /\ error_count a' = error_count a
        /\ success_count a' = success_count a)
  /\ (exists a',
        accounts (update_account_stats MAX_ERROR_COUNT ratio_status clk id
                    false is_throttled false db) !! id = Some a'
        /\ error_count a' = error_count a + 1
        /\ (MAX_ERROR_COUNT <= error_count a' -> enabled a' = 0)
        /\ (error_count a' < MAX_ERROR_COUNT -> enabled a' = enabled a)
        /\ success_count a' = success_count a
        /\ quota_exhausted a' = quota_exhausted a)
  /\ (forall s qe id', id <> id' ->
        accounts (update_account_stats MAX_ERROR_COUNT ratio_status clk id
                    s is_throttled qe db) !! id'
        = accounts db !! id').
Proof.
  intros Ha. unfold update_account_stats; simpl.
  repeat split.
  - intros qe. eexists. rewrite lookup_alter_eq, Ha. simpl.
    repeat split; reflexivity.
  - eexists. rewrite lookup_alter_eq, Ha. simpl. repeat split; reflexivity.
  - eexists. rewrite lookup_alter_eq, Ha. simpl.
    split; [reflexivity |]. unfold set_error; simpl.
    repeat split; try reflexivity.
    + intros Hle.
      destruct (Z.leb_spec MAX_ERROR_COUNT (error_count a + 1)); lia.
    + intros Hlt.
      destruct (Z.leb_spec MAX_ERROR_COUNT (error_count a + 1)); lia.
  - intros s qe id' Hne.
    destruct s; [| destruct qe]; now rewrite lookup_alter_ne.
Qed.

End AccountStats.

Example update_account_stats_disables_at_threshold :
  account_service.accounts
    (account_service.update_account_stats 100 AccountExample.ratio0
       AccountExample.clk0 "acc-1" false false false AccountExample.db0)
    !! "acc-1"%string
  = Some (account_service.mk_account 0 100 7 0 "2026-01-01T00:00:00").
Proof. vm_compute. reflexivity. Qed.

Lemma update_account_stats_row_witness :
  exists a',
    account_service.accounts
      (account_service.update_account_stats 100 AccountExample.ratio0
         AccountExample.clk0 "acc-1" false true false AccountExample.db0)
      !! "acc-1"%string = Some a'
    /\ account_service.error_count a' = 100
    /\ account_service.enabled a' = 0.
Proof.
  destruct (update_account_stats_row 100 AccountExample.ratio0
              AccountExample.clk0 "acc-1" true AccountExample.db0
              AccountExample.acc0)
    as (_ & _ & (a' & Ha & He & Hd & _) & _).
  - vm_compute. reflexivity.
  - exists a'. split; [exact Ha |]. split; [exact He |].
    apply Hd. rewrite He. vm_compute. discriminate.
Defined.

(** *** Invariants of the account rows *)

Section AccountInvariants.
Import account_service.
Variable MAX_ERROR_COUNT : Z.
Variable ratio_status : Z -> Z -> string.
Hypothesis MAX_ERROR_COUNT_pos : 1 <= MAX_ERROR_COUNT.

Lemma set_success_ok clk a :
  account_ok MAX_ERROR_COUNT a -> account_ok MAX_ERROR_COUNT (set_success clk a).
Proof. intros [H1 H2]. split; simpl; [lia | discriminate]. Qed.

Lemma set_quota_exhausted_ok clk a :
  account_ok MAX_ERROR_COUNT (set_quota_exhausted clk a).
Proof. split; reflexivity. Qed.

Lemma set_error_ok clk a :
  account_ok MAX_ERROR_COUNT a ->
  account_ok MAX_ERROR_COUNT (set_error MAX_ERROR_COUNT clk a).
Proof.
  intros [H1 H2]. unfold set_error. split; simpl.
  - intros Hle.
    destruct (Z.leb_spec MAX_ERROR_COUNT (error_count a + 1)); [reflexivity | lia].
  - intros Hq. destruct (_ <=? _); [reflexivity | auto].
Qed.

(** X1. Every call of [update_account_stats] keeps the invariants of the
    account table: in each row, an error count at or above
    [MAX_ERROR_COUNT] (which is at least 1) and an exhausted quota both
    imply that the account is disabled. *)
Theorem update_account_stats_keeps_invariants clk id s t qe db :
  (forall i a, accounts db !! i = Some a -> account_ok MAX_ERROR_COUNT a) ->
  forall i a,
    accounts (update_account_stats MAX_ERROR_COUNT ratio_status clk id
                s t qe db) !! i = Some a ->
    account_ok MAX_ERROR_COUNT a.
Proof.
  intros Hinv i a. unfold update_account_stats; simpl.
  destruct (decide (id = i)) as [->|Hne].
  - destruct s; [| destruct qe]; rewrite lookup_alter_eq;
      destruct (accounts db !! i) as [a0|] eqn:Ha0; simpl;
      try discriminate; intros [= <-].
    + apply set_success_ok. eauto.
    + apply set_quota_exhausted_ok.
    + apply set_error_ok. eauto.
  - destruct s; [| destruct qe]; rewrite lookup_alter_ne by exact Hne;
      apply Hinv.
Qed.

Lemma plain_failures_row id reports :
  Forall plain_failure reports ->
  forall db a,
    accounts db !! id = Some a ->
    exists a',
      accounts (update_account_stats_all MAX_ERROR_COUNT ratio_status id
                  reports db) !! id = Some a'
      /\ error_count a' = error_count a + Z.of_nat (length reports)
      /\ success_count a' = success_count a
      /\ (reports <> [] -> MAX_ERROR_COUNT <= error_count a' -> enabled a' = 0)
      /\ (error_count a' < MAX_ERROR_COUNT -> enabled a' = enabled a).
Proof.
  unfold update_account_stats_all.
  induction 1 as [|[clk [[s t] qe]] reports [Hs Hq] _ IH]; intros db a Ha.
  - exists a. simpl. repeat split; try lia; try assumption. congruence.
  - simpl in Hs, Hq. subst s qe. cbn [fold_left].
    set (db1 := update_account_stats MAX_ERROR_COUNT ratio_status clk id
                  false t false db).
    assert (Ha1 : accounts db1 !! id = Some (set_error MAX_ERROR_COUNT clk a)).
    { unfold db1, update_account_stats; simpl.
      now rewrite lookup_alter_eq, Ha. }
    destruct (IH db1 _ Ha1) as (a' & Ha' & He & Hsc & Hd & Hk).
    exists a'. split; [exact Ha' |]. simpl in He, Hsc, Hk.
    split; [rewrite He; cbn [length]; lia |].
    split; [exact Hsc |]. split.
    + intros _ Hle. destruct reports as [|r reports].
      * cbn [fold_left] in Ha'. rewrite Ha1 in Ha'. injection Ha' as <-.
        unfold set_error in Hle |- *; simpl in Hle |- *.
        destruct (Z.leb_spec MAX_ERROR_COUNT (error_count a + 1));
          [reflexivity | lia].
      * apply Hd; [discriminate | exact Hle].
    + intros Hlt. rewrite (Hk Hlt).
      destruct (Z.leb_spec MAX_ERROR_COUNT (error_count a + 1));
        [cbn [length] in He; lia | reflexivity].
Qed.

(** X2. After [n >= 1] consecutive plain failures (no success, no quota
    exhaustion, any throttling flags) of an account, its error count has
    grown by [n], and the account is disabled as soon as the count has
    reached [MAX_ERROR_COUNT]; while the count stays below the threshold
    [enabled] keeps its value. *)
Theorem consecutive_failures_disable id reports db a :
  Forall plain_failure reports ->
  reports <> [] ->
  accounts db !! id = Some a ->
  exists a',
    accounts (update_account_stats_all MAX_ERROR_COUNT ratio_status id
                reports db) !! id = Some a'
    /\ error_count a' = error_count a + Z.of_nat (length reports)
    /\ (MAX_ERROR_COUNT <= error_count a' -> enabled a' = 0)
    /\ (error_count a' < MAX_ERROR_COUNT -> enabled a' = enabled a).
Proof.
  intros Hall Hne Ha.
  destruct (plain_failures_row id reports Hall db a Ha)
    as (a' & Ha' & He & _ & Hd & Hk).
  exists a'. repeat split; auto.
Qed.

(** X23. The quota row of an account keeps the month of its first
    request: a call adds one to [request_count] (and to
    [throttle_count] when throttled) but never changes [month_key].  A
    throttled call in that month sets the status to [exhausted]; in any
    other month, and on calls that are not throttled, the status is left
    as it is. *)
Theorem quota_row_month_is_sticky clk id s t qe db r :
  quota_stats db !! id = Some r ->
  exists r',
    quota_stats (update_account_stats MAX_ERROR_COUNT ratio_status clk id
                   s t qe db) !! id = Some r'
    /\ month_key r' = month_key r
    /\ request_count r' = request_count r + 1
    /\ throttle_count r' = throttle_count r + (if t then 1 else 0)
    /\ (t = false \/ month_key r <> now_month clk ->
        quota_status r' = quota_status r)
    /\ (t = true -> month_key r = now_month clk -> 0 <= throttle_count r ->
        quota_status r' = "exhausted"%string).
Proof.
  intros Hr. unfold update_account_stats, record_request. cbn [quota_stats].
  rewrite Hr. destruct t.
  - unfold update_quota_status. rewrite lookup_insert_eq. cbn [month_key].
    destruct (String.eqb_spec (month_key r) (now_month clk)) as [Hm|Hm];
      cbn [negb].
    + rewrite lookup_insert_eq. eexists. split; [reflexivity |].
      cbn [month_key request_count throttle_count quota_status].
      repeat split; try lia.
      * intros [Hf|Hne]; [discriminate | contradiction].
      * intros _ _ H0.
        destruct (Z.ltb_spec 0 (throttle_count r + 1)); [reflexivity | lia].
    + rewrite lookup_insert_eq. eexists. split; [reflexivity |].
      cbn [month_key request_count throttle_count quota_status].
      repeat split; try lia. intros _ Hm'. contradiction.
  - rewrite lookup_insert_eq. eexists. split; [reflexivity |].
    cbn [month_key request_count throttle_count quota_status].
    repeat split; lia.
Qed.

End AccountInvariants.

(** ** API key verification *)

Section VerifyFacts.
Import advanced.
Variable cfg : config.
Variable lookup_hash : string -> string.
Variable hash_key : string -> string -> string.
Variable db_ok : time -> bool.

Abbreviation verify := (verify_key cfg lookup_hash hash_key db_ok).
Abbreviation resolve := (resolve_key cfg lookup_hash hash_key).
Abbreviation check := (check_key cfg hash_key db_ok).
Abbreviation check_use := (check_and_use cfg db_ok).

Lemma same_usage_refl a : same_usage a a.
Proof. repeat split. Qed.

Lemma same_usage_set_status s a : same_usage a (set_status s a).
Proof. repeat split. Qed.

Lemma record_failed_keys now ip kid m :
  keys (_record_failed_attempt cfg now ip kid m) = keys m
  \/ keys (_record_failed_attempt cfg now ip kid m)
     = alter (set_status COMPROMISED) kid (keys m).
Proof.
  unfold _record_failed_attempt.
  destruct ip as [ip|]; [| now left].
  destruct (nonempty ip); [| now left].
  simpl. destruct (_ <=? _); [now right | now left].
Qed.

Lemma record_failed_lookup now ip kid m :
  key_lookup (_record_failed_attempt cfg now ip kid m) = key_lookup m
  /\ db (_record_failed_attempt cfg now ip kid m) = db m.
Proof.
  unfold _record_failed_attempt.
  destruct ip as [ip|]; [| now split].
  destruct (nonempty ip); [| now split].
  now split.
Qed.

Lemma check_rate_limit_frame now kid limit m :
  keys (fst (_check_rate_limit now kid limit m)) = keys m
  /\ key_lookup (fst (_check_rate_limit now kid limit m)) = key_lookup m
  /\ db (fst (_check_rate_limit now kid limit m)) = db m.
Proof.
  unfold _check_rate_limit. destruct (_ <=? _); simpl; repeat split.
Qed.

Lemma update_usage_frame now kid m :
  keys (fst (update_key_usage_in_db db_ok now kid m)) = keys m
  /\ key_lookup (fst (update_key_usage_in_db db_ok now kid m))
     = key_lookup m.
Proof.
  unfold update_key_usage_in_db.
  destruct (db m); [destruct (keys m !! kid) |];
    try destruct (db_ok now); simpl; now split.
Qed.

Lemma update_status_frame now kid s m :
  keys (fst (update_key_status_in_db db_ok now kid s m)) = keys m
  /\ key_lookup (fst (update_key_status_in_db db_ok now kid s m))
     = key_lookup m.
Proof.
  unfold update_key_status_in_db.
  destruct (db m); try destruct (db_ok now); simpl; now split.
Qed.

Lemma clear_failed_frame ip m :
  keys (_clear_failed_attempts ip m) = keys m
  /\ key_lookup (_clear_failed_attempts ip m) = key_lookup m.
Proof. unfold _clear_failed_attempts. destruct ip; simpl; now split. Qed.

Lemma check_and_use_cases now ip ua kid info m :
  let '(m', o) := check_use now ip ua kid info m in
  key_lookup m' = key_lookup m
  /\ ((o = Verified kid (mark_used now info)
       /\ keys m' = <[kid := mark_used now info]> (keys m))
      \/ (exists r, o = Rejected r /\ late_rejection kid r
          /\ (keys m' = keys m
              \/ keys m' = alter (set_status COMPROMISED) kid (keys m)))).
Proof.
  unfold check_and_use, late_rejection.
  destruct (_ && _ && negb (mem _ _)).
  { split; [apply record_failed_lookup |]. right.
    eexists; split; [reflexivity |].
    split; [tauto | apply record_failed_keys]. }
  destruct (_ && _ && negb (ua_match _ _)).
  { split; [apply record_failed_lookup |]. right.
    eexists; split; [reflexivity |].
    split; [tauto | apply record_failed_keys]. }
  pose proof (check_rate_limit_frame now kid (rate_limit_per_minute info) m)
    as (Hk & Hl & _).
  destruct (_check_rate_limit now kid (rate_limit_per_minute info) m)
    as [m1 ok]; simpl in Hk, Hl.
  destruct ok; simpl.
  2: { split; [exact Hl |]. right. eexists; split; [reflexivity |].
       split; [tauto | now left]. }
  destruct (_is_blocked cfg now ip m1).
  { split; [exact Hl |]. right. eexists; split; [reflexivity |].
    split; [tauto | now left]. }
  match goal with
  | |- key_lookup (fst (update_key_usage_in_db _ _ _ ?m3)) = _ /\ _ =>
      pose proof (update_usage_frame now kid m3) as (Hk3 & Hl3)
  end.
  rewrite Hk3, Hl3.
  match goal with |- key_lookup (_clear_failed_attempts _ ?m2) = _ /\ _ =>
    pose proof (clear_failed_frame ip m2) as (Hk2 & Hl2) end.
  rewrite Hk2, Hl2. simpl. rewrite Hk.
  split; [exact Hl |]. left. now split.
Qed.

Lemma check_key_outcome_key now api_key ip ua kid m k :
  outcome_key (snd (check now api_key ip ua kid m)) = Some k -> k = kid.
Proof.
  unfold check_key.
  destruct (keys m !! kid) as [info|]; [| discriminate].
  destruct (negb (compare_digest _ _)); [discriminate |].
  destruct (negb (bool_decide _)); [discriminate |].
  destruct (match expires_at info with Some e => e <? now | None => false end);
    [discriminate |].
  destruct (usage_exhausted info); [simpl; congruence |].
  pose proof (check_and_use_cases now ip ua kid info m) as Hc.
  destruct (check_and_use cfg db_ok now ip ua kid info m) as [m' o]. simpl.
  destruct Hc as [_ [[-> _] | (r & -> & Hr & _)]]; [simpl; congruence |].
  destruct Hr as [->|[->|[->| ->]]]; discriminate.
Qed.

Lemma check_key_cases now api_key ip ua kid m :
  is_Some (keys m !! kid) ->
  key_lookup (fst (check now api_key ip ua kid m)) = key_lookup m
  /\ call_effect now (keys m) (keys (fst (check now api_key ip ua kid m)))
                 (snd (check now api_key ip ua kid m)).
Proof.
  intros [info Hinfo]. unfold check_key. rewrite Hinfo.
  assert (Hother : forall r ks',
    (forall k, r <> UsageLimit k) ->
    (forall kid', r = IpNotAllowed kid' \/ r = UserAgentNotAllowed kid'
                  \/ r = RateLimited kid' -> kid' = kid) ->
    (ks' = keys m
     \/ exists k s, s <> INACTIVE /\ ks' = alter (set_status s) k (keys m)) ->
    call_effect now (keys m) ks' (Rejected r)).
  { intros r ks' H1 H2 H3. right; right. exists r. repeat split; auto.
    intros kid' Hk. rewrite (H2 kid' Hk). eauto. }
  destruct (negb (compare_digest _ _)); simpl.
  { split; [apply record_failed_lookup |]. apply Hother.
    - discriminate.
    - intros k [H|[H|H]]; discriminate.
    - destruct (record_failed_keys now ip kid m) as [->| ->]; [now left |].
      right. exists kid, COMPROMISED. split; [discriminate | reflexivity]. }
  destruct (negb (bool_decide _)); simpl.
  { split; [reflexivity |]. apply Hother.
    - discriminate.
    - intros k [H|[H|H]]; discriminate.
    - now left. }
  destruct (match expires_at info with Some e => e <? now | None => false end);
    simpl.
  { split; [reflexivity |]. apply Hother.
    - discriminate.
    - intros k [H|[H|H]]; discriminate.
    - right. exists kid, EXPIRED. split; [discriminate | reflexivity]. }
  destruct (usage_exhausted info) eqn:Hu; simpl.
  { match goal with
    | |- key_lookup (fst (update_key_status_in_db _ _ _ _ ?m1)) = _ /\ _ =>
        pose proof (update_status_frame now kid INACTIVE m1) as (Hk & Hl)
    end.
    rewrite Hk, Hl. simpl. split; [reflexivity |].
    right; left. exists kid, info. repeat split; assumption. }
  pose proof (check_and_use_cases now ip ua kid info m) as Hc.
  destruct (check_and_use cfg db_ok now ip ua kid info m) as [m' o]. simpl.
  destruct Hc as [Hl [[-> Hk] | (r & -> & Hr & Hk)]].
  - split; [exact Hl |]. left. exists kid, info. repeat split; assumption.
  - split; [exact Hl |]. apply Hother.
    + intros k; destruct Hr as [->|[->|[->| ->]]]; discriminate.
    + intros k Hk'.
      destruct Hr as [->|[->|[->| ->]]];
        destruct Hk' as [H|[H|H]]; congruence.
    + destruct Hk as [->| ->]; [now left |].
      right. exists kid, COMPROMISED. split; [discriminate | reflexivity].
Qed.

Lemma load_key_in_keys api_key m kid :
  snd (_load_key_from_db_by_api_key cfg lookup_hash hash_key api_key m)
  = Some kid ->
  is_Some (keys (fst (_load_key_from_db_by_api_key cfg lookup_hash hash_key
                        api_key m)) !! kid).
Proof.
  unfold _load_key_from_db_by_api_key.
  destruct (db m) as [rows|]; [| discriminate].
  destruct (scan_rows cfg hash_key api_key rows) as [[k info]|];
    [| discriminate].
  simpl. intros [= ->]. rewrite lookup_insert_eq. eauto.
Qed.

Lemma resolve_cases api_key m :
  resolution_of cfg lookup_hash hash_key api_key m (fst (resolve api_key m))
  /\ (forall kid, snd (resolve api_key m) = Some kid ->
        is_Some (keys (fst (resolve api_key m)) !! kid)).
Proof.
  unfold resolve_key.
  set (key_id := if truthy_opt _ then _ else _).
  destruct (truthy_opt key_id && bool_decide _) eqn:Hc.
  - simpl. split; [now left |]. intros kid ->.
    apply andb_prop in Hc as [_ Hc]. simpl in Hc.
    now apply bool_decide_eq_true in Hc.
  - split; [now right | apply load_key_in_keys].
Qed.

Lemma resolve_cached api_key m kid :
  key_lookup m !! lookup_hash api_key = Some kid ->
  nonempty kid = true ->
  is_Some (keys m !! kid) ->
  resolve api_key m = (m, Some kid).
Proof.
  intros Hl Hn Hk. unfold resolve_key. rewrite Hl. simpl. rewrite Hn. simpl.
  rewrite Hn. simpl. rewrite bool_decide_eq_true_2 by exact Hk. reflexivity.
Qed.

Lemma verify_cases now api_key ip ua m :
  exists m0, resolution_of cfg lookup_hash hash_key api_key m m0
    /\ call_effect now (keys m0) (keys (fst (verify now api_key ip ua m)))
                   (snd (verify now api_key ip ua m)).
Proof.
  assert (Hrej : forall r ks',
    (forall k, r <> UsageLimit k) ->
    (forall kid', r = IpNotAllowed kid' \/ r = UserAgentNotAllowed kid'
                  \/ r = RateLimited kid' -> False) ->
    forall ks, (ks' = ks
     \/ exists k s, s <> INACTIVE /\ ks' = alter (set_status s) k ks) ->
    call_effect now ks ks' (Rejected r)).
  { intros r ks' H1 H2 ks H3. right; right. exists r. repeat split; auto.
    intros kid' Hk. destruct (H2 kid' Hk). }
  unfold verify_key.
  destruct (negb (nonempty api_key)).
  { exists m. split; [now left |]. simpl. apply Hrej.
    - discriminate.
    - intros k [H|[H|H]]; discriminate.
    - now left. }
  destruct (negb (Py.startswith _ _)).
  { exists m. split; [now left |]. simpl. apply Hrej.
    - discriminate.
    - intros k [H|[H|H]]; discriminate.
    - now left. }
  destruct (resolve_cases api_key m) as [Hres Hin].
  exists (fst (resolve api_key m)). split; [exact Hres |].
  destruct (resolve api_key m) as [m1 [kid|]]; simpl in *.
  - apply check_key_cases. now apply Hin.
  - apply Hrej.
    + discriminate.
    + intros k [H|[H|H]]; discriminate.
    + destruct (record_failed_keys now ip "unknown" m1) as [->| ->];
        [now left |].
      right. exists "unknown"%string, COMPROMISED.
      split; [discriminate | reflexivity].
Qed.

Lemma lookup_alter_status s k (ks : gmap string SecureKeyInfo) k' info' :
  alter (set_status s) k ks !! k' = Some info' ->
  exists info, ks !! k' = Some info /\ same_usage info info'
    /\ (status info' = status info \/ status info' = s).
Proof.
  destruct (decide (k = k')) as [->|Hne].
  - rewrite lookup_alter_eq.
    destruct (ks !! k') as [info|]; [| discriminate].
    simpl. intros [= <-]. exists info.
    split; [reflexivity |]. split; [apply same_usage_set_status | now right].
  - rewrite lookup_alter_ne by exact Hne. intros H. exists info'.
    split; [exact H |]. split; [apply same_usage_refl | now left].
Qed.

Lemma row_to_key_info_usage row :
  same_usage row (row_to_key_info cfg row).
Proof.
  unfold row_to_key_info, same_usage.
  destruct (rate_limit_per_minute row =? 0); repeat split.
Qed.

Lemma scan_rows_in api_key rows kid info :
  scan_rows cfg hash_key api_key rows = Some (kid, info) ->
  exists row, (kid, row) ∈ rows /\ info = row_to_key_info cfg row
    /\ status row = ACTIVE /\ hash_key api_key (salt row) = key_hash row.
Proof.
  induction rows as [|[k row] rest IH]; [discriminate |].
  simpl. destruct (bool_decide (status row = ACTIVE) && _) eqn:Hc.
  - intros [= <- <-]. apply andb_prop in Hc as [Hs Hh].
    apply bool_decide_eq_true in Hs. apply String.eqb_eq in Hh.
    exists row. repeat split; [left | assumption | assumption].
  - intros H. destruct (IH H) as (row' & Hin & Hrest).
    exists row'. split; [now right | exact Hrest].
Qed.

(** What the lazy load leaves in memory. *)
Lemma load_spec api_key m :
  let r := _load_key_from_db_by_api_key cfg lookup_hash hash_key api_key m in
  db (fst r) = db m
  /\ (snd r = None -> fst r = m)
  /\ (forall kid, snd r = Some kid ->
        exists rows row,
          db m = Some rows /\ (kid, row) ∈ rows
          /\ status row = ACTIVE /\ hash_key api_key (salt row) = key_hash row
          /\ keys (fst r) = <[kid := row_to_key_info cfg row]> (keys m)).
Proof.
  unfold _load_key_from_db_by_api_key.
  destruct (db m) as [rows|] eqn:Hdb; simpl.
  2: { rewrite Hdb. repeat split. discriminate. }
  destruct (scan_rows cfg hash_key api_key rows) as [[k info]|] eqn:Hs; simpl.
  2: { rewrite Hdb. repeat split. discriminate. }
  split; [reflexivity |]. split; [discriminate |].
  intros kid [= <-].
  destruct (scan_rows_in _ _ _ _ Hs) as (row & Hin & -> & Hst & Hh).
  exists rows, row. repeat split; assumption.
Qed.

(** The key is resolved in memory, or by the lazy load. *)
Lemma resolve_split api_key m :
  (fst (resolve api_key m) = m
   /\ forall kid, snd (resolve api_key m) = Some kid ->
        is_Some (keys m !! kid))
  \/ resolve api_key m
     = _load_key_from_db_by_api_key cfg lookup_hash hash_key api_key m.
Proof.
  unfold resolve_key.
  set (key_id := if truthy_opt _ then _ else _).
  destruct (truthy_opt key_id && bool_decide _) eqn:Hc; [left | now right].
  simpl. split; [reflexivity |]. intros kid ->.
  apply andb_prop in Hc as [_ Hc]. simpl in Hc.
  now apply bool_decide_eq_true in Hc.
Qed.

Lemma check_and_use_db now ip ua kid info m r :
  snd (check_use now ip ua kid info m) = Rejected r ->
  db (fst (check_use now ip ua kid info m)) = db m.
Proof.
  unfold check_and_use.
  destruct (_ && _ && negb (mem _ _)); [intros _; apply record_failed_lookup |].
  destruct (_ && _ && negb (ua_match _ _));
    [intros _; apply record_failed_lookup |].
  pose proof (check_rate_limit_frame now kid (rate_limit_per_minute info) m)
    as (_ & _ & Hd).
  destruct (_check_rate_limit now kid (rate_limit_per_minute info) m)
    as [m1 ok]; simpl in Hd.
  destruct ok; simpl; [| intros _; exact Hd].
  destruct (_is_blocked cfg now ip m1); [intros _; exact Hd | discriminate].
Qed.

(** The rows of the table after a rejection by [check_key]. *)
Lemma check_key_db now api_key ip ua kid m r :
  snd (check now api_key ip ua kid m) = Rejected r ->
  db (fst (check now api_key ip ua kid m)) = db m
  \/ exists rows,
       r = UsageLimit kid /\ db m = Some rows
       /\ db (fst (check now api_key ip ua kid m))
          = Some (update_row kid (set_status INACTIVE) rows).
Proof.
  unfold check_key.
  destruct (keys m !! kid) as [info|];
    [| intros _; left; apply record_failed_lookup].
  destruct (negb (compare_digest _ _));
    [intros _; left; apply record_failed_lookup |].
  destruct (negb (bool_decide _)); [intros _; now left |].
  destruct (match expires_at info with Some e => e <? now | None => false end);
    [intros _; now left |].
  destruct (usage_exhausted info).
  - simpl. intros [= <-]. unfold update_key_status_in_db. simpl.
    destruct (db m) as [rows|]; [| now left].
    destruct (db_ok now); simpl; [| now left].
    right. exists rows. now repeat split.
  - intros H. left. eapply check_and_use_db. exact H.
Qed.

(** A rejection for the client is about the resolved key, and leaves its
    usage fields and the rows of the table as they are. *)
Lemma check_key_late now api_key ip ua kid0 m kid :
  rejected_for_client (snd (check now api_key ip ua kid0 m)) kid ->
  kid = kid0
  /\ db (fst (check now api_key ip ua kid0 m)) = db m
  /\ exists info info',
       keys m !! kid = Some info
       /\ keys (fst (check now api_key ip ua kid0 m)) !! kid = Some info'
       /\ same_usage info info'.
Proof.
  intros Hrej.
  assert (Hr : exists r, snd (check now api_key ip ua kid0 m) = Rejected r
                 /\ (r = IpNotAllowed kid \/ r = UserAgentNotAllowed kid
                     \/ r = RateLimited kid)).
  { destruct Hrej as [H|[H|H]]; rewrite H; eexists; split; eauto. }
  destruct Hr as (r & Hr & Hkind).
  assert (Hdb : db (fst (check now api_key ip ua kid0 m)) = db m).
  { destruct (check_key_db _ _ _ _ _ _ _ Hr) as [H|(rows & -> & _)];
      [exact H |].
    destruct Hkind as [H|[H|H]]; discriminate. }
  revert Hr Hdb. unfold check_key.
  destruct (keys m !! kid0) as [info|] eqn:Hinfo.
  2: { simpl. intros [= <-]. destruct Hkind as [H|[H|H]]; discriminate. }
  destruct (negb (compare_digest _ _)).
  { simpl. intros [= <-]. destruct Hkind as [H|[H|H]]; discriminate. }
  destruct (negb (bool_decide _)).
  { simpl. intros [= <-]. destruct Hkind as [H|[H|H]]; discriminate. }
  destruct (match expires_at info with Some e => e <? now | None => false end).
  { simpl. intros [= <-]. destruct Hkind as [H|[H|H]]; discriminate. }
  destruct (usage_exhausted info).
  { simpl. intros [= <-]. destruct Hkind as [H|[H|H]]; discriminate. }
  pose proof (check_and_use_cases now ip ua kid0 info m) as Hc.
  destruct (check_and_use cfg db_ok now ip ua kid0 info m) as [m' o].
  simpl. intros -> Hdb.
  destruct Hc as [_ [[Ho _] | (r' & [= <-] & Hlate & Hks)]]; [discriminate |].
  assert (kid = kid0) as ->.
  { destruct Hlate as [->|[->|[->| ->]]];
      destruct Hkind as [H|[H|H]]; congruence. }
  split; [reflexivity |]. split; [exact Hdb |].
  exists info. destruct Hks as [->| ->].
  - exists info. split; [exact Hinfo |]. split; [exact Hinfo |].
    apply same_usage_refl.
  - exists (set_status COMPROMISED info). split; [exact Hinfo |].
    rewrite lookup_alter_eq, Hinfo. split; [reflexivity |].
    apply same_usage_set_status.
Qed.

(** The two ways in which [verify_key] returns: before the key is
    resolved, or from the checks that run in the state [resolve_key]
    leaves. *)
Lemma verify_split now api_key ip ua m :
  (fst (verify now api_key ip ua m) = m
   /\ (snd (verify now api_key ip ua m) = Rejected EmptyKey
       \/ snd (verify now api_key ip ua m) = Rejected BadFormat))
  \/ verify now api_key ip ua m
     = match resolve api_key m with
       | (m1, Some kid) => check now api_key ip ua kid m1
       | (m1, None) =>
           (_record_failed_attempt cfg now ip "unknown" m1, Rejected NotFound)
       end.
Proof.
  unfold verify_key.
  destruct (negb (nonempty api_key)); [left; simpl; tauto |].
  destruct (negb (Py.startswith _ _)); [left; simpl; tauto |].
  now right.
Qed.

(** The key table after a call, against the table in which the checks
    ran. *)
Lemma verify_effect now api_key ip ua m :
  verify now api_key ip ua m
  = match resolve api_key m with
    | (m1, Some kid) => check now api_key ip ua kid m1
    | (m1, None) =>
        (_record_failed_attempt cfg now ip "unknown" m1, Rejected NotFound)
    end ->
  forall k info1 info',
    keys (fst (resolve api_key m)) !! k = Some info1 ->
    keys (fst (verify now api_key ip ua m)) !! k = Some info' ->
    usage_count info' <> usage_count info1 ->
    usage_count info' = usage_count info1 + 1
    /\ snd (verify now api_key ip ua m) = Verified k info'.
Proof.
  intros Heq k info1 info' Hk1 Hk' Hne.
  assert (Heff : call_effect now (keys (fst (resolve api_key m)))
                   (keys (fst (verify now api_key ip ua m)))
                   (snd (verify now api_key ip ua m))).
  { rewrite Heq. destruct (resolve_cases api_key m) as [_ Hin].
    destruct (resolve api_key m) as [m1 [kid|]]; simpl in *.
    - apply check_key_cases. now apply Hin.
    - right; right. exists NotFound. split; [reflexivity |].
      split; [discriminate |].
      split; [intros kid [H|[H|H]]; discriminate |].
      destruct (record_failed_keys now ip "unknown" m1) as [->| ->];
        [now left |].
      right. exists "unknown"%string, COMPROMISED.
      split; [discriminate | reflexivity]. }
  destruct Heff as [(kid0 & info0 & Hk0 & Hu0 & Ho & Hks)
                   |[(kid0 & info0 & Hk0 & Hu0 & Ho & Hks)
                   |(r & Ho & Hnl & Hin & Hks)]].
  - rewrite Hks in Hk'. rewrite Ho.
    destruct (decide (kid0 = k)) as [->|Hkk].
    + rewrite lookup_insert_eq in Hk'. injection Hk' as <-.
      rewrite Hk0 in Hk1. injection Hk1 as <-. now split.
    + rewrite lookup_insert_ne in Hk' by exact Hkk. congruence.
  - rewrite Hks in Hk'.
    apply lookup_alter_status in Hk' as (info2 & Hk2 & (Hsu & _) & _).
    congruence.
  - destruct Hks as [Hks|(k1 & s & _ & Hks)]; rewrite Hks in Hk';
      [congruence |].
    apply lookup_alter_status in Hk' as (info2 & Hk2 & (Hsu & _) & _).
    congruence.
Qed.

(** C4 (as amended).  A call rejected for the client IP, the User-Agent
    or the rate limit writes no row of the table, and leaves the key in
    memory with the [usage_count] and [last_used] it had before the call,
    or, when the call resolved the key by the lazy load from the
    database, with those of the row it was read from; the former whenever
    the lookup cache resolves the API key to a key held in memory.  The
    [usage_count] of a key in memory differs after a call from the count
    before it only if the call is the successful verification of that key
    and the count went up by one, or the call loaded the key and the
    count is that of the row, one more if the call verified the key.  A
    rejected call leaves the rows of the table as they are, but for the
    [status] the usage limit sets. *)
Theorem rejected_call_keeps_usage now api_key ip ua m :
  (forall kid,
     rejected_for_client (snd (verify now api_key ip ua m)) kid ->
     db (fst (verify now api_key ip ua m)) = db m
     /\ exists info',
          keys (fst (verify now api_key ip ua m)) !! kid = Some info'
          /\ ((exists info, keys m !! kid = Some info /\ same_usage info info')
              \/ (exists row,
                    loaded_from cfg lookup_hash hash_key api_key m kid row
                    /\ same_usage row info'))
          /\ (cached lookup_hash api_key m kid ->
              exists info, keys m !! kid = Some info /\ same_usage info info'))
  /\ (forall k info info',
        keys m !! k = Some info ->
        keys (fst (verify now api_key ip ua m)) !! k = Some info' ->
        usage_count info' <> usage_count info ->
        (snd (verify now api_key ip ua m) = Verified k info'
         /\ usage_count info' = usage_count info + 1)
        \/ exists row,
             loaded_from cfg lookup_hash hash_key api_key m k row
             /\ (usage_count info' = usage_count row
                 \/ (snd (verify now api_key ip ua m) = Verified k info'
                     /\ usage_count info' = usage_count row + 1)))
  /\ (forall r,
        snd (verify now api_key ip ua m) = Rejected r ->
        db (fst (verify now api_key ip ua m)) = db m
        \/ exists k rows,
             r = UsageLimit k /\ db m = Some rows
             /\ db (fst (verify now api_key ip ua m))
                = Some (update_row k (set_status INACTIVE) rows)).
Proof.
  destruct (verify_split now api_key ip ua m) as [[Hm Ho] | Heq].
  { rewrite Hm. split; [| split].
    - intros kid [H|[H|H]]; destruct Ho as [Ho|Ho]; rewrite Ho in H;
        discriminate.
    - intros k info info' Hk Hk' Hne. congruence.
    - intros r _. now left. }
  pose proof (verify_effect now api_key ip ua m Heq) as Heff.
  pose proof (load_spec api_key m) as (Hldb & Hlnone & Hlsome).
  pose proof (resolve_split api_key m) as Hsplit.
  assert (Hrdb : db (fst (resolve api_key m)) = db m).
  { destruct Hsplit as [[-> _] | ->]; [reflexivity | exact Hldb]. }
  split; [| split].
  - intros kid Hrej. rewrite Heq in Hrej |- *.
    destruct (resolve api_key m) as [m1 [kid0|]] eqn:Hres; simpl in *.
    2: { destruct Hrej as [H|[H|H]]; discriminate. }
    destruct (check_key_late _ _ _ _ _ _ _ Hrej)
      as (-> & Hdb & info1 & info' & Hk1 & Hk' & Hsu).
    split; [congruence |].
    exists info'. split; [exact Hk' |].
    split.
    + destruct Hsplit as [[Hm _] | Hload].
      * left. exists info1. simpl in Hm. subst m1. now split.
      * right. rewrite <- Hload in Hlsome. simpl in Hlsome.
        destruct (Hlsome kid0 eq_refl)
          as (rows & row & Hrows & Hin & Hst & Hh & Hks).
        rewrite Hks, lookup_insert_eq in Hk1. injection Hk1 as <-.
        exists row. split.
        -- unfold loaded_from. rewrite <- Hload. simpl. eauto 10.
        -- destruct (row_to_key_info_usage row) as (H1 & H2 & H3).
           destruct Hsu as (H4 & H5 & H6). repeat split; congruence.
    + intros (Hl & Hn & Hin).
      rewrite (resolve_cached api_key m kid0 Hl Hn Hin) in Hres.
      injection Hres as <-. exists info1. now split.
  - intros k info info' Hk Hk' Hne.
    destruct Hsplit as [[Hm _] | Hload].
    + left. rewrite Hm in Heff.
      destruct (Heff k info info' Hk Hk' Hne). now split.
    + rewrite Hload in Heff.
      destruct (snd (_load_key_from_db_by_api_key cfg lookup_hash hash_key
                       api_key m)) as [kid0|] eqn:Hs.
      2: { left. rewrite (Hlnone eq_refl) in Heff.
           destruct (Heff k info info' Hk Hk' Hne). now split. }
      destruct (Hlsome kid0 eq_refl)
        as (rows & row & Hrows & Hin & Hst & Hh & Hks).
      rewrite Hks in Heff.
      destruct (decide (kid0 = k)) as [->|Hkk].
      * right. exists row. split.
        { unfold loaded_from. rewrite Hs. eauto 10. }
        destruct (row_to_key_info_usage row) as (H1 & _).
        destruct (decide (usage_count info' = usage_count row)) as [He|Hd];
          [now left |].
        right.
        destruct (Heff k (row_to_key_info cfg row) info') as [H2 H3].
        -- apply lookup_insert_eq.
        -- exact Hk'.
        -- congruence.
        -- split; [exact H3 | congruence].
      * left.
        destruct (Heff k info info') as [H2 H3].
        -- rewrite lookup_insert_ne by exact Hkk. exact Hk.
        -- exact Hk'.
        -- exact Hne.
        -- now split.
  - intros r Hr. rewrite Heq in Hr |- *. rewrite <- Hrdb.
    destruct (resolve api_key m) as [m1 [kid0|]]; simpl in *.
    + destruct (check_key_db _ _ _ _ _ _ _ Hr) as [H|(rows & -> & H1 & H2)];
        [now left |].
      right. exists kid0, rows. now repeat split.
    + left. apply record_failed_lookup.
Qed.

(** C10. A key whose [max_uses] is absent or zero is never rejected on
    usage-count grounds and never becomes inactive through a call,
    whatever its [usage_count]; its [max_uses] stays as it is. *)
Theorem falsy_max_uses_is_unlimited now api_key ip ua m :
  exists m0, resolution_of cfg lookup_hash hash_key api_key m m0
    /\ forall k info,
         keys m0 !! k = Some info ->
         max_uses info = None \/ max_uses info = Some 0 ->
         snd (verify now api_key ip ua m) <> Rejected (UsageLimit k)
         /\ exists info',
              keys (fst (verify now api_key ip ua m)) !! k = Some info'
              /\ max_uses info' = max_uses info
              /\ (status info' = INACTIVE -> status info = INACTIVE).
Proof.
  destruct (verify_cases now api_key ip ua m) as (m0 & Hres & Heff).
  exists m0. split; [exact Hres |].
  intros k info Hk Hmax.
  assert (Hne : usage_exhausted info = false).
  { unfold usage_exhausted. destruct Hmax as [-> | ->]; reflexivity. }
  destruct (verify now api_key ip ua m) as [m' o]. simpl in *.
  assert (Halt : forall k1 s, s <> INACTIVE ->
    exists info', alter (set_status s) k1 (keys m0) !! k = Some info'
      /\ max_uses info' = max_uses info
      /\ (status info' = INACTIVE -> status info = INACTIVE)).
  { intros k1 s Hs. destruct (decide (k1 = k)) as [->|Hkk].
    - exists (set_status s info). rewrite lookup_alter_eq, Hk.
      repeat split. simpl. intros ->. now destruct Hs.
    - exists info. rewrite lookup_alter_ne by exact Hkk. now repeat split. }
  destruct Heff as [(kid0 & info0 & Hk0 & Hu0 & -> & ->)
                   |[(kid0 & info0 & Hk0 & Hu0 & -> & ->)
                   |(r & -> & Hnl & Hin & Hks)]].
  - split; [discriminate |].
    destruct (decide (kid0 = k)) as [->|Hkk].
    + exists (mark_used now info0). rewrite lookup_insert_eq.
      rewrite Hk0 in Hk. injection Hk as ->. now repeat split.
    + exists info. rewrite lookup_insert_ne by exact Hkk. now repeat split.
  - assert (Hkk : kid0 <> k) by (intros ->; congruence).
    split; [congruence |].
    exists info. rewrite lookup_alter_ne by exact Hkk. now repeat split.
  - split; [intros [= ->]; now apply (Hnl k) |].
    destruct Hks as [->|(k1 & s & Hs & ->)]; [| now apply Halt].
    exists info. now repeat split.
Qed.

Lemma verify_resolved_step now api_key ip ua m m0 kid info :
  resolve api_key m = (m0, Some kid) ->
  keys m0 !! kid = Some info ->
  usage_decided (snd (verify now api_key ip ua m)) = true ->
  key_lookup (fst (verify now api_key ip ua m)) = key_lookup m0
  /\ ((usage_exhausted info = false
       /\ snd (verify now api_key ip ua m) = Verified kid (mark_used now info)
       /\ keys (fst (verify now api_key ip ua m))
          = <[kid := mark_used now info]> (keys m0))
      \/ (usage_exhausted info = true
          /\ snd (verify now api_key ip ua m) = Rejected (UsageLimit kid)
          /\ keys (fst (verify now api_key ip ua m))
             = alter (set_status INACTIVE) kid (keys m0))).
Proof.
  intros Hres Hk. unfold verify_key.
  destruct (negb (nonempty api_key)); [discriminate |].
  destruct (negb (Py.startswith _ _)); [discriminate |].
  rewrite Hres. intros Hdec.
  destruct (check_key_cases now api_key ip ua kid m0) as [Hlk Heff]; [eauto |].
  pose proof (check_key_outcome_key now api_key ip ua kid m0) as Hkey.
  destruct (check now api_key ip ua kid m0) as [m' o]. simpl in *.
  split; [exact Hlk |].
  destruct Heff as [(kid0 & info0 & Hk0 & Hu0 & -> & Hks)
                   |[(kid0 & info0 & Hk0 & Hu0 & -> & Hks)
                   |(r & -> & Hnl & _)]].
  - rewrite (Hkey kid0 eq_refl) in *. rewrite Hk0 in Hk. injection Hk as ->.
    left. now repeat split.
  - rewrite (Hkey kid0 eq_refl) in *. rewrite Hk0 in Hk. injection Hk as ->.
    right. now repeat split.
  - destruct r; try discriminate. now destruct (Hnl key_id).
Qed.

Lemma usage_run (N : Z) api_key kid attempts :
  1 <= N ->
  nonempty kid = true ->
  forall m m0 info,
    resolve api_key m = (m0, Some kid) ->
    key_lookup m0 !! lookup_hash api_key = Some kid ->
    keys m0 !! kid = Some info ->
    max_uses info = Some N ->
    usage_count info <= N ->
    Z.of_nat (length attempts) = N - usage_count info + 1 ->
    forallb usage_decided
      (snd (verify_all cfg lookup_hash hash_key db_ok api_key attempts m)) = true ->
    exists infos info',
      snd (verify_all cfg lookup_hash hash_key db_ok api_key attempts m)
      = map (Verified kid) infos ++ [Rejected (UsageLimit kid)]
      /\ map usage_count infos
         = seqZ (usage_count info + 1) (N - usage_count info)
      /\ keys (fst (verify_all cfg lookup_hash hash_key db_ok api_key attempts m))
           !! kid = Some info'
      /\ status info' = INACTIVE
      /\ usage_count info' = N.
Proof.
  intros HN Hn.
  induction attempts as [|a rest IH];
    intros m m0 info Hres Hl Hk Hmax Hle Hlen Hall.
  { simpl in Hlen. lia. }
  simpl in Hall |- *.
  pose proof (verify_resolved_step (at_time a) api_key (client_ip a)
                (user_agent a) m m0 kid info Hres Hk) as Hstep.
  destruct (verify (at_time a) api_key (client_ip a) (user_agent a) m)
    as [m1 o].
  specialize (IH m1 m1).
  destruct (verify_all cfg lookup_hash hash_key db_ok api_key rest m1)
    as [m2 os] eqn:Hrest.
  simpl in *. apply andb_prop in Hall as [Ho Hos].
  destruct (Hstep Ho) as [Hlk [(Hu & -> & Hks) | (Hu & -> & Hks)]].
  - unfold usage_exhausted in Hu. rewrite Hmax in Hu.
    assert (Hlt : usage_count info < N).
    { destruct (Z.eqb_spec N 0); [lia |]. simpl in Hu.
      destruct (Z.leb_spec N (usage_count info)); [discriminate | lia]. }
    assert (Hk1 : keys m1 !! kid = Some (mark_used (at_time a) info))
      by now rewrite Hks, lookup_insert_eq.
    assert (Hl1 : key_lookup m1 !! lookup_hash api_key = Some kid)
      by now rewrite Hlk.
    destruct (IH (mark_used (at_time a) info))
      as (infos & info' & H1 & H2 & H3);
      try (simpl; lia); try reflexivity; try assumption.
    { apply resolve_cached; eauto. }
    exists (mark_used (at_time a) info :: infos), info'.
    simpl in *. rewrite H1, H2.
    split; [reflexivity |]. split; [| exact H3].
    rewrite (seqZ_cons (usage_count info + 1)) by lia.
    f_equal. f_equal; lia.
  - unfold usage_exhausted in Hu. rewrite Hmax in Hu.
    apply andb_prop in Hu as [_ Hu]. apply Z.leb_le in Hu.
    assert (Heq : usage_count info = N) by lia.
    assert (rest = []) as ->.
    { destruct rest; [reflexivity | simpl in Hlen; lia]. }
    simpl in Hrest. injection Hrest as <- <-.
    exists [], (set_status INACTIVE info).
    rewrite Hks, lookup_alter_eq, Hk, Heq. simpl.
    replace (N - N) with 0 by lia.
    repeat split; assumption.
Qed.

(** C3. A key with [max_uses = N >= 1] and [usage_count = 0], as the
    first attempt resolves it (from the lookup cache, or loaded from the
    database into the cache): of [N+1] successive attempts that pass all
    the other checks, the first [N] are verified, the i-th one returning
    the key with [usage_count = i], and the [N+1]-th is rejected for the
    usage limit, returns no key and leaves the key inactive with
    [usage_count = N]. *)
Theorem max_uses_enforced (N : Z) api_key kid info attempts m m0 :
  1 <= N ->
  nonempty kid = true ->
  resolve_key cfg lookup_hash hash_key api_key m = (m0, Some kid) ->
  key_lookup m0 !! lookup_hash api_key = Some kid ->
  keys m0 !! kid = Some info ->
  max_uses info = Some N ->
  usage_count info = 0 ->
  Z.of_nat (length attempts) = N + 1 ->
  forallb usage_decided
    (snd (verify_all cfg lookup_hash hash_key db_ok api_key attempts m)) = true ->
  exists infos info',
    snd (verify_all cfg lookup_hash hash_key db_ok api_key attempts m)
    = map (Verified kid) infos ++ [Rejected (UsageLimit kid)]
    /\ map usage_count infos = seqZ 1 N
    /\ Z.of_nat (length infos) = N
    /\ result (Rejected (UsageLimit kid)) = None
    /\ keys (fst (verify_all cfg lookup_hash hash_key db_ok api_key attempts m))
         !! kid = Some info'
    /\ status info' = INACTIVE
    /\ usage_count info' = N.
Proof.
  intros HN Hn Hres Hl Hk Hmax H0 Hlen Hall.
  destruct (usage_run N api_key kid attempts HN Hn m m0 info Hres Hl Hk Hmax)
    as (infos & info' & H1 & H2 & H3 & H4 & H5);
    try assumption; try lia.
  exists infos, info'. rewrite H0 in H2. simpl in H2.
  replace (N - 0) with N in H2 by lia.
  repeat split; try assumption.
  apply (f_equal (@length Z)) in H2.
  rewrite length_map, length_seqZ in H2. lia.
Qed.

End VerifyFacts.

(** *** A concrete run: the scenario of [test_key_usage_persistence.py] *)

Example verify_example_results :
  map advanced.result (snd VerifyExample.run0)
  = [ Some (advanced.mark_used (1 * advanced.SECOND) VerifyExample.info0);
      Some (advanced.mark_used (2 * advanced.SECOND)
              (advanced.mark_used (1 * advanced.SECOND) VerifyExample.info0));
      None ].
Proof. vm_compute. reflexivity. Qed.

Example verify_example_db :
  advanced.db (fst VerifyExample.run0)
  = Some [("k1"%string,
           advanced.set_status advanced.INACTIVE
             (advanced.mark_used (2 * advanced.SECOND)
               (advanced.mark_used (1 * advanced.SECOND) VerifyExample.info0)))].
Proof. vm_compute. reflexivity. Qed.

Lemma max_uses_enforced_witness :
  exists infos info',
    snd VerifyExample.run_cold
    = map (advanced.Verified "k1") infos
      ++ [advanced.Rejected (advanced.UsageLimit "k1")]
    /\ map advanced.usage_count infos = seqZ 1 2
    /\ Z.of_nat (length infos) = 2
    /\ advanced.result (advanced.Rejected (advanced.UsageLimit "k1")) = None
    /\ advanced.keys (fst VerifyExample.run_cold) !! "k1"%string = Some info'
    /\ advanced.status info' = advanced.INACTIVE
    /\ advanced.usage_count info' = 2.
Proof.
  apply (max_uses_enforced VerifyExample.cfg0 VerifyExample.lookup_hash0
           VerifyExample.hash_key0 VerifyExample.db_ok0 2 "sk-test" "k1" VerifyExample.info0
           VerifyExample.attempts0 VerifyExample.m_cold VerifyExample.m0).
  - lia.
  - reflexivity.
  - vm_compute. reflexivity.
  - vm_compute. reflexivity.
  - vm_compute. reflexivity.
  - reflexivity.
  - reflexivity.
  - reflexivity.
  - vm_compute. reflexivity.
Defined.

Example verify_rejects_foreign_ip :
  snd (FrameExample.verify0 (9 * advanced.SECOND) "sk-test"
         (Some "10.0.0.2"%string) None FrameExample.m_ip)
  = advanced.Rejected (advanced.IpNotAllowed "k1").
Proof. vm_compute. reflexivity. Qed.

Lemma rejected_call_keeps_usage_witness :
  advanced.db
    (fst (FrameExample.verify0 (9 * advanced.SECOND) "sk-test"
            (Some "10.0.0.2"%string) None FrameExample.m_ip))
  = advanced.db FrameExample.m_ip
  /\ exists info',
       advanced.keys
         (fst (FrameExample.verify0 (9 * advanced.SECOND) "sk-test"
                 (Some "10.0.0.2"%string) None FrameExample.m_ip))
         !! "k1"%string = Some info'
       /\ advanced.usage_count info' = 3
       /\ advanced.last_used info' = Some (5 * advanced.SECOND).
Proof.
  destruct (rejected_call_keeps_usage VerifyExample.cfg0
              VerifyExample.lookup_hash0 VerifyExample.hash_key0
              VerifyExample.db_ok0
              (9 * advanced.SECOND) "sk-test" (Some "10.0.0.2"%string) None
              FrameExample.m_ip) as (Hrej & _ & _).
  destruct (Hrej "k1"%string) as (Hdb & info' & Hk' & _ & Hc).
  { left. vm_compute. reflexivity. }
  split; [exact Hdb |].
  exists info'. split; [exact Hk' |].
  destruct Hc as (info & Hk & Hu & Hl & _).
  { split; [vm_compute; reflexivity |].
    split; [reflexivity |]. vm_compute. eauto. }
  vm_compute in Hk. injection Hk as <-. rewrite Hu, Hl.
  split; reflexivity.
Defined.

(** C4 as stated fails when the call resolves the key by the lazy load
    over a stale entry in memory: the call is rejected for the client IP,
    and the key in memory, used three times before the call, comes out of
    it with the count and the instant of the row of the table. *)
Lemma rejected_call_reloads_usage :
  snd (FrameExample.verify0 (9 * advanced.SECOND) "sk-test"
         (Some "10.0.0.2"%string) None FrameExample.m_stale)
  = advanced.Rejected (advanced.IpNotAllowed "k1")
  /\ (exists info,
        advanced.keys FrameExample.m_stale !! "k1"%string = Some info
        /\ advanced.usage_count info = 3
        /\ advanced.last_used info = Some (5 * advanced.SECOND))
  /\ (exists info',
        advanced.keys
          (fst (FrameExample.verify0 (9 * advanced.SECOND) "sk-test"
                  (Some "10.0.0.2"%string) None FrameExample.m_stale))
          !! "k1"%string = Some info'
        /\ advanced.usage_count info' = 7
        /\ advanced.last_used info' = Some (8 * advanced.SECOND)).
Proof.
  split; [vm_compute; reflexivity |]. split.
  - exists FrameExample.info_ip. split; [vm_compute; reflexivity |].
    split; reflexivity.
  - eexists. split; [vm_compute; reflexivity |]. split; reflexivity.
Qed.

Lemma falsy_max_uses_is_unlimited_witness :
  snd (FrameExample.verify0 (9 * advanced.SECOND) "sk-test" None None
         FrameExample.m_unlimited)
  <> advanced.Rejected (advanced.UsageLimit "k1")
  /\ exists info',
       advanced.keys
         (fst (FrameExample.verify0 (9 * advanced.SECOND) "sk-test" None None
                 FrameExample.m_unlimited)) !! "k1"%string = Some info'
       /\ advanced.max_uses info' = Some 0
       /\ advanced.status info' <> advanced.INACTIVE.
Proof.
  destruct (falsy_max_uses_is_unlimited VerifyExample.cfg0
              VerifyExample.lookup_hash0 VerifyExample.hash_key0 VerifyExample.db_ok0
              (9 * advanced.SECOND) "sk-test" None None
              FrameExample.m_unlimited) as (m0 & Hres & H).
  assert (Hk : advanced.keys m0 !! "k1"%string
               = Some FrameExample.info_unlimited).
  { destruct Hres as [-> | ->]; vm_compute; reflexivity. }
  destruct (H "k1"%string FrameExample.info_unlimited Hk) as [Hne Hex].
  { right. reflexivity. }
  split; [exact Hne |].
  destruct Hex as (info' & Hk' & Hmax & Hst).
  exists info'. split; [exact Hk' |]. split; [exact Hmax |].
  intros Hin. specialize (Hst Hin). discriminate Hst.
Defined.

Example verify_unlimited_key :
  advanced.usage_count
    <$> advanced.result
          (snd (FrameExample.verify0 (9 * advanced.SECOND) "sk-test" None None
                  FrameExample.m_unlimited))
  = Some 1000001.
Proof. vm_compute. reflexivity. Qed.

(** *** What a verified key guarantees *)

Section VerifyMore.
Import advanced.
Variable cfg : config.
Variable lookup_hash : string -> string.
Variable hash_key : string -> string -> string.
Variable db_ok : time -> bool.

Abbreviation verify := (verify_key cfg lookup_hash hash_key db_ok).
Abbreviation resolve := (resolve_key cfg lookup_hash hash_key).
Abbreviation check := (check_key cfg hash_key db_ok).

Lemma is_blocked_ext now ip m m' :
  failed_attempts m' = failed_attempts m ->
  _is_blocked cfg now ip m' = _is_blocked cfg now ip m.
Proof. intros H. unfold _is_blocked. now rewrite H. Qed.

Lemma check_rate_limit_failed now kid limit m :
  failed_attempts (fst (_check_rate_limit now kid limit m))
  = failed_attempts m.
Proof. unfold _check_rate_limit. now destruct (_ <=? _). Qed.

Lemma load_frame api_key m :
  failed_attempts (fst (_load_key_from_db_by_api_key cfg lookup_hash hash_key
                          api_key m)) = failed_attempts m
  /\ db (fst (_load_key_from_db_by_api_key cfg lookup_hash hash_key
                api_key m)) = db m
  /\ rate_limits (fst (_load_key_from_db_by_api_key cfg lookup_hash hash_key
                         api_key m)) = rate_limits m.
Proof.
  unfold _load_key_from_db_by_api_key.
  destruct (db m) as [rows|] eqn:Hdb;
    [destruct (scan_rows cfg hash_key api_key rows) as [[k i]|] |];
    simpl; rewrite ?Hdb; now repeat split.
Qed.

Lemma resolve_frame api_key m :
  failed_attempts (fst (resolve api_key m)) = failed_attempts m
  /\ db (fst (resolve api_key m)) = db m
  /\ rate_limits (fst (resolve api_key m)) = rate_limits m.
Proof.
  unfold resolve_key. destruct (_ && _); [now repeat split |].
  apply load_frame.
Qed.

(** The successful branch of [check_and_use], read backwards. *)
Lemma check_and_use_verified now ip ua kid info m m' k i :
  check_and_use cfg db_ok now ip ua kid info m = (m', Verified k i) ->
  k = kid /\ i = mark_used now info
  /\ (Py.truthy (allowed_ips info) = true -> truthy_opt ip = true ->
      default EmptyString ip ∈ allowed_ips info)
  /\ (Py.truthy (allowed_user_agents info) = true -> truthy_opt ua = true ->
      ua_match (allowed_user_agents info) (default EmptyString ua) = true)
  /\ snd (_check_rate_limit now kid (rate_limit_per_minute info) m) = true
  /\ _is_blocked cfg now ip m = false
  /\ keys m' !! kid = Some (mark_used now info)
  /\ failed_attempts m'
     = match ip with
       | Some a => delete a (failed_attempts m)
       | None => failed_attempts m
       end
  /\ db m'
     = match db m with
       | Some rows =>
           if db_ok now
           then Some (update_row kid
                        (set_usage (Some now) (usage_count info + 1)) rows)
           else Some rows
       | None => None
       end.
Proof.
  unfold check_and_use.
  destruct (Py.truthy (allowed_ips info) && truthy_opt ip
            && negb (mem (default EmptyString ip) (allowed_ips info)))
    eqn:Hip; [discriminate |].
  destruct (Py.truthy (allowed_user_agents info) && truthy_opt ua
            && negb (ua_match (allowed_user_agents info)
                              (default EmptyString ua)))
    eqn:Hua; [discriminate |].
  pose proof (check_rate_limit_failed now kid (rate_limit_per_minute info) m)
    as Hfa.
  pose proof (check_rate_limit_frame now kid (rate_limit_per_minute info) m)
    as (Hk & _ & Hdb).
  destruct (_check_rate_limit now kid (rate_limit_per_minute info) m)
    as [m1 ok] eqn:Hrl.
  simpl in Hfa, Hk, Hdb.
  destruct ok; simpl; [| discriminate].
  destruct (_is_blocked cfg now ip m1) eqn:Hb; [discriminate |].
  intros [= <- <- <-].
  split; [reflexivity |]. split; [reflexivity |].
  split.
  { intros H1 H2. rewrite H1, H2 in Hip. simpl in Hip.
    apply negb_false_iff in Hip. unfold mem in Hip.
    now apply bool_decide_eq_true in Hip. }
  split.
  { intros H1 H2. rewrite H1, H2 in Hua. simpl in Hua.
    now apply negb_false_iff in Hua. }
  split; [reflexivity |].
  split; [now rewrite <- (is_blocked_ext now ip m m1 Hfa) |].
  unfold update_key_usage_in_db, _clear_failed_attempts.
  destruct ip as [a|]; simpl; rewrite Hdb, ?lookup_insert_eq;
    destruct (db m) eqn:Hdbm; try destruct (db_ok now); simpl;
    rewrite ?lookup_insert_eq, ?Hfa, ?Hdb, ?Hdbm; now repeat split.
Qed.

Lemma check_key_verified now api_key ip ua kid m m' k i :
  check now api_key ip ua kid m = (m', Verified k i) ->
  exists info,
    keys m !! kid = Some info
    /\ key_hash info = hash_key api_key (salt info)
    /\ status info = ACTIVE
    /\ (forall e, expires_at info = Some e -> now <= e)
    /\ usage_exhausted info = false
    /\ check_and_use cfg db_ok now ip ua kid info m = (m', Verified k i).
Proof.
  unfold check_key.
  destruct (keys m !! kid) as [info|]; [| discriminate].
  destruct (compare_digest (key_hash info) (hash_key api_key (salt info)))
    eqn:Hh; simpl; [| discriminate].
  destruct (bool_decide (status info = ACTIVE)) eqn:Hs; simpl;
    [| discriminate].
  destruct (match expires_at info with Some e => e <? now | None => false end)
    eqn:He; [discriminate |].
  destruct (usage_exhausted info) eqn:Hu; [discriminate |].
  intros Hc. exists info. split; [reflexivity |].
  split; [now apply String.eqb_eq in Hh |].
  split; [now apply bool_decide_eq_true in Hs |].
  split; [| split; [exact Hu | exact Hc]].
  intros e Hexp. rewrite Hexp in He. now apply Z.ltb_ge in He.
Qed.

Lemma verify_verified now api_key ip ua m m' k i :
  verify now api_key ip ua m = (m', Verified k i) ->
  nonempty api_key = true
  /\ Py.startswith (list_ascii_of_string api_key)
                   (list_ascii_of_string "sk-") = true
  /\ exists m0, resolve api_key m = (m0, Some k)
                /\ check now api_key ip ua k m0 = (m', Verified k i).
Proof.
  unfold verify_key.
  destruct (nonempty api_key); cbn [negb]; [| discriminate].
  destruct (Py.startswith (list_ascii_of_string api_key)
                          (list_ascii_of_string "sk-")); cbn [negb];
    [| discriminate].
  destruct (resolve api_key m) as [m0 [kid|]]; [| discriminate].
  intros Hc. split; [reflexivity |]. split; [reflexivity |].
  destruct (check_key_verified _ _ _ _ _ _ _ _ _ Hc)
    as (info & _ & _ & _ & _ & _ & Hcu).
  apply check_and_use_verified in Hcu as [-> _].
  exists m0. now split.
Qed.


(** *** Rate limiting *)

Lemma recent_all (c : time) (l : list time) :
  Forall (fun t : time => c < t) l -> recent c l = l.
Proof.
  unfold recent. induction 1 as [|t l Ht _ IH]; [reflexivity |].
  rewrite filter_cons. destruct (decide (c < t)); [| contradiction].
  f_equal. exact IH.
Qed.

Lemma check_rate_limit_in_minute (ms t : time) kid limit m l :
  t - t mod MINUTE = ms ->
  ms < t ->
  default [] (rate_limits m !! kid) = l ->
  Forall (fun x : time => ms < x) l ->
  let '(m1, ok) := _check_rate_limit t kid limit m in
  ok = (Z.of_nat (length l) <? limit)
  /\ default [] (rate_limits m1 !! kid) = (if ok then l ++ [t] else l)
  /\ Forall (fun x : time => ms < x) (default [] (rate_limits m1 !! kid)).
Proof.
  intros Hms Ht Hl Hall. unfold _check_rate_limit.
  rewrite Hms, Hl, (recent_all ms l Hall).
  destruct (Z.leb_spec limit (Z.of_nat (length l))) as [Hle|Hgt]; simpl;
    rewrite lookup_insert_eq; simpl.
  - split; [symmetry; now apply Z.ltb_ge |]. now split.
  - split; [symmetry; now apply Z.ltb_lt |]. split; [reflexivity |].
    apply Forall_app. split; [exact Hall |]. now apply Forall_singleton.
Qed.

Lemma check_rate_limit_run (ms : time) kid limit times :
  Forall (fun t : time => t - t mod MINUTE = ms /\ ms < t) times ->
  forall m l,
    default [] (rate_limits m !! kid) = l ->
    Forall (fun x : time => ms < x) l ->
    snd (check_rate_limit_all kid limit times m)
    = map (fun i => Z.of_nat (length l + i) <? limit) (seq 0 (length times)).
Proof.
  induction 1 as [|t times [Hms Ht] _ IH]; intros m l Hl Hall;
    [reflexivity |].
  cbn [check_rate_limit_all length seq map].
  pose proof (check_rate_limit_in_minute ms t kid limit m l Hms Ht Hl Hall)
    as Hstep.
  destruct (_check_rate_limit t kid limit m) as [m1 ok].
  destruct Hstep as (Hok & Hl1 & Hall1).
  rewrite Hl1 in Hall1. specialize (IH m1 _ Hl1 Hall1).
  destruct (check_rate_limit_all kid limit times m1) as [m2 oks].
  simpl in IH |- *. rewrite IH, Hok, Nat.add_0_r. f_equal.
  rewrite <- seq_shift, map_map.
  apply map_ext_in. intros i _.
  destruct (Z.ltb_spec (Z.of_nat (length l)) limit) as [Hlt|Hge].
  - rewrite length_app. simpl. f_equal. lia.
  - destruct (Z.ltb_spec (Z.of_nat (length l + i)) limit); [lia |].
    destruct (Z.ltb_spec (Z.of_nat (length l + S i)) limit); [lia |].
    reflexivity.
Qed.

(** X4. For a key without recorded requests, of the checks made within
    one clock minute (strictly after its start) exactly the first
    [limit_per_minute] pass: the i-th check (from 0) passes exactly when
    [i < limit_per_minute]. *)
Theorem rate_limit_per_clock_minute (ms : time) kid limit times m :
  rate_limits m !! kid = None ->
  Forall (fun t : time => t - t mod MINUTE = ms /\ ms < t) times ->
  snd (check_rate_limit_all kid limit times m)
  = map (fun i => Z.of_nat i <? limit) (seq 0 (length times)).
Proof.
  intros Hnone Hall.
  rewrite (check_rate_limit_run ms kid limit times Hall m []);
    [reflexivity | now rewrite Hnone | constructor].
Qed.

(** *** Failed attempts and blocked addresses *)

Lemma recent_recent (c c' : time) (l : list time) :
  c <= c' -> recent c' (recent c l) = recent c' l.
Proof.
  intros Hle. unfold recent. induction l as [|t l IH]; [reflexivity |].
  rewrite (filter_cons _ t l).
  destruct (decide (c < t)) as [H1|H1].
  - rewrite !filter_cons. destruct (decide (c' < t)); [f_equal |]; exact IH.
  - etransitivity; [exact IH |]. rewrite filter_cons.
    destruct (decide (c' < t)); [lia | reflexivity].
Qed.

Lemma recent_length (c : time) (l : list time) :
  (length (recent c l) <= length l)%nat.
Proof. unfold recent. apply length_filter. Qed.

Lemma recent_snoc_in (c t : time) (l : list time) :
  c < t -> recent c (l ++ [t]) = recent c l ++ [t].
Proof.
  intros Hlt. unfold recent. rewrite filter_app, filter_cons.
  destruct (decide (c < t)); [reflexivity | contradiction].
Qed.

Lemma record_failed_attempt_nonempty now ip kid m :
  nonempty ip = true ->
  exists attempts : list time,
    attempts
    = recent (now - HOUR) (default [] (failed_attempts m !! ip) ++ [now])
    /\ failed_attempts (_record_failed_attempt cfg now (Some ip) kid m) !! ip
       = Some attempts
    /\ keys (_record_failed_attempt cfg now (Some ip) kid m)
       = (if max_failed_attempts cfg <=? Z.of_nat (length attempts)
          then alter (set_status COMPROMISED) kid (keys m) else keys m).
Proof.
  intros Hn. eexists. split; [reflexivity |].
  unfold _record_failed_attempt. rewrite Hn. simpl.
  rewrite lookup_insert_eq. split; reflexivity.
Qed.

Lemma record_failed_run (c : time) ip kid times :
  nonempty ip = true ->
  forall T, Forall (fun t : time => c < t /\ T - HOUR <= c /\ t <= T) times ->
  forall m,
    let m' := record_failed_attempts cfg times (Some ip) kid m in
    (length (recent c (default [] (failed_attempts m !! ip))) + length times
     <= length (recent c (default [] (failed_attempts m' !! ip))))%nat
    /\ (forall info, keys m !! kid = Some info ->
          exists info', keys m' !! kid = Some info'
            /\ (status info' = status info \/ status info' = COMPROMISED)
            /\ (times <> [] ->
                max_failed_attempts cfg
                <= Z.of_nat (length (recent c
                     (default [] (failed_attempts m !! ip))) + length times) ->
                status info' = COMPROMISED)).
Proof.
  intros Hn T. unfold record_failed_attempts.
  induction 1 as [|t times (Hct & HT & HtT) Hrest IH]; intros m.
  - simpl. split; [lia |]. intros info Hk. exists info.
    split; [exact Hk |]. split; [now left | congruence].
  - cbn [fold_left].
    destruct (record_failed_attempt_nonempty t ip kid m Hn)
      as (attempts & Hatt & Hfa & Hks).
    set (m1 := _record_failed_attempt cfg t (Some ip) kid m) in *.
    assert (Hcount : (length (recent c (default [] (failed_attempts m !! ip)))
                      + 1 <= length (recent c attempts))%nat).
    { rewrite Hatt. rewrite recent_recent by lia.
      rewrite recent_snoc_in by exact Hct. rewrite length_app. simpl.
      apply Nat.eq_le_incl. reflexivity. }
    destruct (IH m1) as [Hlen Hst].
    assert (Hd : default [] (failed_attempts m1 !! ip) = attempts)
      by now rewrite Hfa.
    rewrite Hd in Hlen, Hst.
    split; [cbn [length]; lia |].
    intros info Hk.
    assert (Hk1 : exists info1, keys m1 !! kid = Some info1
              /\ (status info1 = status info \/ status info1 = COMPROMISED)
              /\ (max_failed_attempts cfg <= Z.of_nat (length attempts) ->
                  status info1 = COMPROMISED)).
    { rewrite Hks.
      destruct (Z.leb_spec (max_failed_attempts cfg)
                  (Z.of_nat (length attempts))); cbv iota.
      - exists (set_status COMPROMISED info).
        rewrite lookup_alter_eq, Hk. simpl. repeat split; auto.
      - exists info. split; [exact Hk |]. split; [now left | lia]. }
    destruct Hk1 as (info1 & Hk1 & Hs1 & Hc1).
    destruct (Hst info1 Hk1) as (info' & Hk' & Hs' & Hc').
    exists info'. split; [exact Hk' |]. split.
    { destruct Hs' as [-> | ->]; [exact Hs1 | now right]. }
    intros _ Hmax. cbn [length] in Hmax.
    destruct times as [|t2 times].
    + simpl in Hk'. rewrite Hk1 in Hk'. injection Hk' as <-.
      cbn [length] in Hmax.
      apply Hc1. pose proof (recent_length c attempts). lia.
    + apply Hc'; [discriminate |]. cbn [length] in *. lia.
Qed.

(** X5. When a client address accumulates [max_failed_attempts] failed
    attempts on a key, all within one hour and within the block window
    before [now], the key is marked compromised and the address is
    blocked at [now]. *)
Theorem repeated_failures_block (now T : time) ip kid times m info :
  nonempty ip = true ->
  times <> [] ->
  max_failed_attempts cfg <= Z.of_nat (length times) ->
  Forall (fun t : time => T - HOUR < t /\ t <= T
                   /\ now - block_duration_minutes cfg * MINUTE < t) times ->
  keys m !! kid = Some info ->
  let m' := record_failed_attempts cfg times (Some ip) kid m in
  _is_blocked cfg now (Some ip) m' = true
  /\ exists info', keys m' !! kid = Some info' /\ status info' = COMPROMISED.
Proof.
  intros Hn Hne Hmax Hall Hk m'.
  set (c := Z.max (T - HOUR) (now - block_duration_minutes cfg * MINUTE)).
  assert (Hall' : Forall (fun t : time => c < t /\ T - HOUR <= c /\ t <= T) times).
  { eapply Forall_impl; [exact Hall |]. intros t (H1 & H2 & H3).
    unfold c. lia. }
  destruct (record_failed_run c ip kid times Hn T Hall' m) as [Hlen Hst].
  fold m' in Hlen, Hst.
  split.
  - unfold _is_blocked. rewrite Hn.
    destruct (failed_attempts m' !! ip) as [l|] eqn:Hl; simpl in Hlen.
    + apply Z.leb_le.
      rewrite <- (recent_recent (now - block_duration_minutes cfg * MINUTE) c l)
        in Hlen by (unfold c; lia).
      pose proof (recent_length c
        (recent (now - block_duration_minutes cfg * MINUTE) l)). lia.
    + destruct times; [contradiction | simpl in Hlen; lia].
  - destruct (Hst info Hk) as (info' & Hk' & _ & Hc).
    exists info'. split; [exact Hk' |]. apply Hc; [exact Hne | lia].
Qed.

(** X6. A call from a blocked address never returns a key, whatever key
    is presented. *)
Theorem blocked_address_never_verifies now api_key ip ua m :
  _is_blocked cfg now ip m = true ->
  result (snd (verify_key cfg lookup_hash hash_key db_ok now api_key ip ua m))
  = None.
Proof.
  intros Hb.
  destruct (verify_key cfg lookup_hash hash_key db_ok now api_key ip ua m)
    as [m' [k i|r]] eqn:Hv; [| reflexivity].
  apply verify_verified in Hv as (_ & _ & m0 & Hres & Hc).
  apply check_key_verified in Hc as (info0 & _ & _ & _ & _ & _ & Hcu).
  apply check_and_use_verified in Hcu as (_ & _ & _ & _ & _ & Hnb & _).
  pose proof (resolve_frame api_key m) as [Hfa _].
  rewrite Hres in Hfa. simpl in Hfa.
  rewrite (is_blocked_ext now ip m m0 Hfa) in Hnb. congruence.
Qed.

(** X7. A successful verification clears the failure record of the
    client address: the address is not blocked afterwards, at any
    time. *)
Theorem success_clears_failures now api_key a ua m m' kid info :
  verify_key cfg lookup_hash hash_key db_ok now api_key (Some a) ua m
  = (m', Verified kid info) ->
  failed_attempts m' !! a = None
  /\ forall t, _is_blocked cfg t (Some a) m' = false.
Proof.
  intros Hv. apply verify_verified in Hv as (_ & _ & m0 & Hres & Hc).
  apply check_key_verified in Hc as (info0 & _ & _ & _ & _ & _ & Hcu).
  apply check_and_use_verified in Hcu as (_ & _ & _ & _ & _ & _ & _ & Hfa & _).
  assert (Hnone : failed_attempts m' !! a = None)
    by (rewrite Hfa; apply lookup_delete_eq).
  split; [exact Hnone |].
  intros t. unfold _is_blocked. rewrite Hnone. now destruct (nonempty a).
Qed.

(** *** Keys that are not active *)

Lemma inactive_cached_step now api_key ip ua kid m info :
  key_lookup m !! lookup_hash api_key = Some kid ->
  nonempty kid = true ->
  keys m !! kid = Some info ->
  status info <> ACTIVE ->
  result (snd (verify now api_key ip ua m)) = None
  /\ key_lookup (fst (verify now api_key ip ua m)) = key_lookup m
  /\ db (fst (verify now api_key ip ua m)) = db m
  /\ exists info', keys (fst (verify now api_key ip ua m)) !! kid = Some info'
                   /\ status info' <> ACTIVE.
Proof.
  intros Hl Hn Hk Hs. unfold verify_key.
  destruct (negb (nonempty api_key)); [simpl; eauto 6 |].
  destruct (negb (Py.startswith _ _)); [simpl; eauto 6 |].
  rewrite (resolve_cached cfg lookup_hash hash_key api_key m kid Hl Hn)
    by eauto.
  unfold check_key. rewrite Hk.
  destruct (negb (compare_digest _ _)); simpl.
  - split; [reflexivity |].
    destruct (record_failed_lookup cfg now ip kid m) as [-> ->].
    split; [reflexivity |]. split; [reflexivity |].
    destruct (record_failed_keys cfg now ip kid m) as [-> | ->].
    + eauto.
    + exists (set_status COMPROMISED info).
      rewrite lookup_alter_eq, Hk. split; [reflexivity | discriminate].
  - rewrite bool_decide_eq_false_2 by exact Hs. simpl. eauto 6.
Qed.

Lemma inactive_cached_run api_key kid attempts :
  nonempty kid = true ->
  forall m info,
    key_lookup m !! lookup_hash api_key = Some kid ->
    keys m !! kid = Some info ->
    status info <> ACTIVE ->
    Forall (fun o => result o = None)
           (snd (verify_all cfg lookup_hash hash_key db_ok api_key attempts m))
    /\ db (fst (verify_all cfg lookup_hash hash_key db_ok api_key attempts m))
       = db m.
Proof.
  intros Hn. induction attempts as [|a rest IH]; intros m info Hl Hk Hs.
  - split; [constructor | reflexivity].
  - simpl.
    destruct (inactive_cached_step (at_time a) api_key (client_ip a)
                (user_agent a) kid m info Hl Hn Hk Hs)
      as (Hr & Hl1 & Hdb & info' & Hk' & Hs').
    destruct (verify (at_time a) api_key (client_ip a) (user_agent a) m)
      as [m1 o]. simpl in *.
    rewrite <- Hl1 in Hl.
    destruct (IH m1 info' Hl Hk' Hs') as [Hall Hdb'].
    destruct (verify_all cfg lookup_hash hash_key db_ok api_key rest m1)
      as [m2 os]. simpl in *.
    split; [now constructor | congruence].
Qed.

(** X8. A key that the lookup cache resolves to an entry that is not
    active (inactive, expired or compromised) is never returned: every
    attempt of any later sequence of attempts with it is rejected,
    whatever the clock, the address and the User-Agent. *)
Theorem inactive_key_never_verifies api_key kid attempts m info :
  nonempty kid = true ->
  key_lookup m !! lookup_hash api_key = Some kid ->
  keys m !! kid = Some info ->
  status info <> ACTIVE ->
  Forall (fun o => result o = None)
         (snd (verify_all cfg lookup_hash hash_key db_ok api_key attempts m)).
Proof.
  intros Hn Hl Hk Hs.
  now destruct (inactive_cached_run api_key kid attempts Hn m info Hl Hk Hs).
Qed.

(** X9. [revoke_key] on a known key returns [True] and makes the key
    inactive in the manager; the rows of [secure_keys] are not written;
    from then on every attempt with the key, resolved through the
    lookup cache, is rejected. *)
Theorem revoked_key_is_rejected api_key kid attempts m :
  nonempty kid = true ->
  key_lookup m !! lookup_hash api_key = Some kid ->
  is_Some (keys m !! kid) ->
  snd (revoke_key kid m) = true
  /\ db (fst (revoke_key kid m)) = db m
  /\ (exists info', keys (fst (revoke_key kid m)) !! kid = Some info'
                    /\ status info' = INACTIVE)
  /\ Forall (fun o => result o = None)
            (snd (verify_all cfg lookup_hash hash_key db_ok api_key attempts
                    (fst (revoke_key kid m)))).
Proof.
  intros Hn Hl [info Hk]. unfold revoke_key. rewrite Hk. simpl.
  assert (Hk' : alter (set_status INACTIVE) kid (keys m) !! kid
                = Some (set_status INACTIVE info))
    by now rewrite lookup_alter_eq, Hk.
  split; [reflexivity |]. split; [reflexivity |].
  split; [eauto |].
  apply (inactive_cached_run api_key kid attempts Hn _
           (set_status INACTIVE info)); [exact Hl | exact Hk' | discriminate].
Qed.

Lemma revoke_unknown_key kid m :
  keys m !! kid = None -> revoke_key kid m = (m, false).
Proof. intros Hk. unfold revoke_key. now rewrite Hk. Qed.

(** X10. The first attempt with a cached, active, hash-matching key made
    after its expiry is rejected and marks the key expired; the key is
    then rejected by every later attempt, even one stamped before the
    expiry. *)
Theorem expired_key_stays_rejected now api_key ip ua kid info e attempts m :
  nonempty api_key = true ->
  Py.startswith (list_ascii_of_string api_key) (list_ascii_of_string "sk-")
  = true ->
  nonempty kid = true ->
  key_lookup m !! lookup_hash api_key = Some kid ->
  keys m !! kid = Some info ->
  key_hash info = hash_key api_key (salt info) ->
  status info = ACTIVE ->
  expires_at info = Some e ->
  e < now ->
  let m' := fst (verify_key cfg lookup_hash hash_key db_ok now api_key ip ua m) in
  snd (verify_key cfg lookup_hash hash_key db_ok now api_key ip ua m)
  = Rejected (KeyExpired kid)
  /\ keys m' !! kid = Some (set_status EXPIRED info)
  /\ Forall (fun o => result o = None)
            (snd (verify_all cfg lookup_hash hash_key db_ok api_key attempts m')).
Proof.
  intros Hne Hsk Hn Hl Hk Hh Hs He Hlt.
  assert (Hv : verify_key cfg lookup_hash hash_key db_ok now api_key ip ua m
               = (mk_manager (alter (set_status EXPIRED) kid (keys m))
                             (key_lookup m) (failed_attempts m)
                             (rate_limits m) (db m),
                  Rejected (KeyExpired kid))).
  { unfold verify_key. rewrite Hne, Hsk. cbn [negb].
    rewrite (resolve_cached cfg lookup_hash hash_key api_key m kid Hl Hn)
      by eauto.
    unfold check_key. rewrite Hk, Hh. unfold compare_digest.
    rewrite String.eqb_refl. cbn [negb].
    rewrite bool_decide_eq_true_2 by exact Hs. cbn [negb].
    rewrite He. apply Z.ltb_lt in Hlt. now rewrite Hlt. }
  rewrite Hv. cbn [fst snd].
  assert (Hk' : alter (set_status EXPIRED) kid (keys m) !! kid
                = Some (set_status EXPIRED info))
    by now rewrite lookup_alter_eq, Hk.
  split; [reflexivity |]. split; [exact Hk' |].
  apply (inactive_cached_run api_key kid attempts Hn _
           (set_status EXPIRED info)); [exact Hl | exact Hk' | discriminate].
Qed.

(** *** Persistence of the usage *)

Lemma update_row_lookup kid f rows k r :
  (k, r) ∈ update_row kid f rows ->
  k = kid ->
  exists r0, (k, r0) ∈ rows /\ r = f r0.
Proof.
  unfold update_row. intros Hin ->.
  apply list_elem_of_fmap in Hin as ([k0 r0] & Heq & Hin0).
  simpl in Heq. destruct (String.eqb_spec k0 kid) as [->|Hne].
  - injection Heq as ->. eauto.
  - injection Heq as -> ->. contradiction.
Qed.

(** X11. After a successful verification the key is stored in the
    manager as returned.  With a database configured, when the [UPDATE]
    of [update_key_usage_in_db] goes through, the row of the key in
    [secure_keys] carries the [usage_count] and [last_used] of the key
    as returned; when it fails, the failure is swallowed: the key is
    returned all the same and the rows are left as they were before the
    call. *)
Theorem verified_usage_is_persisted now api_key ip ua m m' kid info :
  verify_key cfg lookup_hash hash_key db_ok now api_key ip ua m
  = (m', Verified kid info) ->
  keys m' !! kid = Some info
  /\ (db_ok now = true ->
      forall rows' r,
        db m' = Some rows' -> (kid, r) ∈ rows' ->
        usage_count r = usage_count info /\ last_used r = last_used info)
  /\ (db_ok now = false -> db m' = db m).
Proof.
  intros Hv.
  apply verify_verified in Hv as (_ & _ & m0 & Hres & Hc).
  assert (Hdb0 : db m0 = db m).
  { pose proof (resolve_frame api_key m) as (_ & H & _).
    now rewrite Hres in H. }
  apply check_key_verified in Hc as (info0 & _ & _ & _ & _ & _ & Hcu).
  apply check_and_use_verified in Hcu
    as (_ & -> & _ & _ & _ & _ & Hk & _ & Hd).
  rewrite Hdb0 in Hd.
  split; [exact Hk |]. split.
  - intros Hok rows' r Hdb Hin. rewrite Hd, Hok in Hdb.
    destruct (db m) as [rows|]; [| discriminate].
    injection Hdb as <-.
    destruct (update_row_lookup _ _ _ _ _ Hin eq_refl) as (r0 & _ & ->).
    split; reflexivity.
  - intros Hok. rewrite Hd, Hok. now destruct (db m).
Qed.

(** X24. [cleanup_expired_keys] marks expired exactly the keys whose
    expiry is before [now]: such a key is from then on rejected by every
    attempt that resolves to it through the lookup cache, the other keys
    are left as they are, and neither the lookup cache nor the rows of
    [secure_keys] are written. *)
Theorem cleanup_expires_keys now api_key kid info attempts m :
  keys m !! kid = Some info ->
  let m' := cleanup_expired_keys now m in
  (forall e, expires_at info = Some e -> e < now ->
     keys m' !! kid = Some (set_status EXPIRED info)
     /\ (nonempty kid = true ->
         key_lookup m !! lookup_hash api_key = Some kid ->
         Forall (fun o => result o = None)
           (snd (verify_all cfg lookup_hash hash_key db_ok api_key attempts m'))))
  /\ ((forall e, expires_at info = Some e -> now <= e) ->
      keys m' !! kid = Some info)
  /\ key_lookup m' = key_lookup m /\ db m' = db m.
Proof.
  intros Hk m'. unfold m', cleanup_expired_keys. cbn [keys key_lookup db].
  split; [| split; [| split; reflexivity]].
  - intros e He Hlt.
    assert (Hk' : ((fun info0 : SecureKeyInfo =>
                      match expires_at info0 with
                      | Some e0 =>
                          if e0 <? now then set_status EXPIRED info0
                          else info0
                      | None => info0
                      end) <$> keys m) !! kid
                  = Some (set_status EXPIRED info)).
    { rewrite lookup_fmap, Hk. cbn. rewrite He.
      apply Z.ltb_lt in Hlt. now rewrite Hlt. }
    split; [exact Hk' |]. intros Hn Hl.
    apply (inactive_cached_run api_key kid attempts Hn _
             (set_status EXPIRED info)); [exact Hl | exact Hk' | discriminate].
  - intros Hlater. rewrite lookup_fmap, Hk. cbn.
    destruct (expires_at info) as [e|] eqn:He; [| reflexivity].
    specialize (Hlater e eq_refl).
    destruct (Z.ltb_spec e now); [lia | reflexivity].
Qed.

End VerifyMore.

(** ** The thinking hint *)

Lemma find_from_found {A : Type} `{EqDecision A} (a p b : list A) (i : Z) :
  i <= Py.find_from (a ++ p ++ b) p i.
Proof.
  revert i. induction a as [|x a IH]; intros i.
  - cbn [app].
    assert (Hs : Py.startswith (p ++ b) p = true)
      by (apply startswith_spec; eauto).
    destruct (p ++ b); cbn [Py.find_from]; rewrite Hs; lia.
  - cbn [app Py.find_from].
    destruct (Py.startswith (x :: a ++ p ++ b) p); [lia |].
    specialize (IH (i + 1)). lia.
Qed.

(** X27. [_append_thinking_hint] is idempotent: its result always
    contains the hint, so that applying it again changes nothing; a
    non-empty text is kept as a prefix of the result, and a text that
    already contains the hint is returned as it is. *)
Theorem append_thinking_hint_idempotent (text : list N) :
  let r := converter._append_thinking_hint text in
  0 <= Py.find r converter.THINKING_HINT
  /\ converter._append_thinking_hint r = r
  /\ (text <> [] -> text `prefix_of` r)
  /\ (0 <= Py.find text converter.THINKING_HINT -> text <> [] -> r = text).
Proof.
  intros r.
  assert (Hin : 0 <= Py.find r converter.THINKING_HINT).
  { unfold r, converter._append_thinking_hint.
    destruct text as [|c text]; cbn [Py.truthy negb].
    - unfold Py.find.
      rewrite <- (app_nil_r converter.THINKING_HINT) at 1.
      apply (find_from_found [] converter.THINKING_HINT [] 0).
    - destruct (Z.leb_spec 0 (Py.find (c :: text) converter.THINKING_HINT))
        as [Hf|Hf]; [exact Hf |].
      unfold Py.find.
      rewrite <- (app_nil_r converter.THINKING_HINT) at 1.
      rewrite !app_assoc, <- (app_assoc _ converter.THINKING_HINT []).
      apply find_from_found. }
  split; [exact Hin |]. split; [| split].
  - unfold converter._append_thinking_hint at 1.
    destruct r as [|c r'] eqn:Hr; cbn [Py.truthy negb].
    + unfold r, converter._append_thinking_hint in Hr.
      destruct text as [|c text]; cbn [Py.truthy negb] in Hr;
        [exact Hr |].
      destruct (0 <=? Py.find (c :: text) converter.THINKING_HINT);
        discriminate.
    + apply Z.leb_le in Hin. now rewrite Hin.
  - intros Hne. unfold r, converter._append_thinking_hint.
    destruct text as [|c text]; [contradiction |]. cbn [Py.truthy negb].
    destruct (0 <=? Py.find (c :: text) converter.THINKING_HINT);
      [reflexivity | eexists; reflexivity].
  - intros Hf Hne. unfold r, converter._append_thinking_hint.
    destruct text as [|c text]; [contradiction |]. cbn [Py.truthy negb].
    apply Z.leb_le in Hf. now rewrite Hf.
Qed.

(** ** History alternation *)

Section AlternationFacts.
Import converter.
Context {Img Other Asst : Type}.
Variable merge_other : list Other -> Other.

Lemma alternation_loop_roles (history : list (@item Asst)) idx last :
  alternation_loop history idx last
  = role_violations (map role_of history) idx last.
Proof.
  revert idx last. induction history as [|it l IH]; intros idx last;
    [reflexivity |].
  simpl. now rewrite IH.
Qed.

Lemma post_process_loop_roles (history : list (@raw_item Img Other Asst)) :
  forall pending processed (h : list (@umsg Img Other)),
    let out := snd (post_process_loop merge_other history pending processed h) in
    map role_of out
    = map role_of processed ++ squash (Py.truthy pending) history
    /\ assistants out = assistants processed ++ raw_assistants history.
Proof.
  induction history as [|[u|a] rest IH]; intros pending processed h; simpl.
  - destruct pending as [|p pending]; simpl.
    + now rewrite !app_nil_r.
    + unfold assistants. rewrite map_app, omap_app. simpl.
      now rewrite !app_nil_r.
  - destruct (IH (pending ++ [u]) processed h) as [IH1 IH2].
    split; [| exact IH2].
    rewrite IH1. now destruct pending.
  - destruct pending as [|p pending]; simpl.
    + destruct (IH [] (processed ++ [AssistantItem a]) h) as [IH1 IH2].
      unfold assistants in *. rewrite IH1, IH2, map_app, omap_app. simpl.
      now rewrite <- !app_assoc.
    + destruct (IH [] (processed ++ [UserItem (length h); AssistantItem a])
                  (h ++ [merge_user_messages merge_other (p :: pending)]))
        as [IH1 IH2].
      unfold assistants in *. rewrite IH1, IH2, map_app, omap_app. simpl.
      now rewrite <- !app_assoc.
Qed.

Lemma squash_violations (history : list (@raw_item Img Other Asst)) :
  forall pending idx last,
    match last with
    | Some (user_role, _) => False
    | _ => True
    end ->
    Forall (fun v : violation => snd v = assistant_role)
      (role_violations (squash pending history) idx last)
    /\ (role_violations (squash pending history) idx last = []
        <-> adjacent_assistants
              (match last with
               | Some (assistant_role, _) => negb pending
               | _ => false
               end) history = false).
Proof.
  induction history as [|[u|a] rest IH]; intros pending idx last Hlast.
  - destruct pending; simpl.
    + destruct last as [[[|] i]|]; try contradiction; simpl;
        (split; [constructor | tauto]).
    + split; [constructor | tauto].
  - simpl. destruct (IH true idx last Hlast) as [IH1 IH2].
    split; [exact IH1 |]. rewrite IH2.
    destruct last as [[[|] i]|]; simpl; tauto.
  - destruct pending; simpl.
    + destruct (IH false (S (S idx)) (Some (assistant_role, S idx)) I)
        as [IH1 IH2].
      destruct last as [[[|] i]|]; try contradiction; simpl;
        (split; [exact IH1 | exact IH2]).
    + destruct (IH false (S idx) (Some (assistant_role, idx)) I)
        as [IH1 IH2].
      destruct last as [[[|] i]|]; try contradiction; simpl.
      * split; [constructor; [reflexivity | exact IH1] |].
        split; [discriminate | discriminate].
      * split; [exact IH1 | exact IH2].
Qed.

(** X20. In a post-processed history two user entries never follow each
    other: every violation that [_validate_history_alternation] finds in
    it is between two assistant entries, and it finds none (so that it
    neither raises nor warns) exactly when no two assistant entries
    follow each other in the incoming history.  The assistant entries
    are those of the incoming history, in order. *)
Theorem post_processed_history_alternates
  (history : list (@raw_item Img Other Asst)) (h : list (@umsg Img Other))
  (strict : bool) :
  let out := snd (_post_process_amazonq_history merge_other history h) in
  Forall (fun v : violation => snd v = assistant_role)
    (alternation_loop out 0 None)
  /\ (adjacent_assistants false history = false <->
      _validate_history_alternation strict out = (None, []))
  /\ assistants out = raw_assistants history.
Proof.
  intros out. unfold out, _post_process_amazonq_history.
  destruct (post_process_loop_roles history [] [] h) as [Hroles Hasst].
  simpl in Hroles, Hasst.
  destruct (squash_violations history false 0 None I) as [Hv Hnone].
  unfold _validate_history_alternation.
  rewrite alternation_loop_roles, Hroles.
  split; [exact Hv |]. split; [| exact Hasst].
  rewrite <- Hnone.
  destruct (role_violations (squash false history) 0 None) as [|v vs];
    destruct strict; simpl; split; intros; try reflexivity;
    try discriminate; congruence.
Qed.

End AlternationFacts.

(** ** Image pruning *)

Section PruneFacts.
Import converter.
Context {Img Other Asst : Type}.
Variable merge_other : list Other -> Other.
Variable preserve_current_context : Other -> Other -> Other.

Abbreviation umsg' := (@umsg Img Other).
Abbreviation item' := (@item Asst).
Abbreviation post_loop := (@post_process_loop Img Other Asst merge_other).
Abbreviation assemble' :=
  (@assemble Img Other Asst merge_other preserve_current_context).
Abbreviation convert' :=
  (@convert_history Img Other Asst merge_other preserve_current_context).

Lemma user_refs_app (l1 l2 : list item') :
  user_refs (l1 ++ l2) = user_refs l1 ++ user_refs l2.
Proof. unfold user_refs. apply omap_app. Qed.

(** Every dict allocated by the post-processing is referenced once, in
    allocation order, and the older dicts are left alone. *)
Lemma post_process_loop_refs (history : list (@raw_item Img Other Asst)) :
  forall pending processed (h : list umsg'),
    let out := post_loop history pending processed h in
    h `prefix_of` fst out
    /\ user_refs (snd out)
       = user_refs processed ++ seq (length h) (length (fst out) - length h).
Proof.
  induction history as [|[u|a] rest IH]; intros pending processed h; simpl.
  - destruct pending as [|p pending]; simpl.
    + split; [reflexivity |]. rewrite Nat.sub_diag. simpl.
      now rewrite app_nil_r.
    + split; [now apply prefix_app_r |].
      rewrite user_refs_app, length_app. simpl.
      replace (length h + 1 - length h)%nat with 1%nat by lia. reflexivity.
  - apply IH.
  - destruct pending as [|p pending]; simpl.
    + destruct (IH [] (processed ++ [AssistantItem a]) h) as [Hp Hr].
      split; [exact Hp |]. rewrite Hr, user_refs_app. simpl.
      now rewrite app_nil_r.
    + set (h' := h ++ [merge_user_messages merge_other (p :: pending)]).
      assert (Hh' : length h' = S (length h))
        by (unfold h'; rewrite length_app; simpl; lia).
      destruct (IH [] (processed ++ [UserItem (length h); AssistantItem a]) h')
        as [Hp Hr].
      pose proof (prefix_length _ _ Hp) as Hlen.
      set (out := post_loop rest []
                    (processed ++ [UserItem (length h); AssistantItem a]) h')
        in *.
      split.
      * etransitivity; [| exact Hp]. now apply prefix_app_r.
      * rewrite Hr, user_refs_app. simpl. rewrite <- app_assoc. simpl.
        f_equal. rewrite Hh'.
        replace (length (fst out) - length h)%nat
          with (S (length (fst out) - S (length h)))%nat by lia.
        reflexivity.
Qed.

Lemma user_refs_removelast (l : list item') r :
  last l = Some (UserItem r) ->
  user_refs l = user_refs (removelast l) ++ [r].
Proof.
  intros Hl. destruct (last_Some l (UserItem r)) as [[l' ->] _]; [exact Hl |].
  rewrite removelast_last, user_refs_app. reflexivity.
Qed.

Lemma merge_clean (messages : list umsg') :
  clean (merge_user_messages merge_other messages).
Proof.
  unfold clean, merge_user_messages. simpl.
  destruct (concat _); simpl; discriminate.
Qed.

Lemma post_process_loop_clean (history : list (@raw_item Img Other Asst)) :
  forall pending processed (h : list umsg'),
    Forall clean h ->
    Forall clean (fst (post_loop history pending processed h)).
Proof.
  induction history as [|[u|a] rest IH]; intros pending processed h Hh; simpl.
  - destruct pending; simpl; [exact Hh |].
    apply Forall_app. split; [exact Hh |].
    apply Forall_singleton, merge_clean.
  - now apply IH.
  - destruct pending; simpl; apply IH; [exact Hh |].
    apply Forall_app. split; [exact Hh |].
    apply Forall_singleton, merge_clean.
Qed.

Lemma assemble_users_nodup history images rest :
  let '(h, aq_history, cur) := assemble' history images rest in
  NoDup (user_refs aq_history ++ [cur]) /\ Forall clean h.
Proof.
  unfold assemble, alloc, _post_process_amazonq_history. simpl.
  set (user_input_msg := make_user_input_msg images rest).
  assert (Hc0 : Forall clean [user_input_msg]).
  { apply Forall_singleton. unfold clean, user_input_msg, make_user_input_msg.
    simpl. destruct images as [[|i l]|]; discriminate. }
  pose proof (post_process_loop_refs history [] [] [user_input_msg])
    as [Hp Hr].
  pose proof (post_process_loop_clean history [] [] [user_input_msg] Hc0)
    as Hc.
  destruct (post_loop history [] [] [user_input_msg]) as [h1 aq] eqn:Hpost.
  simpl in Hp, Hr, Hc.
  assert (Hcur : NoDup (user_refs aq ++ [0%nat]) /\ Forall clean h1).
  { split; [| exact Hc].
    rewrite Hr. apply NoDup_app. split; [apply NoDup_seq |].
    split; [| apply NoDup_singleton].
    intros x Hx Hx0. apply list_elem_of_In, in_seq in Hx.
    apply list_elem_of_singleton in Hx0. lia. }
  destruct (last aq) as [[prev|a]|] eqn:Hlast; try exact Hcur.
  destruct (h1 !! prev) as [prev_user|]; [| exact Hcur].
  match goal with
  | |- context [match ?x with Some _ => _ | None => _ end] =>
      destruct x as [current_user|]
  end; [| exact Hcur].
  rewrite (user_refs_removelast aq prev Hlast) in Hr.
  split.
  - apply NoDup_app. split; [| split; [| apply NoDup_singleton]].
    + assert (Hnd : NoDup (user_refs (removelast aq) ++ [prev]))
        by (rewrite Hr; apply NoDup_seq).
      now apply NoDup_app in Hnd as [Hnd _].
    + intros x Hx Hxl. apply list_elem_of_singleton in Hxl. subst x.
      assert (Hin : In (length h1) (seq 1 (length h1 - 1))).
      { rewrite <- Hr. apply in_or_app. left. now apply list_elem_of_In. }
      apply in_seq in Hin. lia.
  - apply Forall_app. split; [exact Hc |]. apply Forall_singleton.
    unfold clean, _merge_user_messages_preserve_current_context. simpl.
    destruct (concat _); simpl; discriminate.
Qed.

Lemma foldl_pop_lookup (P : list nat) :
  forall (h : list umsg') r,
    foldl pop_images h P !! r
    = if bool_decide (r ∈ P) then strip <$> h !! r else h !! r.
Proof.
  induction P as [|p P IH]; intros h r; simpl.
  - reflexivity.
  - rewrite IH. unfold pop_images.
    destruct (decide (p = r)) as [->|Hne].
    + rewrite list_lookup_alter_eq.
      rewrite (bool_decide_eq_true_2 (r ∈ r :: P)) by apply list_elem_of_here.
      destruct (bool_decide (r ∈ P)); destruct (h !! r); reflexivity.
    + rewrite list_lookup_alter_ne by exact Hne.
      destruct (bool_decide (r ∈ P)) eqn:HP.
      * apply bool_decide_eq_true in HP.
        rewrite bool_decide_eq_true_2; [reflexivity |].
        now apply list_elem_of_further.
      * apply bool_decide_eq_false in HP.
        rewrite bool_decide_eq_false_2; [reflexivity |].
        intros Hin. apply elem_of_cons in Hin as [Heq|Hin];
          [congruence | contradiction].
Qed.

Lemma filter_andb {T : Type} (f g : T -> bool) (l : list T) :
  List.filter (fun x => f x && g x) l = List.filter g (List.filter f l).
Proof.
  induction l as [|x l IH]; simpl; [reflexivity |].
  destruct (f x); simpl; [destruct (g x) |]; now rewrite IH.
Qed.

Lemma filter_not_in_take (k : nat) :
  forall T : list nat,
    NoDup T ->
    List.filter (fun r => negb (bool_decide (r ∈ take k T))) T = drop k T.
Proof.
  induction k as [|k IH]; intros T Hnd.
  - rewrite take_0, drop_0.
    rewrite (List.filter_ext _ (fun _ => true)).
    + induction T as [|t T IHT]; simpl; [reflexivity |].
      apply NoDup_cons in Hnd as [_ Hnd]. now rewrite IHT.
    + intros r. rewrite bool_decide_eq_false_2; [reflexivity |].
      apply not_elem_of_nil.
  - destruct T as [|t T]; [reflexivity |].
    apply NoDup_cons in Hnd as [Ht Hnd]. simpl.
    rewrite bool_decide_eq_true_2 by apply list_elem_of_here. simpl.
    rewrite <- (IH T Hnd). apply List.filter_ext_in.
    intros r Hr. f_equal. apply bool_decide_ext.
    rewrite elem_of_cons. split; [| tauto].
    intros [-> | H]; [| exact H].
    apply list_elem_of_In in Hr. contradiction.
Qed.

(** The pruning on a store in which the user messages of the history and
    the current message are distinct dicts. *)
Lemma prune_spec (history : list item') (cur : nat) (h : list umsg') :
  let users := user_refs history ++ [cur] in
  let T := List.filter (has_images_at h) users in
  let h' := _prune_images_to_last_two_user_messages history cur h in
  NoDup users ->
  List.filter (has_images_at h') users = drop (length T - 2) T
  /\ (forall r, r ∈ drop (length T - 2) T -> h' !! r = h !! r)
  /\ (forall r, r ∈ take (length T - 2) T ->
        exists u, h !! r = Some u /\ has_images u = true
                  /\ h' !! r = Some (strip u))
  /\ (forall r, r ∉ T -> h' !! r = h !! r).
Proof.
  intros users T h' Hnd.
  assert (HT : prune_targets history cur h = T).
  { unfold prune_targets, T, users. rewrite List.filter_app. simpl.
    now destruct (has_images_at h cur). }
  assert (HndT : NoDup T).
  { unfold T. apply NoDup_ListNoDup, List.NoDup_filter, NoDup_ListNoDup, Hnd. }
  assert (Hlook : forall r,
    h' !! r = if bool_decide (r ∈ take (length T - 2) T)
              then strip <$> h !! r else h !! r).
  { intros r. unfold h', _prune_images_to_last_two_user_messages.
    rewrite HT. apply foldl_pop_lookup. }
  assert (Hsplit : forall r, r ∈ drop (length T - 2) T ->
                             r ∉ take (length T - 2) T).
  { intros r Hd Ht. rewrite <- (take_drop (length T - 2) T) in HndT.
    apply NoDup_app in HndT as (_ & Hdisj & _). exact (Hdisj r Ht Hd). }
  split; [| split; [| split]].
  - rewrite <- (filter_not_in_take (length T - 2) T HndT).
    transitivity
      (List.filter
         (fun r => has_images_at h r
                   && negb (bool_decide (r ∈ take (length T - 2) T))) users);
      [| apply filter_andb].
    apply List.filter_ext.
    intros r. unfold has_images_at. rewrite Hlook.
    destruct (bool_decide (r ∈ take (length T - 2) T)); simpl.
    + destruct (h !! r); simpl; [| reflexivity]. now rewrite andb_false_r.
    + now rewrite andb_true_r.
  - intros r Hr. rewrite Hlook.
    rewrite bool_decide_eq_false_2; [reflexivity | now apply Hsplit].
  - intros r Hr. rewrite Hlook, bool_decide_eq_true_2 by exact Hr.
    assert (HrT : In r T).
    { apply list_elem_of_In. rewrite <- (take_drop (length T - 2) T).
      apply elem_of_app. now left. }
    apply List.filter_In in HrT as [_ Hhas]. unfold has_images_at in Hhas.
    destruct (h !! r) as [u|]; [| discriminate].
    exists u. now repeat split.
  - intros r Hr. rewrite Hlook.
    rewrite bool_decide_eq_false_2; [reflexivity |].
    intros Hin. apply Hr. rewrite <- (take_drop (length T - 2) T).
    apply elem_of_app. now left.
Qed.

(** *** Lists: the last two elements *)

Lemma last_two_suffix {A : Type} (l : list A) : last_two l `suffix_of` l.
Proof. apply suffix_drop. Qed.

Lemma last_two_length {A : Type} (l : list A) : (length (last_two l) <= 2)%nat.
Proof. unfold last_two. rewrite length_drop. lia. Qed.

Lemma last_two_short {A : Type} (l : list A) :
  (length l <= 2)%nat -> last_two l = l.
Proof.
  intros H. unfold last_two.
  replace (length l - 2)%nat with 0%nat by lia. apply drop_0.
Qed.

Lemma last_two_long {A : Type} (l : list A) :
  (2 <= length l)%nat -> length (last_two l) = 2%nat.
Proof. intros H. unfold last_two. rewrite length_drop. lia. Qed.

Lemma last_two_map {A B : Type} (f : A -> B) (l : list A) :
  last_two (map f l) = map f (last_two l).
Proof. unfold last_two. rewrite length_map. apply skipn_map. Qed.

Lemma concat_map_concat {A : Type} (l : list (list (list A))) :
  concat (map (@concat A) l) = concat (concat l).
Proof.
  induction l as [|x l IH]; simpl; [reflexivity |].
  now rewrite concat_app, IH.
Qed.

Lemma suffix_of_short_tail {A : Type} (t y z : list A) :
  t `suffix_of` y ++ z -> (length t <= length z)%nat -> t `suffix_of` z.
Proof.
  intros [k Hk] Hlen. symmetry in Hk.
  apply app_eq_inv in Hk as [(k0 & -> & Hz) | (k0 & Hy & ->)].
  - now exists k0.
  - rewrite length_app in Hlen.
    assert (k0 = []) as -> by (apply length_zero_iff_nil; lia).
    simpl in *. reflexivity.
Qed.

(** Cutting a segment down to a suffix of at least two elements keeps the
    last two elements of the whole. *)
Lemma suffix_cut {A : Type} (t a g g' b : list A) :
  (length t <= 2)%nat ->
  t `suffix_of` a ++ g ++ b ->
  g' `suffix_of` g ->
  g' = g \/ (2 <= length g')%nat ->
  t `suffix_of` a ++ g' ++ b.
Proof.
  intros Ht Hs [x ->] [Heq | Hlen].
  - assert (x = []) as ->.
    { apply (f_equal (@length A)) in Heq. rewrite length_app in Heq.
      apply length_zero_iff_nil. lia. }
    exact Hs.
  - apply suffix_app_r. rewrite <- app_assoc in Hs.
    rewrite (app_assoc a x) in Hs.
    apply suffix_of_short_tail in Hs; [exact Hs |].
    rewrite length_app. lia.
Qed.

Lemma concat_last_two_cut {A : Type} (parts : list (list A)) :
  Forall (fun p => p <> []) parts ->
  concat (last_two parts) `suffix_of` concat parts
  /\ (concat (last_two parts) = concat parts
      \/ (2 <= length (concat (last_two parts)))%nat).
Proof.
  intros Hne. split.
  - unfold last_two. exists (concat (take (length parts - 2) parts)).
    now rewrite <- concat_app, take_drop.
  - destruct (le_lt_dec (length parts) 2) as [Hle | Hgt].
    + left. now rewrite last_two_short.
    + right.
      assert (Hl : length (last_two parts) = 2%nat)
        by (apply last_two_long; lia).
      assert (Hf : Forall (fun p => p <> []) (last_two parts)).
      { unfold last_two. now apply Forall_drop. }
      destruct (last_two parts) as [|p [|q [|? ?]]]; try discriminate.
      apply Forall_cons_1 in Hf as [Hp Hf].
      apply Forall_cons_1 in Hf as [Hq _].
      simpl. rewrite !length_app.
      destruct p; [contradiction |]. destruct q; [contradiction |].
      simpl. lia.
Qed.

(** *** The image lists retained through the merges *)

Lemma retains_init (R : list (list Img)) : retains R R.
Proof.
  exists (map (fun l => [l]) R).
  assert (Hc : concat (map (fun l : list Img => [l]) R) = R).
  { induction R as [|l R IH]; simpl; [reflexivity | now rewrite IH]. }
  split; [| split; [| split]].
  - rewrite map_map. simpl. induction R as [|l R IH]; simpl;
      [reflexivity |].
    rewrite app_nil_r. f_equal. apply IH.
    simpl in Hc. now injection Hc.
  - apply Forall_forall. intros p Hp. apply list_elem_of_In in Hp.
    apply in_map_iff in Hp as (l & <- & _). discriminate.
  - rewrite Hc. reflexivity.
  - rewrite Hc. apply last_two_suffix.
Qed.

Lemma merge_lists_short (lists : list (list Img)) :
  (length lists <= 1)%nat -> merge_lists lists = lists.
Proof.
  destruct lists as [|l [|]]; simpl; intros H; try lia; [reflexivity |].
  cbn. now rewrite app_nil_r.
Qed.

(** A merge in the middle of the sequence keeps it. *)
Lemma retains_merge (R a g b : list (list Img)) :
  retains R (a ++ g ++ b) -> retains R (a ++ merge_lists g ++ b).
Proof.
  destruct g as [|g0 g]; [trivial |].
  intros (parts & Heq & Hne & Hsub & Hsuf).
  symmetry in Heq. apply map_eq_app in Heq as (pa & pgb & -> & Ha & Hgb).
  apply map_eq_app in Hgb as (pg & pb & -> & Hg & Hb).
  apply Forall_app in Hne as [Hna Hngb].
  apply Forall_app in Hngb as [Hng Hnb].
  destruct (concat_last_two_cut pg Hng) as [Hcut1 Hcut2].
  exists (pa ++ [concat (last_two pg)] ++ pb).
  split; [| split; [| split]].
  - rewrite !map_app, Ha, Hb. simpl. unfold merge_lists.
    rewrite <- Hg, last_two_map, concat_map_concat. reflexivity.
  - apply Forall_app. split; [exact Hna |].
    apply Forall_app. split; [| exact Hnb].
    apply Forall_singleton.
    assert (Hpg : pg <> []) by (intros ->; discriminate Hg).
    assert (Hl : last_two pg <> []).
    { unfold last_two. intros Hd.
      apply (f_equal (@length _)) in Hd. rewrite length_drop in Hd.
      destruct pg; [contradiction | simpl in Hd; lia]. }
    assert (Hf : Forall (fun p : list (list Img) => p <> []) (last_two pg)).
    { unfold last_two. now apply Forall_drop. }
    destruct (last_two pg) as [|p rest]; [contradiction |].
    apply Forall_cons_1 in Hf as [Hp _].
    simpl. destruct p; [contradiction | discriminate].
  - rewrite !concat_app in *. simpl. rewrite app_nil_r.
    etransitivity; [| exact Hsub].
    apply sublist_app; [reflexivity |].
    apply sublist_app; [| reflexivity].
    destruct Hcut1 as [k ->]. apply sublist_inserts_l. reflexivity.
  - rewrite !concat_app in *. simpl. rewrite app_nil_r.
    apply (suffix_cut _ _ (concat pg)); try assumption.
    apply last_two_length.
Qed.

(** What is left when all but the last two lists are dropped. *)
Lemma retains_last_two (R lists : list (list Img)) :
  retains R lists ->
  exists R', sublist R' R /\ last_two R `suffix_of` R'
             /\ concat (last_two lists) = concat R'.
Proof.
  intros (parts & -> & Hne & Hsub & Hsuf).
  destruct (concat_last_two_cut parts Hne) as [Hcut1 Hcut2].
  exists (concat (last_two parts)). split; [| split].
  - etransitivity; [| exact Hsub].
    destruct Hcut1 as [k ->]. apply sublist_inserts_l. reflexivity.
  - pose proof (suffix_cut (last_two R) [] (concat parts)
                  (concat (last_two parts)) []) as H.
    rewrite !app_nil_r in H. simpl in H.
    apply H; try assumption. apply last_two_length.
  - now rewrite last_two_map, concat_map_concat.
Qed.

(** *** The image lists carried by the user messages *)

Lemma carried_app (us vs : list umsg') :
  carried (us ++ vs) = carried us ++ carried vs.
Proof. unfold carried. apply omap_app. Qed.

Lemma carried_cons (u : umsg') (us : list umsg') :
  carried (u :: us) = carried [u] ++ carried us.
Proof. apply (carried_app [u] us). Qed.

Lemma carried_images (u v : umsg') :
  converter.images u = converter.images v -> carried [u] = carried [v].
Proof. intros H. unfold carried, has_images. simpl. now rewrite H. Qed.

Lemma carried_nonempty (us : list umsg') :
  Forall (fun l => l <> []) (carried us).
Proof.
  induction us as [|u us IH]; [constructor |].
  rewrite carried_cons. apply Forall_app. split; [| exact IH].
  unfold carried, has_images. simpl.
  destruct (converter.images u) as [[|i l]|]; simpl; repeat constructor.
  discriminate.
Qed.

Lemma concat_last_two_nonempty {A : Type} (parts : list (list A)) :
  parts <> [] -> Forall (fun p => p <> []) parts ->
  concat (last_two parts) <> [].
Proof.
  intros Hp Hne.
  assert (Hl : last_two parts <> []).
  { unfold last_two. intros Hd.
    apply (f_equal (@length _)) in Hd. rewrite length_drop in Hd.
    destruct parts; [contradiction | simpl in Hd; lia]. }
  assert (Hf : Forall (fun p : list A => p <> []) (last_two parts)).
  { unfold last_two. now apply Forall_drop. }
  destruct (last_two parts) as [|p rest]; [contradiction |].
  apply Forall_cons_1 in Hf as [Hp0 _].
  simpl. destruct p; [contradiction | discriminate].
Qed.

(** [merge_user_messages] on the image lists. *)
Lemma carried_merge (messages : list umsg') :
  carried [merge_user_messages merge_other messages]
  = merge_lists (carried messages).
Proof.
  unfold merge_user_messages.
  change (omap (fun m : umsg' => if has_images m then converter.images m
                                 else None) messages)
    with (carried messages).
  change (drop (length (carried messages) - 2) (carried messages))
    with (last_two (carried messages)).
  destruct (carried messages) as [|l0 ls] eqn:Hc; [reflexivity |].
  pose proof (carried_nonempty messages) as Hne. rewrite Hc in Hne.
  assert (Hk : concat (last_two (l0 :: ls)) <> [])
    by (apply concat_last_two_nonempty; [discriminate | exact Hne]).
  unfold merge_lists, carried, has_images. simpl.
  destruct (concat (last_two (l0 :: ls))); [contradiction | reflexivity].
Qed.

Abbreviation raw_item' := (@raw_item Img Other Asst).

Lemma users_of_app (l1 l2 : list raw_item') :
  users_of (l1 ++ l2) = users_of l1 ++ users_of l2.
Proof. unfold users_of. apply omap_app. Qed.

(** A property of the carried image lists that the merges keep holds
    after the second pass of [process_history]. *)
Lemma second_pass_closed (f : Other -> bool)
  (Q : list (list Img) -> Prop) :
  (forall a g b, Q (a ++ g ++ b) -> Q (a ++ merge_lists g ++ b)) ->
  forall (raw : list raw_item') pending (hist : list raw_item'),
    Q (carried (users_of hist) ++ carried pending ++ carried (users_of raw)) ->
    Q (carried (users_of (second_pass merge_other f raw pending hist))).
Proof.
  intros Hclosed. induction raw as [|[u|a] rest IH]; intros pending hist HQ.
  - simpl. destruct pending as [|p pending]; simpl in *.
    + now rewrite app_nil_r in HQ.
    + rewrite users_of_app, carried_app. simpl users_of.
      rewrite carried_merge.
      apply Hclosed in HQ. now rewrite !app_nil_r in *.
  - simpl second_pass. change (users_of (RUser u :: rest))
      with (u :: users_of rest) in HQ.
    rewrite carried_cons in HQ.
    destruct (f (other u)).
    + destruct pending as [|p pending]; simpl Py.truthy; cbv iota.
      * apply IH. rewrite users_of_app, carried_app. simpl users_of.
        simpl in HQ |- *. now rewrite <- app_assoc.
      * apply IH. rewrite users_of_app, carried_app.
        change (users_of [RUser (merge_user_messages merge_other
                                   (p :: pending)); RUser u])
          with ([merge_user_messages merge_other (p :: pending)] ++ [u]).
        rewrite carried_app, carried_merge.
        apply Hclosed in HQ. simpl (carried []).
        now rewrite <- !app_assoc.
    + apply IH. rewrite carried_app. now rewrite <- !app_assoc.
  - simpl second_pass. change (users_of (RAssistant a :: rest))
      with (users_of rest) in HQ.
    destruct pending as [|p pending]; simpl Py.truthy; cbv iota.
    + apply IH. rewrite users_of_app. simpl users_of.
      now rewrite app_nil_r.
    + apply IH. rewrite users_of_app, carried_app.
      change (users_of [RUser (merge_user_messages merge_other
                                 (p :: pending)); RAssistant a])
        with [merge_user_messages merge_other (p :: pending)].
      rewrite carried_merge. apply Hclosed in HQ. simpl (carried []).
      now rewrite <- !app_assoc.
Qed.

(** *** The post-processing, read off the store *)

Lemma deref_app (h : list umsg') (l1 l2 : list item') :
  deref h (l1 ++ l2) = deref h l1 ++ deref h l2.
Proof. unfold deref. apply omap_app. Qed.

Lemma deref_cons (h : list umsg') (it : item') (items : list item') :
  deref h (it :: items) = deref h [it] ++ deref h items.
Proof. apply (deref_app h [it] items). Qed.

Lemma deref_extend (h k : list umsg') (items : list item') :
  (forall r, r ∈ user_refs items -> (r < length h)%nat) ->
  deref (h ++ k) items = deref h items.
Proof.
  induction items as [|[r|a] items IH]; intros Hv; [reflexivity | |];
    rewrite (deref_cons (h ++ k)), (deref_cons h).
  - rewrite IH.
    + f_equal. unfold deref. simpl.
      rewrite lookup_app_l by (apply Hv; simpl; apply list_elem_of_here).
      reflexivity.
    + intros r' Hr'. apply Hv. simpl. now apply list_elem_of_further.
  - rewrite IH; [reflexivity |].
    intros r' Hr'. apply Hv. exact Hr'.
Qed.

Lemma users_of_deref (h : list umsg') (items : list item') :
  users_of (deref h items) = omap (fun r => h !! r) (user_refs items).
Proof.
  induction items as [|[r|a] items IH]; [reflexivity | |];
    rewrite deref_cons, users_of_app, IH.
  - change (user_refs (UserItem r :: items)) with (r :: user_refs items).
    unfold deref, users_of. simpl. now destruct (h !! r).
  - reflexivity.
Qed.

Lemma omap_lookup_extend (h k : list umsg') (refs : list nat) :
  (forall r, r ∈ refs -> (r < length h)%nat) ->
  omap (fun r => (h ++ k) !! r) refs = omap (fun r => h !! r) refs.
Proof.
  induction refs as [|r refs IH]; intros Hv; [reflexivity |].
  change (r :: refs) with ([r] ++ refs). rewrite !omap_app, IH.
  - f_equal. simpl.
    rewrite lookup_app_l by (apply Hv; apply list_elem_of_here).
    reflexivity.
  - intros r' Hr'. apply Hv. now apply list_elem_of_further.
Qed.

(** [_post_process_amazonq_history] builds in the store the history that
    the second pass of [process_history] builds when no message has tool
    results. *)
Lemma post_loop_deref (history : list raw_item') :
  forall pending processed (h : list umsg'),
    (forall r, r ∈ user_refs processed -> (r < length h)%nat) ->
    deref (fst (post_loop history pending processed h))
          (snd (post_loop history pending processed h))
    = second_pass merge_other (fun _ => false) history pending
        (deref h processed).
Proof.
  induction history as [|[u|a] rest IH]; intros pending processed h Hv.
  - simpl. destruct pending as [|p pending]; simpl; [reflexivity |].
    rewrite deref_app, deref_extend by exact Hv. f_equal.
    unfold deref. simpl. rewrite list_lookup_middle by reflexivity.
    reflexivity.
  - simpl. now apply IH.
  - simpl. destruct pending as [|p pending]; simpl.
    + rewrite IH.
      * now rewrite deref_app.
      * intros r Hr. apply Hv. rewrite user_refs_app in Hr. simpl in Hr.
        now rewrite app_nil_r in Hr.
    + rewrite IH.
      * rewrite deref_app, deref_extend by exact Hv. do 2 f_equal.
        unfold deref. simpl. rewrite list_lookup_middle by reflexivity.
        reflexivity.
      * intros r Hr. rewrite length_app. simpl.
        rewrite user_refs_app in Hr. apply elem_of_app in Hr as [Hr|Hr].
        -- apply Hv in Hr. lia.
        -- simpl in Hr. apply list_elem_of_singleton in Hr. lia.
Qed.

(** The user messages of the body before the pruning: those the
    post-processing leaves and the current message, the last two merged
    into one when the history ends with a user message. *)
Lemma assemble_view history images rest :
  let '(h, aq_history, cur) := assemble' history images rest in
  let raw := second_pass merge_other (fun _ => false) history [] [] in
  let cur0 := make_user_input_msg images rest in
  (forall r, r ∈ user_refs aq_history ++ [cur] -> is_Some (h !! r))
  /\ (outbound_users h aq_history cur = users_of raw ++ [cur0]
      \/ exists X prev m,
           users_of raw = X ++ [prev]
           /\ last raw = Some (RUser prev)
           /\ outbound_users h aq_history cur = X ++ [m]
           /\ converter.images m
              = converter.images
                  (merge_user_messages merge_other [prev; cur0])).
Proof.
  unfold assemble, alloc, _post_process_amazonq_history. simpl.
  set (cur0 := make_user_input_msg images rest).
  pose proof (post_process_loop_refs history [] [] [cur0]) as [Hp Hr].
  pose proof (post_loop_deref history [] [] [cur0]) as Hd.
  destruct (post_loop history [] [] [cur0]) as [h1 aq] eqn:Hpost.
  simpl in Hp, Hr, Hd.
  specialize (Hd ltac:(intros r Hr0; inversion Hr0)).
  change (deref [cur0] []) with (@nil raw_item') in Hd.
  destruct Hp as [k ->]. change ([cur0] ++ k) with (cur0 :: k) in *.
  simpl in Hr.
  assert (Hvalid : forall r, r ∈ user_refs aq ->
                     (r < length (cur0 :: k))%nat).
  { intros r Hin. rewrite Hr in Hin.
    apply list_elem_of_In, in_seq in Hin. simpl in *. lia. }
  assert (Hsome : forall (h : list umsg') r,
            (r < length h)%nat -> is_Some (h !! r))
    by (intros h r; apply lookup_lt_is_Some_2).
  assert (Hplain :
    (forall r, r ∈ user_refs aq ++ [0%nat] -> is_Some ((cur0 :: k) !! r))
    /\ (outbound_users (cur0 :: k) aq 0
          = users_of (second_pass merge_other (fun _ => false) history [] [])
            ++ [cur0]
        \/ exists X prev m,
             users_of (second_pass merge_other (fun _ => false) history [] [])
             = X ++ [prev]
             /\ last (second_pass merge_other (fun _ => false) history [] [])
                = Some (RUser prev)
             /\ outbound_users (cur0 :: k) aq 0 = X ++ [m]
             /\ converter.images m
                = converter.images
                    (merge_user_messages merge_other [prev; cur0]))).
  { split.
    - intros r Hin. apply elem_of_app in Hin as [Hin|Hin].
      + apply Hsome. now apply Hvalid.
      + apply list_elem_of_singleton in Hin. subst r. simpl. eauto.
    - left. unfold outbound_users. rewrite omap_app, <- users_of_deref, Hd.
      reflexivity. }
  destruct (last aq) as [[prev|a]|] eqn:Hlast; try exact Hplain.
  destruct ((cur0 :: k) !! prev) as [prev_user|] eqn:Hprev;
    [| exact Hplain].
  change ((cur0 :: k) !! 0%nat) with (Some cur0).
  cbv iota beta.
  destruct (last_Some aq (UserItem prev)) as [[aq' ->] _]; [exact Hlast |].
  rewrite removelast_last.
  rewrite user_refs_app in Hvalid.
  rewrite deref_app in Hd.
  assert (Hdp : deref (cur0 :: k) [UserItem prev : item']
                = [RUser prev_user : raw_item']).
  { unfold deref. simpl. now rewrite Hprev. }
  rewrite Hdp in Hd.
  split.
  - intros r Hin. apply Hsome. rewrite length_app. simpl.
    apply elem_of_app in Hin as [Hin|Hin].
    + assert (r < length (cur0 :: k))%nat
        by (apply Hvalid, elem_of_app; now left).
      simpl in *. lia.
    + apply list_elem_of_singleton in Hin. subst r. simpl. lia.
  - right.
    exists (users_of (deref (cur0 :: k) aq')), prev_user,
      (_merge_user_messages_preserve_current_context merge_other
         preserve_current_context prev_user cur0).
    split; [| split; [| split]].
    + now rewrite <- Hd, users_of_app.
    + rewrite <- Hd. apply last_snoc.
    + unfold outbound_users. rewrite omap_app.
      rewrite (omap_lookup_extend (cur0 :: k))
        by (intros r Hin; apply Hvalid, elem_of_app; now left).
      rewrite users_of_deref. f_equal. simpl.
      rewrite list_lookup_middle by reflexivity.
      reflexivity.
    + reflexivity.
Qed.

(** *** The pruning, on the image lists *)

Lemma carried_lookup (h : list umsg') (refs : list nat) :
  carried (omap (fun r => h !! r) refs)
  = omap (fun r => h !! r ≫= fun u =>
                    if has_images u then converter.images u else None) refs.
Proof.
  induction refs as [|r refs IH]; [reflexivity |].
  change (r :: refs) with ([r] ++ refs).
  rewrite !omap_app, carried_app, IH. f_equal.
  simpl. destruct (h !! r) as [u|]; [| reflexivity].
  simpl. unfold carried. simpl. now destruct (has_images u).
Qed.

Lemma omap_filter {A B : Type} (f : A -> option B) (p : A -> bool)
  (l : list A) :
  (forall x, p x = false -> f x = None) ->
  omap f l = omap f (List.filter p l).
Proof.
  intros H. induction l as [|x l IH]; [reflexivity |].
  change (x :: l) with ([x] ++ l).
  rewrite List.filter_app, !omap_app, <- IH. f_equal.
  simpl. destruct (p x) eqn:Hp; [reflexivity |].
  now rewrite (H x Hp).
Qed.

Lemma omap_none {A B : Type} (f : A -> option B) (l : list A) :
  (forall x, x ∈ l -> f x = None) -> omap f l = [].
Proof.
  induction l as [|x l IH]; intros H; [reflexivity |].
  change (x :: l) with ([x] ++ l). rewrite omap_app, IH.
  - simpl. now rewrite (H x) by apply list_elem_of_here.
  - intros y Hy. apply H. now apply list_elem_of_further.
Qed.

Lemma omap_ext_in {A B : Type} (f g : A -> option B) (l : list A) :
  (forall x, x ∈ l -> f x = g x) -> omap f l = omap g l.
Proof.
  induction l as [|x l IH]; intros H; [reflexivity |].
  change (x :: l) with ([x] ++ l). rewrite !omap_app, IH.
  - simpl. now rewrite (H x) by apply list_elem_of_here.
  - intros y Hy. apply H. now apply list_elem_of_further.
Qed.

Lemma omap_length_total {A B : Type} (f : A -> option B) (l : list A) :
  (forall x, x ∈ l -> is_Some (f x)) -> length (omap f l) = length l.
Proof.
  induction l as [|x l IH]; intros H; [reflexivity |].
  change (x :: l) with ([x] ++ l). rewrite omap_app, !length_app, IH.
  - simpl. destruct (H x) as [y ->]; [apply list_elem_of_here | reflexivity].
  - intros y Hy. apply H. now apply list_elem_of_further.
Qed.

(** The pruning keeps the last two of the image lists carried. *)
Lemma prune_carried (history : list item') (cur : nat) (h : list umsg') :
  NoDup (user_refs history ++ [cur]) ->
  emitted_images (_prune_images_to_last_two_user_messages history cur h)
                 history cur
  = last_two (carried (outbound_users h history cur)).
Proof.
  intros Hnd. unfold emitted_images, outbound_users.
  set (users := user_refs history ++ [cur]) in *.
  set (T := List.filter (has_images_at h) users).
  assert (HT : prune_targets history cur h = T).
  { unfold prune_targets, T, users. rewrite List.filter_app. simpl.
    now destruct (has_images_at h cur). }
  unfold _prune_images_to_last_two_user_messages. rewrite HT.
  set (k := (length T - 2)%nat).
  set (h' := foldl pop_images h (take k T)).
  set (c := fun (s : list umsg') (r : nat) =>
              s !! r ≫= fun u =>
                if has_images u then converter.images u else None).
  rewrite !carried_lookup. fold (c h) (c h').
  assert (Hc' : forall r,
            c h' r = if bool_decide (r ∈ take k T) then None else c h r).
  { intros r. unfold c, h'. rewrite foldl_pop_lookup.
    destruct (bool_decide (r ∈ take k T)); [| reflexivity].
    now destruct (h !! r). }
  assert (Hp : forall r, has_images_at h r = false -> c h r = None).
  { intros r. unfold has_images_at, c.
    destruct (h !! r) as [u|]; simpl; [| reflexivity]. now intros ->. }
  assert (Htot : forall r, r ∈ T -> is_Some (c h r)).
  { intros r Hr. apply list_elem_of_In, List.filter_In in Hr as [_ Hr].
    unfold has_images_at, c in *.
    destruct (h !! r) as [u|]; simpl; [| discriminate]. rewrite Hr.
    unfold has_images in Hr.
    destruct (converter.images u) as [[|i l]|]; try discriminate. eauto. }
  assert (HndT : NoDup T).
  { apply NoDup_ListNoDup, List.NoDup_filter, NoDup_ListNoDup, Hnd. }
  assert (Hin_take : forall r, r ∈ take k T -> r ∈ T).
  { intros r Hr. rewrite <- (take_drop k T). apply elem_of_app. now left. }
  assert (Hin_drop : forall r, r ∈ drop k T -> r ∈ T).
  { intros r Hr. rewrite <- (take_drop k T). apply elem_of_app. now right. }
  assert (Hl : omap (c h') users = omap (c h) (drop k T)).
  { rewrite (omap_filter _ (has_images_at h) users).
    2: { intros r Hr. rewrite Hc', (Hp r Hr). now destruct (bool_decide _). }
    fold T. rewrite <- (take_drop k T) at 1. rewrite omap_app.
    rewrite (omap_none (c h') (take k T)).
    2: { intros r Hr. rewrite Hc'. now rewrite bool_decide_eq_true_2. }
    simpl. apply omap_ext_in. intros r Hr. rewrite Hc'.
    rewrite bool_decide_eq_false_2; [reflexivity |].
    rewrite <- (take_drop k T) in HndT.
    apply NoDup_app in HndT as (_ & Hdisj & _).
    intros Hin. exact (Hdisj r Hin Hr). }
  assert (Hr : omap (c h) users
               = omap (c h) (take k T) ++ omap (c h) (drop k T)).
  { rewrite (omap_filter (c h) (has_images_at h) users) by exact Hp.
    fold T. now rewrite <- omap_app, take_drop. }
  rewrite Hl, Hr. unfold last_two. symmetry. apply drop_app_length'.
  rewrite length_app, !omap_length_total
    by (intros r Hin; apply Htot; auto).
  rewrite length_take, length_drop. unfold k. lia.
Qed.

(** *** Requests in which no two user messages follow each other *)

(** Each user message is then merged alone. *)
Lemma second_pass_alternating (f : Other -> bool) (raw : list raw_item') :
  forall prev,
    adjacent_user_entries prev raw = false ->
    (forall hist,
       second_pass merge_other f raw [] hist
       = hist ++ map (merged_alone merge_other f) raw)
    /\ (prev = true ->
        forall hist u,
          second_pass merge_other f raw [u] hist
          = hist ++ RUser (merge_user_messages merge_other [u])
                    :: map (merged_alone merge_other f) raw).
Proof.
  induction raw as [|[u0|a] rest IH]; intros prev Hadj.
  - split; [intros hist; simpl; now rewrite app_nil_r | reflexivity].
  - simpl in Hadj. apply orb_false_iff in Hadj as [-> Hadj].
    destruct (IH true Hadj) as [IH1 IH2].
    split; [| discriminate].
    intros hist. simpl. destruct (f (other u0)).
    + rewrite IH1, <- app_assoc. reflexivity.
    + rewrite (IH2 eq_refl). reflexivity.
  - simpl in Hadj. destruct (IH false Hadj) as [IH1 _].
    split.
    + intros hist. simpl. rewrite IH1, <- app_assoc. reflexivity.
    + intros _ hist u. simpl. rewrite IH1, <- app_assoc. reflexivity.
Qed.

Lemma adjacent_merged_alone (f : Other -> bool) (raw : list raw_item') :
  forall prev,
    adjacent_user_entries prev (map (merged_alone merge_other f) raw)
    = adjacent_user_entries prev raw.
Proof.
  induction raw as [|[u|a] rest IH]; intros prev; simpl;
    [reflexivity | now rewrite IH | apply IH].
Qed.

Lemma carried_merged_alone (f : Other -> bool) (raw : list raw_item') :
  carried (users_of (map (merged_alone merge_other f) raw))
  = carried (users_of raw).
Proof.
  induction raw as [|[u|a] rest IH]; [reflexivity | | exact IH].
  change (carried ((if f (other u) then u
                    else merge_user_messages merge_other [u])
                   :: users_of (map (merged_alone merge_other f) rest))
          = carried (u :: users_of rest)).
  rewrite carried_cons, (carried_cons u), IH. f_equal.
  destruct (f (other u)); [reflexivity |].
  rewrite carried_merge. apply merge_lists_short.
  unfold carried. simpl. destruct (has_images u); simpl; [| lia].
  destruct (converter.images u); simpl; lia.
Qed.

Lemma last_merged_alone (f : Other -> bool) (raw : list raw_item') u :
  last (map (merged_alone merge_other f) raw) = Some (RUser u) ->
  exists u0, last raw = Some (RUser u0).
Proof.
  intros Hl. apply last_Some in Hl as [l' Hl].
  apply map_eq_app in Hl as (l1 & l2 & -> & _ & Hl2).
  destruct l2 as [|y [|? ?]]; try discriminate.
  injection Hl2 as Hy. rewrite last_snoc.
  destruct y as [u0|a]; [eauto | discriminate].
Qed.

Lemma adjacent_snoc_user (raw : list raw_item') u :
  forall prev,
    adjacent_user_entries prev (raw ++ [RUser u]) = false ->
    forall v, last raw <> Some (RUser v).
Proof.
  induction raw as [|x rest IH]; intros prev Hadj v; [discriminate |].
  destruct rest as [|y rest'].
  - destruct x as [w|a]; [| discriminate].
    simpl in Hadj. now rewrite orb_true_r in Hadj.
  - change (last (x :: y :: rest')) with (last (y :: rest')).
    destruct x as [w|a]; simpl in Hadj.
    + apply orb_false_iff in Hadj as [_ Hadj]. exact (IH true Hadj v).
    + exact (IH false Hadj v).
Qed.

Abbreviation message' := (@claude_message Img Other Asst).

Lemma first_pass_app (l1 l2 : list message') :
  first_pass (l1 ++ l2) = first_pass l1 ++ first_pass l2.
Proof. unfold first_pass. apply omap_app. Qed.

Lemma adjacent_first_pass (messages : list message') :
  forall prev,
    adjacent_user_entries prev (first_pass messages)
    = adjacent_users prev messages.
Proof.
  induction messages as [|[i r|a|] rest IH]; intros prev;
    [reflexivity | | |];
    change (first_pass (?x :: rest)) with (first_pass [x] ++ first_pass rest);
    simpl; now rewrite ?IH.
Qed.

Lemma adjacent_users_app_l (l1 l2 : list message') :
  forall prev,
    adjacent_users prev (l1 ++ l2) = false -> adjacent_users prev l1 = false.
Proof.
  induction l1 as [|[i r|a|] rest IH]; intros prev; simpl;
    [reflexivity | | apply IH | apply IH].
  intros H. apply orb_false_iff in H as [-> H]. simpl. now apply IH.
Qed.

Lemma request_images_app (l1 l2 : list message') :
  request_images (l1 ++ l2) = request_images l1 ++ request_images l2.
Proof. unfold request_images. apply omap_app. Qed.

Lemma request_images_first_pass (messages : list message') :
  request_images messages = carried (users_of (first_pass messages)).
Proof.
  induction messages as [|x rest IH]; [reflexivity |].
  change (x :: rest) with ([x] ++ rest).
  rewrite request_images_app, first_pass_app, users_of_app, carried_app, IH.
  f_equal. destruct x as [[[|i l]|] r|a|]; reflexivity.
Qed.

Lemma carried_length (h : list umsg') (refs : list nat) :
  length (carried (omap (fun r => h !! r) refs))
  = length (List.filter (has_images_at h) refs).
Proof.
  induction refs as [|r refs IH]; [reflexivity |].
  change (r :: refs) with ([r] ++ refs).
  rewrite omap_app, carried_app, List.filter_app, !length_app, IH.
  f_equal. simpl. unfold has_images_at.
  destruct (h !! r) as [u|]; [| reflexivity].
  unfold carried, has_images. simpl.
  destruct (converter.images u) as [[|i l]|]; reflexivity.
Qed.

(** *** The request *)

Variable has_tool_results : Other -> bool.

Abbreviation convert_request :=
  (@convert_claude_to_amazonq_request Img Other Asst merge_other
     preserve_current_context has_tool_results).

Lemma history_msgs_removelast (messages : list message') :
  (if (1 <? length messages)%nat then removelast messages else [])
  = removelast messages.
Proof. destruct messages as [|x [|y l]]; reflexivity. Qed.

(** The image lists of the request are those of the first pass over the
    history, and that of the current message. *)
Lemma request_images_split (messages : list message') (rest : Other) :
  request_images messages
  = carried (users_of (first_pass (removelast messages)))
    ++ carried [make_user_input_msg
                  match last messages with
                  | Some (UserMessage images _) => images
                  | _ => None
                  end rest].
Proof.
  destruct (decide (messages = [])) as [->|Hne]; [reflexivity |].
  destruct (exists_last Hne) as (l' & a & ->).
  rewrite removelast_last, last_snoc, request_images_app,
    request_images_first_pass.
  f_equal. destruct a as [[[|i l]|] r|a|]; reflexivity.
Qed.

(** C6 (as amended).  In the body made from a request, the user messages
    of the history and the current message are distinct dicts of which at
    most two carry an [images] key, none of them with an empty list.  The
    images that the body carries are images of user messages of the
    request, in the order of the request, and the images of the last two
    user messages of the request that have images are the last ones of
    the body.  When no two user messages of the request follow each
    other, the body carries the image lists of these two messages and
    nothing else. *)
Theorem images_pruned_to_last_two (messages : list message') (rest : Other) :
  let '(h, aq_history, cur) := convert_request messages rest in
  let users := user_refs aq_history ++ [cur] in
  let E := emitted_images h aq_history cur in
  let R := request_images messages in
  NoDup users
  /\ (forall r, r ∈ users ->
        exists u, h !! r = Some u
                  /\ (has_images u = false -> converter.images u = None))
  /\ (length (List.filter (has_images_at h) users) <= 2)%nat
  /\ length E = length (List.filter (has_images_at h) users)
  /\ (exists R', sublist R' R /\ last_two R `suffix_of` R'
                 /\ concat E = concat R')
  /\ (adjacent_users false messages = false -> E = last_two R).
Proof.
  unfold convert_claude_to_amazonq_request, convert_history, process_history.
  rewrite history_msgs_removelast.
  pose proof (request_images_split messages rest) as HR.
  set (images := match last messages with
                 | Some (UserMessage images _) => images
                 | _ => None
                 end) in *.
  set (raw1 := first_pass (removelast messages)) in *.
  set (raw2 := second_pass merge_other has_tool_results raw1 [] []).
  pose proof (assemble_users_nodup raw2 images rest) as Hnd.
  pose proof (assemble_view raw2 images rest) as Hview.
  destruct (assemble' raw2 images rest) as [[h aq] cur].
  destruct Hnd as [Hnd Hclean]. destruct Hview as [Hvalid Hview].
  set (raw3 := second_pass merge_other (fun _ => false) raw2 [] []) in *.
  set (cur0 := make_user_input_msg images rest) in *.
  pose proof (prune_carried aq cur h Hnd) as HE.
  destruct (prune_spec aq cur h Hnd) as (H1 & _).
  set (R := request_images messages) in *.
  (* the image lists carried before the pruning come from [R] *)
  assert (Hcl : forall a g b : list (list Img),
            retains R ((a ++ g ++ b) ++ carried [cur0]) ->
            retains R ((a ++ merge_lists g ++ b) ++ carried [cur0])).
  { intros a g b. rewrite <- !app_assoc. apply retains_merge. }
  assert (J2 : retains R (carried (users_of raw2) ++ carried [cur0])).
  { apply (second_pass_closed has_tool_results
             (fun l => retains R (l ++ carried [cur0])) Hcl raw1 [] []).
    change (retains R (carried (users_of raw1) ++ carried [cur0])).
    rewrite <- HR. apply retains_init. }
  assert (J3 : retains R (carried (users_of raw3) ++ carried [cur0])).
  { apply (second_pass_closed (fun _ => false)
             (fun l => retains R (l ++ carried [cur0])) Hcl raw2 [] []).
    exact J2. }
  assert (Hret : retains R (carried (outbound_users h aq cur))).
  { destruct Hview as [-> | (X & prev & m & HX & _ & -> & Hm)].
    - now rewrite carried_app.
    - rewrite carried_app, (carried_images _ _ Hm), carried_merge.
      pose proof (retains_merge R (carried X) (carried [prev; cur0]) [])
        as Hmg.
      rewrite !app_nil_r in Hmg. apply Hmg.
      rewrite HX, carried_app, <- app_assoc in J3.
      now rewrite <- (carried_cons prev [cur0]) in J3. }
  cbv zeta. split; [exact Hnd |]. split; [| split; [| split; [| split]]].
  - intros r Hr. unfold _prune_images_to_last_two_user_messages.
    rewrite foldl_pop_lookup.
    destruct (Hvalid r Hr) as [u0 Hu0]. rewrite Hu0.
    destruct (bool_decide _); simpl.
    + eexists. split; [reflexivity | reflexivity].
    + exists u0. split; [reflexivity |].
      pose proof (proj1 (Forall_lookup clean h) Hclean r u0 Hu0) as Hc.
      unfold clean, has_images in *.
      destruct (converter.images u0) as [[|i l]|];
        [contradiction | discriminate | reflexivity].
  - rewrite H1, length_drop. lia.
  - unfold emitted_images, outbound_users. apply carried_length.
  - rewrite HE. now apply retains_last_two.
  - intros Hadj. rewrite HE. f_equal.
    assert (Hadj1 : adjacent_user_entries false raw1 = false).
    { unfold raw1. rewrite adjacent_first_pass.
      destruct (decide (messages = [])) as [->|Hne]; [reflexivity |].
      destruct (exists_last Hne) as (l' & a & Heq). rewrite Heq in Hadj |- *.
      rewrite removelast_last. now apply adjacent_users_app_l in Hadj. }
    assert (Hraw2 : raw2 = map (merged_alone merge_other has_tool_results)
                               raw1).
    { exact (proj1 (second_pass_alternating has_tool_results raw1 false
                      Hadj1) []). }
    assert (Hadj2 : adjacent_user_entries false raw2 = false)
      by (rewrite Hraw2, adjacent_merged_alone; exact Hadj1).
    assert (Hraw3 : raw3 = map (merged_alone merge_other (fun _ => false))
                               raw2).
    { exact (proj1 (second_pass_alternating (fun _ => false) raw2 false
                      Hadj2) []). }
    assert (Hc3 : carried (users_of raw3) = carried (users_of raw1)).
    { now rewrite Hraw3, carried_merged_alone, Hraw2, carried_merged_alone. }
    destruct Hview as [-> | (X & prev & m & HX & Hlast & -> & Hm)].
    + now rewrite carried_app, Hc3.
    + assert (Himg : carried [cur0] = []).
      { rewrite Hraw3 in Hlast.
        apply last_merged_alone in Hlast as [p2 Hlast].
        rewrite Hraw2 in Hlast.
        apply last_merged_alone in Hlast as [p1 Hlast].
        unfold cur0, images.
        destruct (last messages) as [[i r|a|]|] eqn:Hlm; try reflexivity.
        exfalso. apply last_Some in Hlm as [l' Hlm].
        rewrite Hlm in Hadj. unfold raw1 in Hlast.
        rewrite Hlm, removelast_last in Hlast.
        rewrite <- adjacent_first_pass, first_pass_app in Hadj.
        exact (adjacent_snoc_user _ _ _ Hadj p1 Hlast). }
      rewrite carried_app, (carried_images _ _ Hm), carried_merge.
      rewrite (carried_cons prev), Himg, app_nil_r.
      rewrite merge_lists_short.
      * rewrite <- carried_app, <- HX, Hc3, HR, Himg. now rewrite app_nil_r.
      * unfold carried. simpl. destruct (has_images prev); simpl; [| lia].
        destruct (converter.images prev); simpl; lia.
Qed.

End PruneFacts.

Example prune_test_request :
  PruneExample.convert0 PruneExample.history3 (Some ["b64_3"%string]) "u3"
  = ([ converter.mk_umsg (Some ["b64_3"%string]) "u3"%string;
       converter.mk_umsg None "u1"%string;
       converter.mk_umsg (Some ["b64_2"%string]) "u2"%string ],
     [ converter.UserItem 1; converter.AssistantItem "a1"%string;
       converter.UserItem 2; converter.AssistantItem "a2"%string ],
     0%nat).
Proof. vm_compute. reflexivity. Qed.

Example prune_five_turns :
  map converter.images
      (fst (fst (PruneExample.convert0 PruneExample.history5
                   (Some ["b64_5"%string]) "u5")))
  = [ Some ["b64_5"%string]; None; None; None; Some ["b64_4"%string] ].
Proof. vm_compute. reflexivity. Qed.

(** The request of [tests/test_claude_images_prune.py]: the first user
    message of the history has lost its image, the second one and the
    current message keep theirs. *)
Example prune_test_from_request :
  PruneExample.convert_request0 PruneExample.request3 "u3"
  = ([ converter.mk_umsg (Some ["b64_3"%string]) "u3"%string;
       converter.mk_umsg None "u1"%string;
       converter.mk_umsg (Some ["b64_2"%string]) "u2"%string ],
     [ converter.UserItem 1; converter.AssistantItem "a1"%string;
       converter.UserItem 2; converter.AssistantItem "a2"%string ],
     0%nat).
Proof. vm_compute. reflexivity. Qed.

Lemma images_pruned_to_last_two_witness :
  PruneExample.emitted0
    (PruneExample.convert_request0 PruneExample.request5 "u5")
  = [ ["b64_4"%string]; ["b64_5"%string] ].
Proof.
  pose proof (images_pruned_to_last_two PruneExample.merge_other0
                PruneExample.preserve0 PruneExample.has_tool_results0
                PruneExample.request5 "u5"%string) as H.
  unfold PruneExample.emitted0, PruneExample.convert_request0.
  destruct (converter.convert_claude_to_amazonq_request
              PruneExample.merge_other0 PruneExample.preserve0
              PruneExample.has_tool_results0 PruneExample.request5 "u5")
    as [[h aq_history] cur].
  destruct H as (_ & _ & _ & _ & _ & Halt).
  simpl fst. simpl snd. rewrite Halt; reflexivity.
Defined.

(** C6 as stated fails when user messages of the request follow each
    other: they are merged, and the body made from four user messages
    with one image each, the last three in a row, carries the four
    images, on one user message of the history and on the current
    message. *)
Lemma images_of_merged_turns_are_kept :
  request_images PruneExample.request_adjacent
  = [ ["b64_1"%string]; ["b64_2"%string]; ["b64_3"%string];
      ["b64_4"%string] ]
  /\ PruneExample.emitted0
       (PruneExample.convert_request0 PruneExample.request_adjacent "u4")
     = [ ["b64_1"%string]; ["b64_2"%string; "b64_3"%string; "b64_4"%string] ]
  /\ PruneExample.emitted0
       (PruneExample.convert_request0 PruneExample.request_adjacent "u4")
     <> last_two (request_images PruneExample.request_adjacent).
Proof.
  split; [vm_compute; reflexivity |].
  split; [vm_compute; reflexivity |].
  vm_compute. discriminate.
Qed.

(** ** SHA-256 test vectors *)

Example sha256_abc :
  hashlib.hexdigest
    (hashlib.sha256 (Unicode.utf8_encode (Unicode.of_string "abc")))
  = Unicode.of_string
      "ba7816bf8f01cfea414140de5dae2223b00361a396177a9cb410ff61f20015ad".
Proof. vm_compute. reflexivity. Qed.

Example sha256_empty :
  hashlib.hexdigest (hashlib.sha256 [])
  = Unicode.of_string
      "e3b0c44298fc1c149afbf4c8996fb92427ae41e4649b934ca495991b7852b855".
Proof. vm_compute. reflexivity. Qed.

Example sha256_two_blocks :
  hashlib.hexdigest
    (hashlib.sha256
       (Unicode.utf8_encode
          (Unicode.of_string
             "abcdbcdecdefdefgefghfghighijhijkijkljklmklmnlmnomnopnopq")))
  = Unicode.of_string
      "248d6a61d20638b8e5c026930c3e6039a33ce45964ff2167f6ecedd419db06c1".
Proof. vm_compute. reflexivity. Qed.

(** ** Request fingerprints *)

Example dumps_body0 :
  request_dedupe.dumps DedupeExample.body0
  = dq "{'max_tokens': 1024, 'messages': [{'content': 'hi', 'role': 'user'}], 'model': 'claude', 'stream': false}".
Proof. vm_compute. reflexivity. Qed.

Example fingerprint_body0 :
  request_dedupe.fingerprint DedupeExample.body0
  = Unicode.of_string
      "54a12f4d95028514c7dee792cfc88c140340a7de51818fe4b3c4f344fb4fd1be".
Proof. vm_compute. reflexivity. Qed.

Lemma short_json_is_prefix (obj : request_dedupe.json) :
  request_dedupe._short_json obj 4096
  = take 4096 (request_dedupe.dumps obj).
Proof.
  unfold request_dedupe._short_json, Py.len, Py.slice_to.
  destruct (Z.leb_spec (Z.of_nat (length (request_dedupe.dumps obj))) 4096)
    as [Hle|Hgt].
  - rewrite take_ge by lia. reflexivity.
  - reflexivity.
Qed.

Lemma fingerprint_of_prefix (a b : request_dedupe.json) :
  take 4096 (request_dedupe.dumps a) = take 4096 (request_dedupe.dumps b) ->
  request_dedupe.fingerprint a = request_dedupe.fingerprint b.
Proof.
  intros Heq. unfold request_dedupe.fingerprint.
  now rewrite !short_json_is_prefix, Heq.
Qed.

(** C8 (as amended). The fingerprint is the SHA-256 hex digest of the
    first 4096 characters of the canonical serialization: a body whose
    serialization has at most 4096 characters is hashed whole, and two
    bodies whose serializations agree on their first 4096 characters (in
    particular, two bodies with equal serializations) have equal
    fingerprints. *)
Theorem fingerprint_hashes_serialization_prefix :
  (forall obj,
      request_dedupe.fingerprint obj
      = hashlib.hexdigest
          (hashlib.sha256
             (Unicode.utf8_encode (take 4096 (request_dedupe.dumps obj)))))
  /\ (forall obj,
        Py.len (request_dedupe.dumps obj) <= 4096 ->
        request_dedupe.fingerprint obj
        = hashlib.hexdigest
            (hashlib.sha256
               (Unicode.utf8_encode (request_dedupe.dumps obj))))
  /\ (forall a b,
        take 4096 (request_dedupe.dumps a)
        = take 4096 (request_dedupe.dumps b) ->
        request_dedupe.fingerprint a = request_dedupe.fingerprint b)
  /\ (forall a b,
        request_dedupe.dumps a = request_dedupe.dumps b ->
        request_dedupe.fingerprint a = request_dedupe.fingerprint b).
Proof.
  repeat split.
  - intros obj. unfold request_dedupe.fingerprint.
    now rewrite short_json_is_prefix.
  - intros obj Hle. unfold request_dedupe.fingerprint.
    rewrite short_json_is_prefix.
    unfold Py.len in Hle. rewrite take_ge by lia. reflexivity.
  - apply fingerprint_of_prefix.
  - intros a b Heq. apply fingerprint_of_prefix. now rewrite Heq.
Qed.

Lemma fingerprint_hashes_serialization_prefix_witness :
  request_dedupe.fingerprint DedupeExample.body0
  = hashlib.hexdigest
      (hashlib.sha256
         (Unicode.utf8_encode (request_dedupe.dumps DedupeExample.body0))).
Proof.
  apply (proj1 (proj2 fingerprint_hashes_serialization_prefix)).
  vm_compute. discriminate.
Defined.

(** Two bodies whose serializations differ only beyond the first 4096
    characters have the same fingerprint, and that fingerprint is not the
    digest of the whole serialization. *)
Lemma fingerprint_ignores_the_tail :
  request_dedupe.dumps (DedupeExample.long_body 5000)
  <> request_dedupe.dumps (DedupeExample.long_body 6000)
  /\ request_dedupe.fingerprint (DedupeExample.long_body 5000)
     = request_dedupe.fingerprint (DedupeExample.long_body 6000)
  /\ request_dedupe.fingerprint (DedupeExample.long_body 5000)
     <> hashlib.hexdigest
          (hashlib.sha256
             (Unicode.utf8_encode
                (request_dedupe.dumps (DedupeExample.long_body 5000)))).
Proof.
  split; [| split].
  - intros H. apply (f_equal (@length N)) in H. vm_compute in H.
    discriminate H.
  - apply fingerprint_of_prefix. vm_compute. reflexivity.
  - intros H. vm_compute in H. discriminate H.
Qed.

(** *** Canonical order of the keys *)

Section Canonical.
Import Unicode request_dedupe.

Lemma str_le_total (a b : pystr) : str_le a b = true \/ str_le b a = true.
Proof.
  revert b. induction a as [|x a IH]; intros [|y b]; simpl; auto.
  destruct (N.ltb_spec x y); [now left |].
  destruct (N.ltb_spec y x); [now right |]. apply IH.
Qed.

Lemma str_le_antisym (a b : pystr) :
  str_le a b = true -> str_le b a = true -> a = b.
Proof.
  revert b. induction a as [|x a IH]; intros [|y b]; simpl;
    try discriminate; [reflexivity |].
  destruct (N.ltb_spec x y); destruct (N.ltb_spec y x);
    try discriminate; try lia.
  intros H1 H2. f_equal; [lia | now apply IH].
Qed.

Lemma str_le_trans (a b c : pystr) :
  str_le a b = true -> str_le b c = true -> str_le a c = true.
Proof.
  revert b c. induction a as [|x a IH]; intros [|y b] [|z c]; simpl;
    try discriminate; try reflexivity.
  destruct (N.ltb_spec x y); destruct (N.ltb_spec y x);
    destruct (N.ltb_spec y z); destruct (N.ltb_spec z y);
    destruct (N.ltb_spec x z); destruct (N.ltb_spec z x);
    try discriminate; try lia; try reflexivity.
  apply IH.
Qed.

Lemma insert_item_perm kv l : insert_item kv l ≡ₚ kv :: l.
Proof.
  induction l as [|kv' l IH]; simpl; [reflexivity |].
  destruct (str_le (fst kv') (fst kv)); [| reflexivity].
  rewrite IH. apply Permutation_swap.
Qed.

Lemma insert_item_sorted kv l :
  StronglySorted key_le l -> StronglySorted key_le (insert_item kv l).
Proof.
  induction 1 as [|kv' l Hl IH Hall]; simpl.
  - repeat constructor.
  - destruct (str_le (fst kv') (fst kv)) eqn:Hle.
    + constructor; [exact IH |].
      rewrite insert_item_perm. constructor; [exact Hle | exact Hall].
    + assert (Hkv : key_le kv kv').
      { destruct (str_le_total (fst kv) (fst kv')); [assumption | congruence]. }
      constructor; [now constructor |].
      constructor; [exact Hkv |].
      eapply Forall_impl; [exact Hall |].
      intros x Hx. unfold key_le in *. eapply str_le_trans; eassumption.
Qed.

Lemma sort_items_spec l :
  StronglySorted key_le (sort_items l) /\ sort_items l ≡ₚ l.
Proof.
  unfold sort_items.
  assert (H : forall acc, StronglySorted key_le acc ->
    StronglySorted key_le (fold_left (fun acc kv => insert_item kv acc) l acc)
    /\ fold_left (fun acc kv => insert_item kv acc) l acc ≡ₚ acc ++ l).
  { induction l as [|kv l IH]; intros acc Hacc; simpl.
    - split; [exact Hacc | now rewrite app_nil_r].
    - destruct (IH (insert_item kv acc) (insert_item_sorted kv acc Hacc))
        as [Hs Hp].
      split; [exact Hs |]. rewrite Hp, insert_item_perm.
      simpl. apply Permutation_middle. }
  destruct (H [] (SSorted_nil _)) as [Hs Hp]. now split.
Qed.

Lemma unique_key {V : Type} (l : list (pystr * V)) x y :
  NoDup (map fst l) -> x ∈ l -> y ∈ l -> fst x = fst y -> x = y.
Proof.
  induction l as [|z l IH]; intros Hnd Hx Hy Hxy; [inversion Hx |].
  simpl in Hnd. apply NoDup_cons in Hnd as [Hz Hnd].
  apply elem_of_cons in Hx as [->|Hx]; apply elem_of_cons in Hy as [->|Hy].
  - reflexivity.
  - destruct Hz. rewrite Hxy. now apply list_elem_of_fmap_2.
  - destruct Hz. rewrite <- Hxy. now apply list_elem_of_fmap_2.
  - now apply IH.
Qed.

Lemma sort_items_permutation l l' :
  NoDup (map fst l) -> l ≡ₚ l' -> sort_items l = sort_items l'.
Proof.
  intros Hnd Hp.
  destruct (sort_items_spec l) as [Hs1 Hp1].
  destruct (sort_items_spec l') as [Hs2 Hp2].
  apply (StronglySorted_unique_strong key_le); try assumption.
  - intros x1 x2 Hx1 Hx2 H12 H21.
    apply (unique_key l); [exact Hnd | | |].
    + now rewrite <- Hp1.
    + now rewrite Hp, <- Hp2.
    + now apply str_le_antisym.
  - now rewrite Hp1, Hp2.
Qed.

(** X12. The serialization is canonical in the order of the keys: two
    dicts that hold the same items (with distinct keys, as in any dict)
    in different orders have the same serialization, hence the same
    fingerprint. *)
Theorem fingerprint_ignores_key_order (d d' : list (pystr * json)) :
  NoDup (map fst d) ->
  d ≡ₚ d' ->
  dumps (JDict d) = dumps (JDict d')
  /\ fingerprint (JDict d) = fingerprint (JDict d').
Proof.
  intros Hnd Hp.
  assert (Hd : dumps (JDict d) = dumps (JDict d')).
  { cbn [dumps]. do 4 f_equal.
    apply sort_items_permutation.
    - rewrite map_map.
      erewrite map_ext; [exact Hnd |]. now intros [k v].
    - now apply Permutation_map. }
  split; [exact Hd |]. unfold fingerprint, _short_json. now rewrite Hd.
Qed.

(** X13. [fingerprint_drop] does not depend on the values of the dropped
    keys: two dicts that differ only in the value of a dropped key have
    the same signature; with nothing to drop it is the fingerprint. *)
Theorem fingerprint_drop_ignores_dropped (d1 d2 : list (pystr * json))
  (key : pystr) (v v' : json) (drop_keys : list pystr) :
  key ∈ drop_keys ->
  fingerprint_drop (JDict (d1 ++ (key, v) :: d2)) drop_keys
  = fingerprint_drop (JDict (d1 ++ (key, v') :: d2)) drop_keys
  /\ fingerprint_drop (JDict (d1 ++ (key, v) :: d2)) drop_keys
     = fingerprint_drop (JDict (d1 ++ d2)) drop_keys
  /\ fingerprint_drop (JDict (d1 ++ d2)) [] = fingerprint (JDict (d1 ++ d2)).
Proof.
  intros Hin. unfold fingerprint_drop.
  assert (Hf : forall w : json,
    List.filter (fun kv : pystr * json =>
                   negb (bool_decide (fst kv ∈ drop_keys)))
                (d1 ++ (key, w) :: d2)
    = List.filter (fun kv : pystr * json =>
                     negb (bool_decide (fst kv ∈ drop_keys))) (d1 ++ d2)).
  { intros w. rewrite !List.filter_app. f_equal.
    cbn [List.filter fst].
    now rewrite (bool_decide_eq_true_2 _ Hin). }
  rewrite !Hf. split; [reflexivity |]. split; [reflexivity |].
  assert (Hnil : forall l : list (pystr * json),
    List.filter (fun kv : pystr * json =>
                   negb (bool_decide (fst kv ∈ @nil pystr))) l = l).
  { induction l as [|kv l IH]; [reflexivity |].
    cbn [List.filter].
    rewrite bool_decide_eq_false_2 by apply not_elem_of_nil.
    cbn [negb]. now rewrite IH. }
  now rewrite Hnil.
Qed.

End Canonical.

(** *** The dedupe window *)

Section SeenFacts.
Import Unicode request_dedupe.
Variable WINDOW MAX_KEYS : Z.

Abbreviation mark := (check_and_mark WINDOW MAX_KEYS).

(** X14. With a positive window, a request marked at [t0] (the table not
    overflowing) makes every call with the same key at [t1] in
    [[t0, t0 + window)] a duplicate: it is reported with a retry delay of
    [window - (t1 - t0)] milliseconds, between 1 and the window, and
    leaves the table as it is (a retry does not extend the window); a
    call at [t0 + window] or later is not a duplicate. *)
Theorem duplicate_within_window (t0 t1 : Z) (key : pystr)
  (seen : gmap pystr Z) :
  0 < WINDOW ->
  snd (mark t0 key seen) = (false, 0) ->
  fst (mark t0 key seen) <> ∅ ->
  t0 <= t1 ->
  let seen1 := fst (mark t0 key seen) in
  (t1 < t0 + WINDOW ->
   mark t1 key seen1 = (seen1, (true, WINDOW - (t1 - t0)))
   /\ 1 <= WINDOW - (t1 - t0) <= WINDOW)
  /\ (t0 + WINDOW <= t1 -> fst (snd (mark t1 key seen1)) = false).
Proof.
  intros Hw Hnd Hne Hle seen1.
  assert (Hwin : _window_ms WINDOW = WINDOW) by (unfold _window_ms; lia).
  assert (Hs1 : seen1 !! key = Some t0).
  { unfold seen1, check_and_mark in *. rewrite Hwin in *.
    destruct (seen !! key) as [last|].
    - destruct ((0 <? WINDOW) && (t0 - last <? WINDOW)); [discriminate |].
      simpl in *. destruct (_ <? _); [contradiction |].
      apply lookup_insert_eq.
    - simpl in *. destruct (_ <? _); [contradiction |].
      apply lookup_insert_eq. }
  split.
  - intros Hlt. unfold check_and_mark. rewrite Hs1, Hwin.
    destruct (Z.ltb_spec 0 WINDOW); [| lia].
    destruct (Z.ltb_spec (t1 - t0) WINDOW); [| lia].
    simpl. split; [| lia]. do 3 f_equal. lia.
  - intros Hge. unfold check_and_mark. rewrite Hs1, Hwin.
    destruct (Z.ltb_spec (t1 - t0) WINDOW); [lia |].
    rewrite andb_false_r. reflexivity.
Qed.

(** X15. The table of seen requests stays bounded: a call never leaves
    more than [_max_keys] entries in a table that had at most that many,
    and a mark that would overflow the table empties it, so that the
    request just marked is forgotten as well. *)
Theorem seen_table_is_bounded (now : Z) (key : pystr) (seen : gmap pystr Z) :
  (Z.of_nat (size seen) <= _max_keys MAX_KEYS ->
   Z.of_nat (size (fst (mark now key seen))) <= _max_keys MAX_KEYS)
  /\ (fst (snd (mark now key seen)) = false ->
      _max_keys MAX_KEYS < Z.of_nat (size (<[key := now]> seen)) ->
      fst (mark now key seen) = ∅).
Proof.
  unfold check_and_mark.
  assert (Hmark : forall b,
    (Z.of_nat (size (if _max_keys MAX_KEYS <? Z.of_nat (size (<[key:=now]> seen))
                     then (∅ : gmap pystr Z) else <[key:=now]> seen))
     <= _max_keys MAX_KEYS)
    /\ (b = false ->
        _max_keys MAX_KEYS < Z.of_nat (size (<[key := now]> seen)) ->
        (if _max_keys MAX_KEYS <? Z.of_nat (size (<[key:=now]> seen))
         then (∅ : gmap pystr Z) else <[key:=now]> seen) = ∅)).
  { intros b.
    destruct (Z.ltb_spec (_max_keys MAX_KEYS)
                (Z.of_nat (size (<[key:=now]> seen)))).
    - split; [| reflexivity]. rewrite map_size_empty.
      unfold _max_keys. lia.
    - split; [assumption | lia]. }
  destruct (seen !! key) as [last|].
  - destruct ((0 <? _window_ms WINDOW) && (now - last <? _window_ms WINDOW));
      simpl.
    + split; [auto | discriminate].
    + destruct (Hmark false) as [H1 H2]. split; [intros _; exact H1 | exact H2].
  - simpl. destruct (Hmark false) as [H1 H2].
    split; [intros _; exact H1 | exact H2].
Qed.

End SeenFacts.

(** ** Token budget *)

(** C9 (as amended). For a text of at least 20 000 characters the
    estimate is the number of characters of the text and the encoder is
    not called; for a shorter text it is what [count_tokens] returns:
    the number of tokens of the encoding, with one call of the encoder,
    or zero without a call when the text is empty or no encoder is
    loaded. *)
Theorem budget_estimate_short_circuit {Token : Type}
  (ENCODING : option (Unicode.pystr -> list Token)) (mult : Z -> Z)
  (text : Unicode.pystr) :
  (20000 <= Py.len text ->
   context_compressor._budget_tokens_estimate ENCODING mult text
   = (Py.len text, []))
  /\ (Py.len text < 20000 ->
      context_compressor._budget_tokens_estimate ENCODING mult text
      = tokenizer.count_tokens ENCODING mult text false
      /\ forall enc, ENCODING = Some enc -> text <> [] ->
           context_compressor._budget_tokens_estimate ENCODING mult text
           = (Py.len (enc text), [text])).
Proof.
  unfold context_compressor._budget_tokens_estimate.
  split.
  - intros Hlen.
    destruct text as [|c text];
      [unfold Py.len in Hlen; simpl in Hlen; lia |].
    cbn [Py.truthy negb].
    destruct (Z.leb_spec 20000 (Py.len (c :: text))); [reflexivity | lia].
  - intros Hlen. split.
    + destruct text as [|c text].
      * simpl. unfold tokenizer.count_tokens. now destruct ENCODING.
      * cbn [Py.truthy negb].
        destruct (Z.leb_spec 20000 (Py.len (c :: text))); [lia | reflexivity].
    + intros enc -> Hne. destruct text as [|c text]; [contradiction |].
      cbn [Py.truthy negb].
      destruct (Z.leb_spec 20000 (Py.len (c :: text))); [lia | reflexivity].
Qed.

Lemma budget_estimate_short_circuit_witness :
  context_compressor._budget_tokens_estimate (Some BudgetExample.enc0)
    (fun n => n) BudgetExample.long_text
  = (20000, [])
  /\ context_compressor._budget_tokens_estimate (Some BudgetExample.enc0)
       (fun n => n) (Unicode.of_string "hello")
     = (5, [Unicode.of_string "hello"]).
Proof.
  split.
  - apply (proj1 (budget_estimate_short_circuit (Some BudgetExample.enc0)
                    (fun n => n) BudgetExample.long_text)).
    vm_compute. discriminate.
  - destruct (proj2 (budget_estimate_short_circuit (Some BudgetExample.enc0)
                       (fun n => n) (Unicode.of_string "hello")))
      as [_ H].
    + vm_compute. reflexivity.
    + apply (H BudgetExample.enc0); [reflexivity | discriminate].
Defined.

(** A text of 20 000 two-byte characters: the estimate is 20 000, its
    UTF-8 encoding has 40 000 bytes. *)
Lemma budget_estimate_is_not_byte_length :
  20000 <= Py.len BudgetExample.long_text
  /\ fst (context_compressor._budget_tokens_estimate
            (Some BudgetExample.enc0) (fun n => n) BudgetExample.long_text)
     = 20000
  /\ Py.len (Unicode.utf8_encode BudgetExample.long_text) = 40000
  /\ fst (context_compressor._budget_tokens_estimate
            (Some BudgetExample.enc0) (fun n => n) BudgetExample.long_text)
     <> Py.len (Unicode.utf8_encode BudgetExample.long_text).
Proof.
  repeat split; try (vm_compute; reflexivity); vm_compute; discriminate.
Qed.

(** ** Context compression *)

Section CompressFacts.
Import Unicode tokenizer context_compressor.
Context {Token : Type}.
Variable ENCODING : option (pystr -> list Token).
Variable mult : Z -> Z.

Abbreviation estimate := (_budget_tokens_estimate ENCODING mult).
Abbreviation compress := (compress_messages ENCODING mult).

Lemma estimate_nonneg (text : pystr) : 0 <= fst (estimate text).
Proof.
  unfold _budget_tokens_estimate, count_tokens, Py.len.
  destruct (negb (Py.truthy text)); [simpl; lia |].
  destruct (20000 <=? Z.of_nat (length text)); [simpl; lia |].
  destruct ENCODING as [enc|]; simpl; lia.
Qed.

Lemma estimate_calls (text : pystr) :
  Forall (fun t => Py.len t < 20000) (snd (estimate text))
  /\ (length (snd (estimate text)) <= 1)%nat.
Proof.
  unfold _budget_tokens_estimate, count_tokens.
  destruct (negb (Py.truthy text)); [simpl; split; [constructor | lia] |].
  destruct (Z.leb_spec 20000 (Py.len text));
    [simpl; split; [constructor | lia] |].
  destruct ENCODING as [enc|]; simpl;
    (split; [repeat constructor; assumption | lia]).
Qed.

Lemma full_estimate_nonneg (messages : list message) :
  0 <= full_estimate ENCODING mult messages.
Proof.
  induction messages as [|m l IH]; simpl; [lia |].
  pose proof (estimate_nonneg (text_of m)). lia.
Qed.

Lemma total_loop_decision (max_tokens : Z) (messages : list message)
  (acc : Z) :
  let total := fst (total_loop ENCODING mult max_tokens messages acc) in
  (total <= max_tokens <-> acc + full_estimate ENCODING mult messages <= max_tokens)
  /\ (acc + full_estimate ENCODING mult messages <= max_tokens ->
      total = acc + full_estimate ENCODING mult messages).
Proof.
  revert acc. induction messages as [|m l IH]; intros acc; simpl.
  - split; [split; lia | lia].
  - pose proof (estimate_nonneg (text_of m)) as Hn.
    pose proof (full_estimate_nonneg l) as Hl.
    destruct (estimate (text_of m)) as [n calls]. simpl in Hn |- *.
    destruct (Z.ltb_spec max_tokens (acc + n)); simpl.
    + split; [split; lia | lia].
    + specialize (IH (acc + n)).
      destruct (total_loop ENCODING mult max_tokens l (acc + n))
        as [total calls'].
      simpl in IH |- *. destruct IH as [IH1 IH2].
      split; [rewrite IH1; split; lia | intros; rewrite IH2; lia].
Qed.

Lemma total_loop_calls (max_tokens : Z) (messages : list message) (acc : Z) :
  Forall (fun t => Py.len t < 20000)
    (snd (total_loop ENCODING mult max_tokens messages acc))
  /\ (length (snd (total_loop ENCODING mult max_tokens messages acc))
      <= length messages)%nat.
Proof.
  revert acc. induction messages as [|m l IH]; intros acc; simpl.
  - split; [constructor | lia].
  - destruct (estimate_calls (text_of m)) as [Hc1 Hc2].
    destruct (estimate (text_of m)) as [n calls]. simpl in Hc1, Hc2.
    destruct (max_tokens <? acc + n); simpl.
    + split; [exact Hc1 | lia].
    + specialize (IH (acc + n)).
      destruct (total_loop ENCODING mult max_tokens l (acc + n))
        as [total calls'].
      simpl in IH |- *. destruct IH as [IH1 IH2].
      split; [now apply Forall_app | rewrite length_app; lia].
Qed.

Lemma filter_partition_length (messages : list message) :
  (length (system_of messages) + length (others_of messages)
   = length messages)%nat.
Proof.
  unfold system_of, others_of.
  induction messages as [|m l IH]; simpl; [reflexivity |].
  destruct (is_system m); simpl; lia.
Qed.

(** X17. [compress_messages] decides on the sum of the estimates of all
    the messages although its loop stops early: the messages are
    returned as they are when that sum is within [max_tokens], or when
    at most [keep_recent] of them are not system messages.  Otherwise,
    for a positive [keep_recent], the result is the system messages,
    then one system message that summarises the older other messages,
    then the last [keep_recent] other messages, in their order; it is
    never longer than the input. *)
Theorem compress_messages_shape (messages : list message)
  (max_tokens keep_recent : Z) :
  let others := others_of messages in
  let n := length others in
  (full_estimate ENCODING mult messages <= max_tokens
   \/ Z.of_nat n <= keep_recent ->
   fst (compress messages max_tokens keep_recent) = messages)
  /\ (max_tokens < full_estimate ENCODING mult messages ->
      1 <= keep_recent < Z.of_nat n ->
      let k := Z.to_nat keep_recent in
      fst (compress messages max_tokens keep_recent)
      = system_of messages
        ++ [summary_of (take (n - k) others)] ++ drop (n - k) others
      /\ (length (fst (compress messages max_tokens keep_recent))
          <= length messages)%nat).
Proof.
  intros others n. unfold compress_messages.
  destruct (Py.truthy messages) eqn:Ht; cbn [negb].
  2: { apply truthy_false in Ht. subst messages.
       split; [reflexivity | simpl in n; subst n; simpl; intros; lia]. }
  destruct (total_loop_decision max_tokens messages 0) as [Hdec _].
  destruct (total_loop ENCODING mult max_tokens messages 0) as [total calls].
  simpl in Hdec. fold (others_of messages). fold (system_of messages).
  fold others. change (Py.len others) with (Z.of_nat n).
  split.
  - intros Hcase.
    destruct (Z.leb_spec total max_tokens); [reflexivity |].
    destruct (Z.leb_spec (Z.of_nat n) keep_recent); [reflexivity |].
    exfalso. destruct Hcase; lia.
  - intros Hover Hkeep. set (k := Z.to_nat keep_recent).
    destruct (Z.leb_spec total max_tokens); [lia |].
    destruct (Z.leb_spec (Z.of_nat n) keep_recent); [lia |].
    unfold slice_from, slice_to, summary_of.
    destruct (Z.ltb_spec (- keep_recent) 0); [| lia].
    change (Py.len others) with (Z.of_nat n).
    replace (Z.to_nat (Z.of_nat n + - keep_recent)) with (n - k)%nat
      by (unfold k; lia).
    cbn [fst]. split; [reflexivity |].
    rewrite !length_app, length_drop. cbn [length].
    pose proof (filter_partition_length messages) as Hlen.
    fold others in Hlen. fold n in Hlen. unfold k. lia.
Qed.

(** X18. With [keep_recent = 0] nothing is compressed: a history over
    the budget that has a message other than system messages is
    returned with all its messages, the system messages first, and with
    a summary of no message between the two groups; the result is
    longer than the input. *)
Theorem compress_messages_keep_none (messages : list message)
  (max_tokens : Z) :
  max_tokens < full_estimate ENCODING mult messages ->
  others_of messages <> [] ->
  fst (compress messages max_tokens 0)
  = system_of messages ++ [summary_of []] ++ others_of messages
  /\ length (fst (compress messages max_tokens 0)) = S (length messages).
Proof.
  intros Hover Hne. unfold compress_messages.
  destruct (Py.truthy messages) eqn:Ht; cbn [negb].
  2: { apply truthy_false in Ht. subst messages. contradiction. }
  destruct (total_loop_decision max_tokens messages 0) as [Hdec _].
  destruct (total_loop ENCODING mult max_tokens messages 0) as [total calls].
  simpl in Hdec. fold (others_of messages). fold (system_of messages).
  destruct (Z.leb_spec total max_tokens); [lia |].
  destruct (Z.leb_spec (Py.len (others_of messages)) 0) as [Hz|Hz].
  { unfold Py.len in Hz. destruct (others_of messages); [contradiction |].
    simpl in Hz. lia. }
  unfold slice_from, slice_to, summary_of.
  change (- 0 <? 0) with false. change (Z.to_nat (- 0)) with 0%nat.
  cbn [skipn firstn fst]. split; [reflexivity |].
  rewrite !length_app, drop_0. cbn [length].
  pose proof (filter_partition_length messages). lia.
Qed.

(** X19. While it decides, [compress_messages] calls the encoder at most
    once for each message and never on a text of 20 000 characters or
    more. *)
Theorem compress_messages_encoder_calls (messages : list message)
  (max_tokens keep_recent : Z) :
  Forall (fun t => Py.len t < 20000)
    (snd (compress messages max_tokens keep_recent))
  /\ (length (snd (compress messages max_tokens keep_recent))
      <= length messages)%nat.
Proof.
  unfold compress_messages.
  destruct (negb (Py.truthy messages)); [simpl; split; [constructor | lia] |].
  pose proof (total_loop_calls max_tokens messages 0) as Hc.
  destruct (total_loop ENCODING mult max_tokens messages 0) as [total calls].
  destruct (total <=? max_tokens); [exact Hc |].
  destruct (_ <=? keep_recent); exact Hc.
Qed.

End CompressFacts.

(** ** The properties on the test data *)

Lemma update_account_stats_keeps_invariants_witness :
  exists a,
    account_service.accounts
      (account_service.update_account_stats 100 AccountExample.ratio0
         AccountExample.clk0 "acc-1" false false false AccountExample.db0)
      !! "acc-1"%string = Some a
    /\ account_ok 100 a.
Proof.
  eexists. split; [vm_compute; reflexivity |].
  apply (update_account_stats_keeps_invariants 100 AccountExample.ratio0
           ltac:(lia) AccountExample.clk0 "acc-1" false false false
           AccountExample.db0) with (i := "acc-1"%string).
  - intros i a Ha. unfold AccountExample.db0 in Ha. simpl in Ha.
    apply lookup_singleton_Some in Ha as [_ <-].
    unfold account_ok. simpl. lia.
  - vm_compute. reflexivity.
Defined.

Lemma consecutive_failures_disable_witness :
  exists a',
    account_service.accounts
      (account_service.update_account_stats_all 100 AccountExample.ratio0
         "acc-1" MoreAccountExample.failures AccountExample.db0)
      !! "acc-1"%string = Some a'
    /\ account_service.error_count a' = 101
    /\ account_service.enabled a' = 0.
Proof.
  destruct (consecutive_failures_disable 100 AccountExample.ratio0
              "acc-1" MoreAccountExample.failures AccountExample.db0
              AccountExample.acc0) as (a' & Ha & He & Hd & _).
  - repeat constructor.
  - discriminate.
  - vm_compute. reflexivity.
  - exists a'. split; [exact Ha |]. split; [exact He |].
    apply Hd. rewrite He. vm_compute. discriminate.
Defined.


Lemma rate_limit_per_clock_minute_witness :
  snd (advanced.check_rate_limit_all "k1" 2 MoreVerifyExample.minute_times
         VerifyExample.m0)
  = [true; true; false].
Proof.
  apply (rate_limit_per_clock_minute advanced.MINUTE "k1" 2
           MoreVerifyExample.minute_times VerifyExample.m0).
  - vm_compute. reflexivity.
  - repeat constructor; vm_compute; reflexivity.
Defined.

Lemma repeated_failures_block_witness :
  advanced._is_blocked VerifyExample.cfg0 (10 * advanced.SECOND)
    (Some "10.0.0.9"%string) MoreVerifyExample.m_blocked = true
  /\ exists info',
       advanced.keys MoreVerifyExample.m_blocked !! "k1"%string = Some info'
       /\ advanced.status info' = advanced.COMPROMISED.
Proof.
  apply (repeated_failures_block VerifyExample.cfg0 (10 * advanced.SECOND)
           (10 * advanced.SECOND) "10.0.0.9" "k1"
           MoreVerifyExample.failure_times VerifyExample.m0
           VerifyExample.info0).
  - reflexivity.
  - discriminate.
  - vm_compute. discriminate.
  - unfold MoreVerifyExample.failure_times. cbn [map].
    repeat (constructor;
            [repeat split; vm_compute; (reflexivity || discriminate) |]).
    constructor.
  - vm_compute. reflexivity.
Defined.

Lemma blocked_address_never_verifies_witness :
  advanced.result
    (snd (advanced.verify_key VerifyExample.cfg0 VerifyExample.lookup_hash0
            VerifyExample.hash_key0 VerifyExample.db_ok0 (10 * advanced.SECOND) "sk-test"
            (Some "10.0.0.9"%string) None MoreVerifyExample.m_blocked))
  = None.
Proof.
  apply (blocked_address_never_verifies VerifyExample.cfg0
           VerifyExample.lookup_hash0 VerifyExample.hash_key0 VerifyExample.db_ok0).
  vm_compute. reflexivity.
Defined.

Lemma success_clears_failures_witness :
  advanced.failed_attempts
    (fst (FrameExample.verify0 (9 * advanced.SECOND) "sk-test"
            (Some "10.0.0.1"%string) None FrameExample.m_unlimited))
    !! "10.0.0.1"%string = None
  /\ advanced._is_blocked VerifyExample.cfg0 (9 * advanced.SECOND)
       (Some "10.0.0.1"%string)
       (fst (FrameExample.verify0 (9 * advanced.SECOND) "sk-test"
               (Some "10.0.0.1"%string) None FrameExample.m_unlimited))
     = false.
Proof.
  destruct (success_clears_failures VerifyExample.cfg0
              VerifyExample.lookup_hash0 VerifyExample.hash_key0 VerifyExample.db_ok0
              (9 * advanced.SECOND) "sk-test" "10.0.0.1" None
              FrameExample.m_unlimited
              (fst (FrameExample.verify0 (9 * advanced.SECOND) "sk-test"
                      (Some "10.0.0.1"%string) None FrameExample.m_unlimited))
              "k1"
              (advanced.mark_used (9 * advanced.SECOND)
                 FrameExample.info_unlimited)) as [H1 H2].
  - vm_compute. reflexivity.
  - split; [exact H1 | apply H2].
Defined.

Lemma inactive_key_never_verifies_witness :
  Forall (fun o => advanced.result o = None)
    (snd (advanced.verify_all VerifyExample.cfg0 VerifyExample.lookup_hash0
            VerifyExample.hash_key0 VerifyExample.db_ok0 "sk-test" VerifyExample.attempts0
            MoreVerifyExample.m_inactive)).
Proof.
  apply (inactive_key_never_verifies VerifyExample.cfg0
           VerifyExample.lookup_hash0 VerifyExample.hash_key0 VerifyExample.db_ok0 "sk-test" "k1"
           VerifyExample.attempts0 MoreVerifyExample.m_inactive
           (advanced.set_status advanced.INACTIVE VerifyExample.info0)).
  - reflexivity.
  - vm_compute. reflexivity.
  - vm_compute. reflexivity.
  - vm_compute. discriminate.
Defined.

Lemma revoked_key_is_rejected_witness :
  snd (advanced.revoke_key "k1" VerifyExample.m0) = true
  /\ Forall (fun o => advanced.result o = None)
       (snd (advanced.verify_all VerifyExample.cfg0
               VerifyExample.lookup_hash0 VerifyExample.hash_key0 VerifyExample.db_ok0 "sk-test"
               VerifyExample.attempts0
               (fst (advanced.revoke_key "k1" VerifyExample.m0)))).
Proof.
  destruct (revoked_key_is_rejected VerifyExample.cfg0
              VerifyExample.lookup_hash0 VerifyExample.hash_key0 VerifyExample.db_ok0 "sk-test"
              "k1" VerifyExample.attempts0 VerifyExample.m0)
    as (H1 & _ & _ & H4).
  - reflexivity.
  - vm_compute. reflexivity.
  - exists VerifyExample.info0. vm_compute. reflexivity.
  - split; [exact H1 | exact H4].
Defined.

Lemma expired_key_stays_rejected_witness :
  snd (advanced.verify_key VerifyExample.cfg0 VerifyExample.lookup_hash0
         VerifyExample.hash_key0 VerifyExample.db_ok0 (9 * advanced.SECOND) "sk-test" None None
         MoreVerifyExample.m_expired)
  = advanced.Rejected (advanced.KeyExpired "k1")
  /\ Forall (fun o => advanced.result o = None)
       (snd (advanced.verify_all VerifyExample.cfg0
               VerifyExample.lookup_hash0 VerifyExample.hash_key0 VerifyExample.db_ok0 "sk-test"
               VerifyExample.attempts0
               (fst (advanced.verify_key VerifyExample.cfg0
                       VerifyExample.lookup_hash0 VerifyExample.hash_key0 VerifyExample.db_ok0
                       (9 * advanced.SECOND) "sk-test" None None
                       MoreVerifyExample.m_expired)))).
Proof.
  destruct (expired_key_stays_rejected VerifyExample.cfg0
              VerifyExample.lookup_hash0 VerifyExample.hash_key0 VerifyExample.db_ok0
              (9 * advanced.SECOND) "sk-test" None None "k1"
              MoreVerifyExample.info_expired (1 * advanced.SECOND)
              VerifyExample.attempts0 MoreVerifyExample.m_expired)
    as (H1 & _ & H3).
  - reflexivity.
  - vm_compute. reflexivity.
  - reflexivity.
  - vm_compute. reflexivity.
  - vm_compute. reflexivity.
  - vm_compute. reflexivity.
  - reflexivity.
  - reflexivity.
  - vm_compute. reflexivity.
  - split; [exact H1 | exact H3].
Defined.

Lemma verified_usage_is_persisted_witness :
  (exists rows r,
     advanced.db
       (fst (advanced.verify_key VerifyExample.cfg0 VerifyExample.lookup_hash0
               VerifyExample.hash_key0 VerifyExample.db_ok0
               (1 * advanced.SECOND) "sk-test" None None VerifyExample.m0))
     = Some rows
     /\ ("k1"%string, r) ∈ rows
     /\ advanced.usage_count r = 1
     /\ advanced.last_used r = Some (1 * advanced.SECOND))
  /\ advanced.db
       (fst (advanced.verify_key VerifyExample.cfg0 VerifyExample.lookup_hash0
               VerifyExample.hash_key0 VerifyExample.db_down0
               (1 * advanced.SECOND) "sk-test" None None VerifyExample.m0))
     = advanced.db VerifyExample.m0.
Proof.
  split.
  - eexists. eexists. split; [vm_compute; reflexivity |].
    split; [apply list_elem_of_here |].
    match goal with
    | |- advanced.usage_count ?r = _ /\ _ =>
        destruct (verified_usage_is_persisted VerifyExample.cfg0
                    VerifyExample.lookup_hash0 VerifyExample.hash_key0
                    VerifyExample.db_ok0
                    (1 * advanced.SECOND) "sk-test" None None VerifyExample.m0
                    (fst (advanced.verify_key VerifyExample.cfg0
                            VerifyExample.lookup_hash0 VerifyExample.hash_key0
                            VerifyExample.db_ok0
                            (1 * advanced.SECOND) "sk-test" None None
                            VerifyExample.m0))
                    "k1"
                    (advanced.mark_used (1 * advanced.SECOND)
                       VerifyExample.info0)) as (_ & H & _);
          [vm_compute; reflexivity |];
          destruct (H eq_refl [("k1"%string, r)] r) as [Hu Hl];
          [vm_compute; reflexivity | apply list_elem_of_here |];
          rewrite Hu, Hl; split; reflexivity
    end.
  - destruct (verified_usage_is_persisted VerifyExample.cfg0
                VerifyExample.lookup_hash0 VerifyExample.hash_key0
                VerifyExample.db_down0
                (1 * advanced.SECOND) "sk-test" None None VerifyExample.m0
                (fst (advanced.verify_key VerifyExample.cfg0
                        VerifyExample.lookup_hash0 VerifyExample.hash_key0
                        VerifyExample.db_down0
                        (1 * advanced.SECOND) "sk-test" None None
                        VerifyExample.m0))
                "k1"
                (advanced.mark_used (1 * advanced.SECOND)
                   VerifyExample.info0)) as (_ & _ & H);
      [vm_compute; reflexivity | exact (H eq_refl)].
Defined.

Lemma fingerprint_ignores_key_order_witness :
  request_dedupe.fingerprint (request_dedupe.JDict MoreDedupeExample.d0)
  = request_dedupe.fingerprint (request_dedupe.JDict MoreDedupeExample.d1).
Proof.
  destruct (fingerprint_ignores_key_order MoreDedupeExample.d0
              MoreDedupeExample.d1) as [_ H]; [| | exact H].
  - apply NoDup_cons. split; [| apply NoDup_singleton].
    intros H. apply list_elem_of_singleton in H. discriminate H.
  - apply Permutation_swap.
Defined.

Lemma fingerprint_drop_ignores_dropped_witness :
  request_dedupe.fingerprint_drop
    (request_dedupe.JDict
       ([(Unicode.of_string "model",
          request_dedupe.JStr (Unicode.of_string "m1"))]
        ++ (Unicode.of_string "stream", request_dedupe.JBool true) :: []))
    [Unicode.of_string "stream"]
  = request_dedupe.fingerprint_drop
      (request_dedupe.JDict
         ([(Unicode.of_string "model",
            request_dedupe.JStr (Unicode.of_string "m1"))]
          ++ (Unicode.of_string "stream", request_dedupe.JBool false) :: []))
      [Unicode.of_string "stream"].
Proof.
  destruct (fingerprint_drop_ignores_dropped
              [(Unicode.of_string "model",
                request_dedupe.JStr (Unicode.of_string "m1"))]
              [] (Unicode.of_string "stream") (request_dedupe.JBool true)
              (request_dedupe.JBool false) [Unicode.of_string "stream"])
    as [H _]; [apply list_elem_of_here | exact H].
Defined.

Lemma duplicate_within_window_witness :
  request_dedupe.check_and_mark 1000 2000 5400 (Unicode.of_string "k")
    (fst (request_dedupe.check_and_mark 1000 2000 5000
            (Unicode.of_string "k") ∅))
  = (fst (request_dedupe.check_and_mark 1000 2000 5000
            (Unicode.of_string "k") ∅), (true, 600)).
Proof.
  destruct (duplicate_within_window 1000 2000 5000 5400
              (Unicode.of_string "k") ∅) as [H _].
  - lia.
  - vm_compute. reflexivity.
  - vm_compute. discriminate.
  - lia.
  - apply H. lia.
Defined.

Lemma seen_table_is_bounded_witness :
  Z.of_nat (size (fst (request_dedupe.check_and_mark 1000 2000 5000
                         (Unicode.of_string "k") ∅)))
  <= request_dedupe._max_keys 2000.
Proof.
  apply (seen_table_is_bounded 1000 2000 5000 (Unicode.of_string "k") ∅).
  vm_compute. discriminate.
Defined.

Lemma dedupe_rebuilds_snapshots_witness :
  stream_text (replicate._dedupe_assistant_content_events
                 StreamExample.events0) = str "Hello".
Proof.
  destruct (dedupe_rebuilds_snapshots StreamExample.events0) as [H _].
  apply H. vm_compute.
  repeat split; (try (exists []; reflexivity)).
  - eexists. reflexivity.
  - eexists. reflexivity.
Defined.

Lemma compress_messages_shape_witness :
  fst (context_compressor.compress_messages (Some BudgetExample.enc0)
         (fun n => n) CompressExample.messages0 5 1)
  = [CompressExample.msg "system" "S";
     summary_of [CompressExample.msg "user" "aaaa";
                 CompressExample.msg "assistant" "bbbb"];
     CompressExample.msg "user" "cccc"].
Proof.
  destruct (compress_messages_shape (Some BudgetExample.enc0) (fun n => n)
              CompressExample.messages0 5 1) as [_ H].
  destruct H as [H _].
  - vm_compute. reflexivity.
  - vm_compute. split; [discriminate | reflexivity].
  - exact H.
Defined.

Lemma compress_messages_keep_none_witness :
  length (fst (context_compressor.compress_messages (Some BudgetExample.enc0)
                 (fun n => n) CompressExample.messages0 5 0)) = 5%nat.
Proof.
  destruct (compress_messages_keep_none (Some BudgetExample.enc0)
              (fun n => n) CompressExample.messages0 5) as [_ H].
  - vm_compute. reflexivity.
  - vm_compute. discriminate.
  - exact H.
Defined.

Lemma post_processed_history_alternates_witness :
  converter._validate_history_alternation true
    (snd (converter._post_process_amazonq_history (fun _ => tt)
            AlternationExample.history0 []))
  = (None, []).
Proof.
  destruct (post_processed_history_alternates (fun _ => tt)
              AlternationExample.history0 [] true) as (_ & H & _).
  apply H. reflexivity.
Defined.

Lemma parse_string_headers_witness :
  replicate._parse_event_headers (fun b : replicate.bytes => b) (fun b => b)
    (concat (map string_header WireExample.hs0))
  = [(FeedExample.of_str ":event-type",
      replicate.HStr (FeedExample.of_str "chunk"));
     (FeedExample.of_str ":message-type",
      replicate.HStr (FeedExample.of_str "event"))].
Proof.
  destruct (parse_string_headers (fun b : replicate.bytes => b) (fun b => b)
              WireExample.hs0) as [_ H].
  - repeat constructor; vm_compute; reflexivity.
  - apply H. apply NoDup_cons. split; [| apply NoDup_singleton].
    intros Hin. apply list_elem_of_singleton in Hin. discriminate Hin.
Defined.

Lemma feed_decodes_frames_witness :
  FeedExample.feeds0 WireExample.chunks0 []
  = (map (fun f => (replicate._parse_event_headers
                      (fun b : replicate.bytes => b) (fun b => b)
                      (headers_raw f), payload f))
         [WireExample.frame0; WireExample.frame0], []).
Proof.
  apply (feed_decodes_frames (fun b : replicate.bytes => b) (fun b => b)
           [WireExample.frame0; WireExample.frame0] WireExample.chunks0).
  - repeat constructor; vm_compute; reflexivity.
  - vm_compute. reflexivity.
Defined.

Lemma quota_row_month_is_sticky_witness :
  exists r',
    account_service.quota_stats
      (account_service.update_account_stats 100 AccountExample.ratio0
         AccountExample.clk0 "acc-1" false true false QuotaExample.db1)
      !! "acc-1"%string = Some r'
    /\ account_service.month_key r' = "2026-01"%string
    /\ account_service.quota_status r' = "exhausted"%string.
Proof.
  destruct (quota_row_month_is_sticky 100 AccountExample.ratio0
              AccountExample.clk0 "acc-1" false true false QuotaExample.db1
              QuotaExample.row0)
    as (r' & Hr & Hm & _ & _ & _ & He).
  - vm_compute. reflexivity.
  - exists r'. split; [exact Hr |]. split; [exact Hm |].
    apply He; [reflexivity | reflexivity | vm_compute; discriminate].
Defined.

Lemma cleanup_expires_keys_witness :
  advanced.keys
    (advanced.cleanup_expired_keys (9 * advanced.SECOND)
       MoreVerifyExample.m_expired) !! "k1"%string
  = Some (advanced.set_status advanced.EXPIRED MoreVerifyExample.info_expired)
  /\ Forall (fun o => advanced.result o = None)
       (snd (advanced.verify_all VerifyExample.cfg0
               VerifyExample.lookup_hash0 VerifyExample.hash_key0 VerifyExample.db_ok0 "sk-test"
               VerifyExample.attempts0
               (advanced.cleanup_expired_keys (9 * advanced.SECOND)
                  MoreVerifyExample.m_expired))).
Proof.
  destruct (cleanup_expires_keys VerifyExample.cfg0
              VerifyExample.lookup_hash0 VerifyExample.hash_key0 VerifyExample.db_ok0
              (9 * advanced.SECOND) "sk-test" "k1"
              MoreVerifyExample.info_expired VerifyExample.attempts0
              MoreVerifyExample.m_expired) as (H & _).
  - vm_compute. reflexivity.
  - destruct (H (1 * advanced.SECOND)) as [H1 H2].
    + reflexivity.
    + vm_compute. reflexivity.
    + split; [exact H1 |]. apply H2; [reflexivity | vm_compute; reflexivity].
Defined.

Lemma append_thinking_hint_idempotent_witness :
  Unicode.of_string "hi"
  `prefix_of` converter._append_thinking_hint (Unicode.of_string "hi")
  /\ converter._append_thinking_hint
       (converter._append_thinking_hint (Unicode.of_string "hi"))
     = converter._append_thinking_hint (Unicode.of_string "hi").
Proof.
  destruct (append_thinking_hint_idempotent (Unicode.of_string "hi"))
    as (_ & Hidem & Hpre & _).
  split; [apply Hpre; discriminate | exact Hidem].
Defined.
